(** * Warden Trust Agent: the trust graph engine, embedded and verified

    A shallow embedding of the trust propagation solver
    ([src/core/eigentrust.ts]), of the helpers ([src/utils/helpers.ts]),
    of the path finder (the class [TrustPathTool] and
    [src/services/graph.service.ts]), of the scoring of an address (the
    class [TrustScoreTool]), of the factors of the on-chain analyzer
    ([OnChainAnalyzer]) and of the conversion of Intuition triples
    ([IntuitionService]).

    Conventions of the embedding.
    - A JavaScript [number] that carries a measure (weights, scores,
      thresholds) is an exact rational [Qc]; rounding, NaN and the
      infinities of IEEE doubles are outside this reading.  The one place
      where a double computation can leave the rationals, a division, is
      checked: [x /? y] yields [NonFinite] when [y] is zero.
    - A [number] that only counts (iterations, hops, indices, sizes) is a
      [nat]; a timestamp, an age in days or a parsed amount is a [Z].
    - Where the doubles themselves decide what the code does (a row sum
      that overflows, a decay factor that cancels, a [maxIterations] that
      is no natural number), the module [Float64] embeds the solver once
      more on binary64 numbers, and the statements about the rationals
      carry the conditions that keep the two readings together.
    - A string is the sequence of its code units, each below 256.
    - A [Map<string, _>] is a [gmap string _], a [Set<string>] given by the
      caller is a [gset string]; the node set of [compute], whose insertion
      order fixes the matrix indices, is a duplicate-free list.
    - An array is a list, read with [!!] and written with [<[i:=x]>].
    - Code that can throw, divide by zero or loop returns an [outcome].
    - The databases and networks behind the services are no code of the
      repository: the graph database is a list of stored edges, and the
      other services are given by what they answer. *)
From Stdlib Require Import QArith Qcanon Qcabs Ascii Lqa Qround.
From Stdlib Require Import DecimalString DecimalNat DecimalZ DecimalFacts.
From Stdlib Require Import PrimFloat SpecFloat FloatOps.
From stdpp Require Import numbers strings gmap fin_maps sorting list.

(* Decimal constants are read as JavaScript reads them: rounded to the
   nearest double. *)
Set Warnings "-inexact-float".

Local Open Scope Qc_scope.

(* ================================================================= *)
(** ** Outcomes *)

(** What running a piece of the program can end in. *)
Inductive outcome (A : Type) : Type :=
  | Ok (a : A)                (* a normal return *)
  | NonFinite                 (* a division by zero: the double is Infinity or NaN *)
  | OutOfFuel                 (* the loop was cut by the model's fuel *)
  | Thrown (msg : string).    (* a JavaScript exception *)
Arguments Ok {A} a.
Arguments NonFinite {A}.
Arguments OutOfFuel {A}.
Arguments Thrown {A} msg.

Definition outcome_bind {A B} (f : A → outcome B) (m : outcome A) : outcome B :=
  match m with
  | Ok a => f a
  | NonFinite => NonFinite
  | OutOfFuel => OutOfFuel
  | Thrown msg => Thrown msg
  end.

#[global] Instance outcome_ret : MRet outcome := @Ok.
#[global] Instance outcome_mbind : MBind outcome := @outcome_bind.
#[global] Instance outcome_fmap : FMap outcome :=
  λ A B f m, outcome_bind (λ a, Ok (f a)) m.

(* ================================================================= *)
(** ** Numbers *)

Definition Qc_of_nat (n : nat) : Qc := Qc_of_Z (Z.of_nat n).

(** [x / y] on doubles, kept inside the rationals. *)
Definition checked_div (x y : Qc) : outcome Qc :=
  if decide (y = 0) then NonFinite else Ok (x / y).
Infix "/?" := checked_div (at level 40, left associativity) : Qc_scope.

(** [Math.max(a, b)]. *)
Definition Math_max (a b : Qc) : Qc := if decide (a < b) then b else a.

(** [Math.abs(x)]. *)
Definition Math_abs (x : Qc) : Qc := Qcabs x.

(** The sum of a list, as mathematics writes it. *)
Definition sumQ (l : list Qc) : Qc := foldr Qcplus 0 l.

(** [arr[i]] on an array of numbers that is read inside its bounds. *)
Definition at_index (v : list Qc) (i : nat) : Qc := default 0 (v !! i).

(** [M[i][j]]. *)
Definition entry (M : list (list Qc)) (i j : nat) : Qc :=
  at_index (default [] (M !! i)) j.

(* ================================================================= *)
(** ** Strings *)

(** [String.prototype.toLowerCase].  A character of the embedding is a
    code unit below 256 (Latin-1).  There the letters [A]-[Z] (65-90),
    [U+00C0]-[U+00D6] (192-214) and [U+00D8]-[U+00DE] (216-222) have
    their lower-case forms 32 places further, and no other character
    changes (the sign [U+00D7] between the two accented ranges is no
    letter). *)
Definition lower_ascii (c : ascii) : ascii :=
  let n := nat_of_ascii c in
  if ((65 <=? n) && (n <=? 90) || (192 <=? n) && (n <=? 214)
      || (216 <=? n) && (n <=? 222))%nat
  then ascii_of_nat (n + 32) else c.

Fixpoint toLowerCase (s : string) : string :=
  match s with
  | EmptyString => EmptyString
  | String c r => String (lower_ascii c) (toLowerCase r)
  end.

Definition is_hex_digit (c : ascii) : bool :=
  let n := nat_of_ascii c in
  ((48 <=? n) && (n <=? 57) || (97 <=? n) && (n <=? 102)
   || (65 <=? n) && (n <=? 70))%nat.

Fixpoint all_hex (s : string) : bool :=
  match s with
  | EmptyString => true
  | String c r => is_hex_digit c && all_hex r
  end.

(** [isValidAddress]: the regular expression [^0x[a-fA-F0-9]{40}$]. *)
Definition isValidAddress (address : string) : bool :=
  match address with
  | String "0" (String "x" digits) =>
      (String.length digits =? 40)%nat && all_hex digits
  | _ => false
  end.

(* ================================================================= *)
(** ** Types ([src/types/index.ts]) *)

Inductive TrustLevel : Type :=
  | unknown | suspicious | low | moderate | high | very_high.

Record TrustEdge : Type := mkEdge {
  from : string;
  to : string;
  weight : Qc;
  source : string;
  timestamp : Z
}.

Record EigenTrustConfig : Type := {
  maxIterations : nat;
  convergenceThreshold : Qc;
  preTrustedWeight : Qc;
  decayFactor : Qc
}.

(** [Partial<EigenTrustConfig>]. *)
Record PartialEigenTrustConfig : Type := {
  maxIterations_opt : option nat;
  convergenceThreshold_opt : option Qc;
  preTrustedWeight_opt : option Qc;
  decayFactor_opt : option Qc
}.

Record EigenTrustResult : Type := {
  scores : gmap string Qc;
  iterations : nat;
  converged : bool
}.

Record GraphPath : Type := {
  nodes : list string;
  edges : list TrustEdge;
  totalWeight : Qc;
  hops : nat
}.

(* ================================================================= *)
(** ** [scoreToLevel] ([src/utils/helpers.ts]) *)

Definition scoreToLevel (score : Qc) : TrustLevel :=
  if decide (Qc_of_Z 85 ≤ score) then very_high
  else if decide (Qc_of_Z 70 ≤ score) then high
  else if decide (Qc_of_Z 50 ≤ score) then moderate
  else if decide (Qc_of_Z 30 ≤ score) then low
  else if decide (Qc_of_Z 10 ≤ score) then suspicious
  else unknown.

(* ================================================================= *)
(** ** The trust propagation solver ([src/core/eigentrust.ts]) *)

Definition DEFAULT_CONFIG : EigenTrustConfig := {|
  maxIterations := 50;
  convergenceThreshold := Q2Qc (1 # 10000);
  preTrustedWeight := Q2Qc (1 # 10);
  decayFactor := Q2Qc (85 # 100)
|}.

Definition no_overrides : PartialEigenTrustConfig := {|
  maxIterations_opt := None;
  convergenceThreshold_opt := None;
  preTrustedWeight_opt := None;
  decayFactor_opt := None
|}.

(** The constructor: [{ ...DEFAULT_CONFIG, ...config }]. *)
Definition EigenTrustEngine (config : PartialEigenTrustConfig) : EigenTrustConfig := {|
  maxIterations := default (maxIterations DEFAULT_CONFIG) (maxIterations_opt config);
  convergenceThreshold :=
    default (convergenceThreshold DEFAULT_CONFIG) (convergenceThreshold_opt config);
  preTrustedWeight := default (preTrustedWeight DEFAULT_CONFIG) (preTrustedWeight_opt config);
  decayFactor := default (decayFactor DEFAULT_CONFIG) (decayFactor_opt config)
|}.

(** [nodeSet.add(x)]: a [Set] keeps the order of first insertion. *)
Definition nodeSet_add (x : string) (s : list string) : list string :=
  if decide (x ∈ s) then s else s ++ [x].

(** Body of the loop over the edges: [nodeSet.add(edge.from)], then
    [nodeSet.add(edge.to)]. *)
Definition addEndpoints (nodeSet : list string) (edge : TrustEdge) : list string :=
  nodeSet_add (to edge) (nodeSet_add (from edge) nodeSet).

(** [Array.from(nodeSet)] after the loop over the edges. *)
Definition collectNodes (edges : list TrustEdge) : list string :=
  foldl addEndpoints [] edges.

(** [nodes.forEach((node, i) => nodeIndex.set(node, i))]. *)
Definition buildNodeIndex (nodes : list string) : gmap string nat :=
  foldl (λ nodeIndex ni, <[ni.2 := ni.1]> nodeIndex) ∅ (zip (seq 0 (length nodes)) nodes).

(** [matrix[i][j] = v]. *)
Definition matrix_set (matrix : list (list Qc)) (i j : nat) (v : Qc) : list (list Qc) :=
  alter (λ row, <[j := v]> row) i matrix.

(** First loop of [buildNormalizedTrustMatrix]: the zero matrix, then one
    write per edge whose endpoints differ. *)
Definition rawTrustMatrix (edges : list TrustEdge) (nodes : list string)
    (nodeIndex : gmap string nat) : list (list Qc) :=
  let n := length nodes in
  foldl (λ matrix edge,
           match nodeIndex !! from edge, nodeIndex !! to edge with
           | Some i, Some j =>
               if decide (i ≠ j) then matrix_set matrix i j (Math_max 0 (weight edge))
               else matrix
           | _, _ => matrix
           end)
        (replicate n (replicate n 0)) edges.

(** [rowSum]: the accumulation [rowSum += matrix[i][j]]. *)
Definition rowSum (row : list Qc) : Qc := foldl Qcplus 0 row.

(** Body of the second loop of [buildNormalizedTrustMatrix], for one row. *)
Definition normalizeRow (n : nat) (row : list Qc) : outcome (list Qc) :=
  if decide (0 < rowSum row) then
    mapM (λ x, x /? rowSum row) row
  else
    uniform ← 1 /? Qc_of_nat n;
    Ok (replicate n uniform).

Definition buildNormalizedTrustMatrix (edges : list TrustEdge) (nodes : list string)
    (nodeIndex : gmap string nat) : outcome (list (list Qc)) :=
  mapM (normalizeRow (length nodes)) (rawTrustMatrix edges nodes nodeIndex).

(** Body of the loop over the pre-trusted addresses: [p[idx] =
    preTrustValue] when the address has an index. *)
Definition markPreTrusted (nodeIndex : gmap string nat) (preTrustValue : Qc)
    (p : list Qc) (addr : string) : list Qc :=
  match nodeIndex !! addr with
  | Some idx => <[idx := preTrustValue]> p
  | None => p
  end.

(** The pre-trust vector [p] of [compute].  The loop runs over the
    elements of the set; every write stores the same value, so the order
    of the elements is immaterial ([mark_all_lookup] below holds for any
    list of addresses). *)
Definition preTrustVector (nodes : list string) (nodeIndex : gmap string nat)
    (preTrusted : gset string) : outcome (list Qc) :=
  let n := length nodes in
  if decide (0 < size preTrusted)%nat then
    preTrustValue ← 1 /? Qc_of_nat (size preTrusted);
    Ok (foldl (markPreTrusted nodeIndex preTrustValue) (replicate n 0)
              (elements preTrusted))
  else
    uniform ← 1 /? Qc_of_nat n;
    Ok (replicate n uniform).

(** One pass of the propagation: [tNew] from [t]. *)
Definition propagate (n : nat) (a : Qc) (C : list (list Qc)) (p t : list Qc) : list Qc :=
  (λ j,
     let sum := foldl (λ sum i, sum + entry C i j * at_index t i) 0 (seq 0 n) in
     (1 - a) * at_index p j + a * sum) <$> seq 0 n.

(** [diff]: the accumulation [diff += Math.abs(tNew[i] - t[i])]. *)
Definition l1_diff (n : nat) (tNew t : list Qc) : Qc :=
  foldl (λ diff i, diff + Math_abs (at_index tNew i - at_index t i)) 0 (seq 0 n).

(** The [while (iterations < maxIterations)] loop; the result is the
    final [t], [iterations] and [converged]. *)
Fixpoint iterate (fuel : nat) (config : EigenTrustConfig) (n : nat)
    (C : list (list Qc)) (p t : list Qc) (iterations : nat)
    : outcome (list Qc * nat * bool) :=
  match fuel with
  | O => OutOfFuel
  | S fuel' =>
      if decide (iterations < maxIterations config)%nat then
        let tNew := propagate n (decayFactor config) C p t in
        let diff := l1_diff n tNew t in
        if decide (diff < convergenceThreshold config) then
          Ok (tNew, S iterations, true)
        else
          iterate fuel' config n C p tNew (S iterations)
      else
        Ok (t, iterations, false)
  end.

(** [scores.set(nodes[i], t[i])] for every index. *)
Definition packageScores (nodes : list string) (t : list Qc) : gmap string Qc :=
  foldl (λ scores i, <[default ""%string (nodes !! i) := at_index t i]> scores)
        ∅ (seq 0 (length nodes)).

(** [compute].  The loop is given [maxIterations + 1] units of fuel;
    [iterate_returns] below shows that it never runs out of them. *)
Definition compute (config : EigenTrustConfig) (edges : list TrustEdge)
    (preTrusted : gset string) : outcome EigenTrustResult :=
  let nodes := collectNodes edges in
  let n := length nodes in
  if decide (n = 0)%nat then
    Ok {| scores := ∅; iterations := 0; converged := true |}
  else
    let nodeIndex := buildNodeIndex nodes in
    C ← buildNormalizedTrustMatrix edges nodes nodeIndex;
    p ← preTrustVector nodes nodeIndex preTrusted;
    r ← iterate (S (maxIterations config)) config n C p p 0;
    Ok {| scores := packageScores nodes r.1.1; iterations := r.1.2; converged := r.2 |}.

(** [scoreFor]. *)
Definition scoreFor (result : EigenTrustResult) (address : string) : Qc :=
  default 0 (scores result !! toLowerCase address).

(** [sum(result.scores.values())]. *)
Definition sum_values (m : gmap string Qc) : Qc :=
  map_fold (λ _ v acc, acc + v) 0 m.

(* ================================================================= *)
(** ** The graph service ([src/services/graph.service.ts]) *)

(** The map [{weight, source, timestamp}] the query returns per relationship. *)
Record EdgeData : Type := {
  ed_weight : Qc;
  ed_source : string;
  ed_timestamp : Z
}.

(** One record of the query's result: [nodeAddresses] and [edgeData]. *)
Record PathRecord : Type := {
  nodeAddresses : list string;
  edgeData : list EdgeData
}.

(** The query of [findTrustPath], with its parameters [$from] and [$to]
    and the interpolated bound [maxHops]. *)
Inductive CypherQuery : Type :=
  | ShortestPathQuery (from_address to_address : string) (maxHops : nat).

(** What the service does with the database, in order. *)
Inductive SessionEvent : Type :=
  | SessionOpened
  | QueryRun (q : CypherQuery)
  | SessionClosed.

(** What a driver reaches: the database with its stored [TRUSTS]
    relationships, and, when the server cannot be reached or refuses the
    query, the error with which [session.run] rejects.  ([connect] assigns
    [this.driver] before [verifyConnectivity] has answered, so a service
    can hold a driver whose server does not answer.) *)
Record Neo4jDriver : Type := {
  stored : list TrustEdge;
  failure : option string
}.

(** The service: [driver] is [null] until [connect].  [journal] records
    the traffic with the database. *)
Record GraphService : Type := {
  driver : option Neo4jDriver;
  journal : list SessionEvent
}.

Fixpoint first_some {A B} (f : A → option B) (l : list A) : option B :=
  match l with
  | [] => None
  | x :: l' => match f x with Some y => Some y | None => first_some f l' end
  end.

(** Modelled from the spec: the Neo4j server that evaluates
    [shortestPath((a {address: $from})-[:TRUSTS*1..maxHops]->(b {address: $to}))]
    is an external collaborator, no code of the repository.  The spec has
    it search, along the direction of the edges, for the path with the
    fewest edges within [maxHops].  [walk G k a b] looks for [k] stored
    relationships leading from [a] to [b]. *)
Fixpoint walk (G : list TrustEdge) (k : nat) (a b : string) : option (list TrustEdge) :=
  match k with
  | O => if decide (a = b) then Some [] else None
  | S k' =>
      first_some (λ e, if decide (from e = a) then (e ::.) <$> walk G k' (to e) b else None) G
  end.

(** Modelled from the spec: the fewest hops first, from [k] up to
    [k + budget - 1]. *)
Fixpoint shortest_walk (G : list TrustEdge) (a b : string) (k budget : nat)
    : option (list TrustEdge) :=
  match budget with
  | O => None
  | S budget' =>
      match walk G k a b with
      | Some p => Some p
      | None => shortest_walk G a b (S k) budget'
      end
  end.

(** Modelled from the spec: the records [session.run] returns for the
    query of [findTrustPath]: none, or the one shortest path with
    [nodes(path)] and [relationships(path)] projected as the query says. *)
Definition run_query (G : list TrustEdge) (q : CypherQuery) : list PathRecord :=
  match q with
  | ShortestPathQuery a b maxHops =>
      match shortest_walk G a b 1 maxHops with
      | Some p =>
          [ {| nodeAddresses := a :: (to <$> p);
               edgeData := (λ e, {| ed_weight := weight e;
                                    ed_source := source e;
                                    ed_timestamp := timestamp e |}) <$> p |} ]
      | None => []
      end
  end.

(** [findTrustPath]; [getSession] throws when the driver is [null], a
    rejected [session.run] is an exception of [findTrustPath], and
    [finally] closes the session in either case. *)
Definition findTrustPath (graph : GraphService) (from_address to_address : string)
    (maxHops : nat) : outcome (option GraphPath) * GraphService :=
  match driver graph with
  | None => (Thrown "[GraphService] Not connected. Call connect() first.", graph)
  | Some server =>
      let q := ShortestPathQuery (toLowerCase from_address) (toLowerCase to_address) maxHops in
      let graph' := {| driver := driver graph;
                       journal := journal graph ++ [SessionOpened; QueryRun q; SessionClosed] |} in
      match failure server with
      | Some error => (Thrown error, graph')
      | None =>
          match run_query (stored server) q with
          | [] => (Ok None, graph')
          | record :: _ =>
              let nodeAddresses := nodeAddresses record in
              let edges :=
                imap (λ i e, {| from := default ""%string (nodeAddresses !! i);
                                to := default ""%string (nodeAddresses !! (i + 1)%nat);
                                weight := ed_weight e;
                                source := ed_source e;
                                timestamp := ed_timestamp e |}) (edgeData record) in
              (totalWeight ← foldl (λ sum e, sum + weight e) 0 edges
                             /? Qc_of_nat (length edges);
               Ok (Some {| nodes := nodeAddresses;
                           edges := edges;
                           totalWeight := totalWeight;
                           hops := length edges |}),
               graph')
          end
      end
  end.

(* ================================================================= *)
(** ** The trust path tool ([TrustPathTool]) *)

(** The [explanation] of an answer.  The texts are built from shortened
    addresses and formatted numbers; the embedding keeps which text it is
    and what it is built from. *)
Inductive Explanation : Type :=
  | InvalidAddresses                                    (* "One or both addresses are invalid." *)
  | SameAddress                                         (* "Both addresses are the same." *)
  | NoPathFound (from_address to_address : string) (maxHops : nat)
  | PathExplained (path : GraphPath).                   (* [explainPath(path)] *)

Record PathAnswer : Type := {
  path : option GraphPath;
  explanation : Explanation
}.

Definition DEFAULT_MAX_HOPS : nat := 5.

(** [findPath]; the tool's [graph] is threaded through, and [maxHops]
    is [DEFAULT_MAX_HOPS] when the caller gives none. *)
Definition findPath (graph : GraphService) (from_address to_address : string)
    (maxHops : nat) : outcome PathAnswer * GraphService :=
  if negb (isValidAddress from_address) || negb (isValidAddress to_address) then
    (Ok {| path := None; explanation := InvalidAddresses |}, graph)
  else if decide (toLowerCase from_address = toLowerCase to_address) then
    (Ok {| path := None; explanation := SameAddress |}, graph)
  else
    let '(found, graph') := findTrustPath graph from_address to_address maxHops in
    (found ≫= λ found,
       match found with
       | None =>
           Ok {| path := None;
                 explanation := NoPathFound from_address to_address maxHops |}
       | Some p => Ok {| path := Some p; explanation := PathExplained p |}
       end,
     graph').

(* ================================================================= *)
(** ** What the statements speak of *)

(** The solver's iterates as the recurrence
    [t_{k+1}[j] = (1 - a) * p[j] + a * sum_i (C[i][j] * t_k[i])], [t_0 = p]. *)
Definition recurrence_step (n : nat) (a : Qc) (C : list (list Qc)) (p t : list Qc)
    : list Qc :=
  (λ j, (1 - a) * at_index p j
        + a * sumQ ((λ i, entry C i j * at_index t i) <$> seq 0 n)) <$> seq 0 n.

Fixpoint trust_iterate (n : nat) (a : Qc) (C : list (list Qc)) (p : list Qc) (k : nat)
    : list Qc :=
  match k with
  | O => p
  | S k' => recurrence_step n a C p (trust_iterate n a C p k')
  end.

(** The L1 norm of [u - v]. *)
Definition l1_distance (n : nat) (u v : list Qc) : Qc :=
  sumQ ((λ i, Qcabs (at_index u i - at_index v i)) <$> seq 0 n).

(** A row after normalization: divided by its sum when that is
    positive, uniform otherwise. *)
Definition normalizedRow (n : nat) (row : list Qc) : list Qc :=
  if decide (0 < sumQ row) then (λ x, x / sumQ row) <$> row
  else replicate n (1 / Qc_of_nat n).

(** A square matrix of side [n]. *)
Definition square (n : nat) (M : list (list Qc)) : Prop :=
  length M = n ∧ ∀ i row, M !! i = Some row → length row = n.

(** Every row has [n] entries that sum to 1. *)
Definition row_stochastic (n : nat) (C : list (list Qc)) : Prop :=
  length C = n ∧ ∀ i row, C !! i = Some row → length row = n ∧ sumQ row = 1.

(** A sum of clamped weights that the double [rowSum] of
    [buildNormalizedTrustMatrix] reaches without overflow, whatever the
    rounding of the partial sums: the largest double lies just below
    [2^1024], and a sum of at most [2^1023] stays a factor 2 below it. *)
Definition SAFE_ROW_SUM : Qc := Qc_of_Z (2 ^ 1023).

(** No node has outgoing clamped weights that sum beyond [SAFE_ROW_SUM]. *)
Definition rows_finite (edges : list TrustEdge) : Prop :=
  let nodes := collectNodes edges in
  Forall (λ row, sumQ row ≤ SAFE_ROW_SUM)
         (rawTrustMatrix edges nodes (buildNodeIndex nodes)).

(** The largest count that a counter of doubles reaches by [iterations++]:
    [2^53 + 1] is no double, and rounds back to [2^53]. *)
Definition MAX_COUNT : Z := 2 ^ 53.

(** The pre-trust mass of the node [x]. *)
Definition preTrustMass (preTrusted : gset string) (n : nat) (x : string) : Qc :=
  if decide (0 < size preTrusted)%nat then
    if decide (x ∈ preTrusted) then 1 / Qc_of_nat (size preTrusted) else 0
  else 1 / Qc_of_nat n.

(** How many pre-trusted addresses are nodes of the graph. *)
Definition presentPreTrusted (preTrusted : gset string) (nodes : list string) : nat :=
  size (filter (λ x, x ∈ nodes) preTrusted).

(** The arithmetic mean. *)
Definition mean (l : list Qc) : Qc := sumQ l / Qc_of_nat (length l).


(** The weight the edge list gives for [a -> b]: a later edge with the
    same endpoints overwrites an earlier one. *)
Definition edgeWeight (edges : list TrustEdge) (a b : string) : option Qc :=
  weight <$> last (filter (λ e, from e = a ∧ to e = b) edges).

(** A directed path in the stored graph: consecutive [TRUSTS]
    relationships, at least one. *)
Inductive trustPath (G : list TrustEdge) : string → string → list TrustEdge → Prop :=
  | trustPath_one e : e ∈ G → trustPath G (from e) (to e) [e]
  | trustPath_cons e b p :
      e ∈ G → trustPath G (to e) b p → trustPath G (from e) b (e :: p).

(* ================================================================= *)
(** ** Examples shared by the statements below *)

(** A well-formed address: [0x] and forty times the digit [c]. *)
Definition address_of (c : ascii) : string :=
  String "0" (String "x" (foldr String EmptyString (replicate 40 c))).

Definition edge (a b : string) (w : Qc) : TrustEdge :=
  {| from := a; to := b; weight := w; source := "test"; timestamp := 0 |}.

(** The graph [A -> B] of the unit test on unknown addresses. *)
Definition graph_A_B : list TrustEdge := [edge "A" "B" 1].

(** The two-node cycle, on which the uniform vector is a fixed point. *)
Definition graph_cycle : list TrustEdge := [edge "A" "B" 1; edge "B" "A" 1].

(** The scenario of the spec: [A], [B] and [C] trust [D], which trusts [A]. *)
Definition graph_star : list TrustEdge :=
  [edge "A" "D" 1; edge "B" "D" 1; edge "C" "D" 1; edge "D" "A" 1].

(** A self-loop, a positive and a negative weight out of [A]. *)
Definition graph_fan : list TrustEdge :=
  [edge "A" "B" (1 + 1); edge "A" "A" 1; edge "A" "C" (- 1)].

(** A stored chain [a -> b -> c]. *)
Definition stored_chain : list TrustEdge :=
  [edge (address_of "a") (address_of "b") 1;
   edge (address_of "b") (address_of "c") (Q2Qc (1 # 2))].

(** A service after [connect], on a server that answers. *)
Definition connected (G : list TrustEdge) : GraphService :=
  {| driver := Some {| stored := G; failure := None |}; journal := [] |}.

(** A service that was never connected, and one whose server is down. *)
Definition not_connected : GraphService := {| driver := None; journal := [] |}.

Definition unreachable (G : list TrustEdge) (error : string) : GraphService :=
  {| driver := Some {| stored := G; failure := Some error |}; journal := [] |}.

(* ================================================================= *)
(** ** The other helpers ([src/utils/helpers.ts]) *)

(** [Math.min(a, b)]. *)
Definition Math_min (a b : Qc) : Qc := if decide (b < a) then b else a.

(** [Math.round(x)]: the nearest integer, a tie going up. *)
Definition Math_round (x : Qc) : Qc := Qc_of_Z (Qfloor (x + Q2Qc (1 # 2))).

(** [normalizeScore(raw, min, max)]. *)
Definition normalizeScore (raw min max : Qc) : outcome Qc :=
  let clamped := Math_max min (Math_min max raw) in
  ratio ← (clamped - min) /? (max - min);
  Ok (Math_round (ratio * Qc_of_Z 100)).

(** [normalizeScore(raw)], with the defaults [min = 0] and [max = 1]. *)
Definition normalizeScore_default (raw : Qc) : outcome Qc := normalizeScore raw 0 1.

(** [TrustFactor] ([src/types/index.ts]); [weightedAverage] reads the
    fields [score] and [weight] of its items. *)
Record TrustFactor : Type := {
  factor_name : string;
  factor_score : Qc;
  factor_weight : Qc;
  factor_description : string
}.

(** [weightedAverage(items)]. *)
Definition weightedAverage (items : list TrustFactor) : outcome Qc :=
  let totalWeight := foldl (λ sum item, sum + factor_weight item) 0 items in
  if decide (totalWeight = 0) then Ok 0
  else
    let weightedSum :=
      foldl (λ sum item, sum + factor_score item * factor_weight item) 0 items in
    ratio ← weightedSum /? totalWeight;
    Ok (Math_round ratio).

(** [address.slice(-n)]: the last [n] characters. *)
Definition slice_last (n : nat) (s : string) : string :=
  String.substring (String.length s - n) n s.

(** [shortenAddress(address)]. *)
Definition shortenAddress (address : string) : string :=
  if negb (isValidAddress address) then address
  else String.substring 0 6 address +:+ "..." +:+ slice_last 4 address.

(** [n] hexadecimal digits at the head of [s]. *)
Fixpoint hex_run (n : nat) (s : string) : bool :=
  match n with
  | O => true
  | S n' =>
      match s with
      | String c r => is_hex_digit c && hex_run n' r
      | EmptyString => false
      end
  end.

(** The regular expression [0x[a-fA-F0-9]{40}] matches at the head of [s]. *)
Definition address_at (s : string) : bool :=
  match s with
  | String "0" (String "x" digits) => hex_run 40 digits
  | _ => false
  end.

(** [extractAddress(text)]: [text.match(/0x[a-fA-F0-9]{40}/)], the match
    that starts first. *)
Fixpoint extractAddress (text : string) : option string :=
  match text with
  | EmptyString => None
  | String _ rest =>
      if address_at text then Some (String.substring 0 42 text)
      else extractAddress rest
  end.

(* ================================================================= *)
(** ** [topN] ([src/core/eigentrust.ts]) *)

(** One step of the stable sort by [(a, b) => b[1] - a[1]]: [x] goes
    before the first entry whose score is not greater than its own. *)
Fixpoint insert_by_score (x : string * Qc) (l : list (string * Qc)) : list (string * Qc) :=
  match l with
  | [] => [x]
  | y :: l' => if decide (x.2 < y.2) then y :: insert_by_score x l' else x :: y :: l'
  end.

(** [entries.sort((a, b) => b[1] - a[1])]: descending by score, entries
    with equal scores in their former order. *)
Definition sort_by_score (entries : list (string * Qc)) : list (string * Qc) :=
  foldr insert_by_score [] entries.

(** [topN] on the entries of the score map, [(address, score)] pairs.  A
    [Map] lists its entries in insertion order, which the embedded score
    map does not keep: the entries are an argument here. *)
Definition topN_of (entries : list (string * Qc)) (n : nat) : list (string * Qc) :=
  take n (sort_by_score entries).

(** [topN(result, n)], on the entries as [map_to_list] lists them. *)
Definition topN (result : EigenTrustResult) (n : nat) : list (string * Qc) :=
  topN_of (map_to_list (scores result)) n.

(* ================================================================= *)
(** ** Numbers in texts *)

(** [`${n}`] for a count: its decimal digits. *)
Definition show_nat (n : nat) : string := NilEmpty.string_of_uint (Nat.to_uint n).

(** [`${z}`] for an integer. *)
Definition show_Z (z : Z) : string := NilZero.string_of_int (Z.to_int z).

Definition is_digit (c : ascii) : bool :=
  let n := nat_of_ascii c in (48 <=? n)%nat && (n <=? 57)%nat.

(** The digits at the head of [s]. *)
Fixpoint take_digits (s : string) : string :=
  match s with
  | EmptyString => EmptyString
  | String c r => if is_digit c then String c (take_digits r) else EmptyString
  end.

(** [s.match(/\d+/)?.[0]]: the first run of digits, as long as it goes. *)
Fixpoint match_digits (s : string) : option string :=
  match s with
  | EmptyString => None
  | String c r => if is_digit c then Some (take_digits s) else match_digits r
  end.

(** [parseInt(s, 10)] on a text that starts with neither a blank nor a
    sign: the number its leading digits spell, [NaN] when it has none. *)
Definition parseInt (s : string) : outcome nat :=
  match take_digits s with
  | EmptyString => NonFinite
  | digits => from_option (λ d, Ok (Nat.of_uint d)) NonFinite (NilEmpty.uint_of_string digits)
  end.

(** [s || d] on an optional text: the empty text counts as absent. *)
Definition or_text (s : option string) (d : string) : string :=
  match s with
  | Some (String c r) => String c r
  | _ => d
  end.

(** [n || d] on an optional count: zero counts as absent. *)
Definition or_count (n : option nat) (d : nat) : nat :=
  match n with
  | Some (S k) => S k
  | _ => d
  end.

(** [try { body } catch { handler }]: a division by zero is no exception. *)
Definition try_catch {A} (body handler : outcome A) : outcome A :=
  match body with
  | Thrown _ => handler
  | _ => body
  end.

(* ================================================================= *)
(** ** The types of the scoring ([src/types/index.ts]) *)

(** A field whose name several interfaces share, or which a function of
    the tools also bears, carries the prefix of its interface. *)

(** [EntityType]; its ["unknown"] is [unknown_entity], [unknown] being
    the trust level. *)
Inductive EntityType : Type := wallet | agent | contract | unknown_entity.

Record TrustMetadata : Type := {
  meta_chain : string;
  meta_entityType : EntityType;
  meta_firstSeen : option string;
  meta_lastActive : option string;
  meta_totalTransactions : option nat;
  meta_attestationCount : option nat;
  meta_graphDepth : option nat
}.

Record TrustScore : Type := {
  ts_address : string;
  ts_score : Qc;
  ts_confidence : Qc;
  ts_level : TrustLevel;
  ts_factors : list TrustFactor;
  ts_metadata : TrustMetadata;
  ts_timestamp : Z
}.

Record TrustNode : Type := {
  node_address : string;
  eigenTrustScore : Qc;
  directTrustors : nat;
  directTrustees : nat;
  isPreTrusted : bool
}.

Record GraphNeighborhood : Type := {
  nb_center : string;
  nb_nodes : list TrustNode;
  nb_edges : list TrustEdge;
  nb_depth : nat
}.

Record AttestationData : Type := {
  att_id : string;
  att_subject : string;
  att_predicate : string;
  att_object : string;
  att_creator : string;
  att_value : Qc;
  att_timestamp : Z;
  att_chain : string
}.

Record OnChainActivity : Type := {
  act_address : string;
  act_chain : string;
  transactionCount : nat;
  uniqueInteractions : nat;
  contractsDeployed : nat;
  totalValueTransferred : Z;
  firstTransaction : string;
  lastTransaction : string;
  age : Z
}.

Record TrustQuery : Type := {
  q_target : string;
  q_chain : option string;
  q_depth : option nat;
  q_includeFactors : option bool;
  q_includePaths : option bool
}.

(** The [explanation] of a [TrustResponse]: which text it is and what it
    is built from. *)
Inductive ScoreExplanation : Type :=
  | ErrorText (error : string)              (* [`Error: ${error}`] *)
  | ScoreExplained (score : TrustScore).    (* [buildExplanation(trustScore)] *)

Record TrustResponse : Type := {
  resp_query : TrustQuery;
  resp_score : TrustScore;
  resp_explanation : ScoreExplanation
}.

(* ================================================================= *)
(** ** The on-chain analyzer ([OnChainAnalyzer]) *)

Definition scoreAge (days : Z) : Qc :=
  if decide (730 ≤ days)%Z then Qc_of_Z 100
  else if decide (365 ≤ days)%Z then Qc_of_Z 80
  else if decide (180 ≤ days)%Z then Qc_of_Z 60
  else if decide (30 ≤ days)%Z then Qc_of_Z 30
  else if decide (7 ≤ days)%Z then Qc_of_Z 15
  else Qc_of_Z 0.

Definition scoreTxCount (count : nat) : Qc :=
  if decide (1000 ≤ count)%nat then Qc_of_Z 100
  else if decide (500 ≤ count)%nat then Qc_of_Z 85
  else if decide (100 ≤ count)%nat then Qc_of_Z 70
  else if decide (50 ≤ count)%nat then Qc_of_Z 55
  else if decide (10 ≤ count)%nat then Qc_of_Z 35
  else if decide (1 ≤ count)%nat then Qc_of_Z 15
  else Qc_of_Z 0.

Definition scoreDiversity (uniqueAddresses : nat) : Qc :=
  if decide (500 ≤ uniqueAddresses)%nat then Qc_of_Z 100
  else if decide (200 ≤ uniqueAddresses)%nat then Qc_of_Z 85
  else if decide (50 ≤ uniqueAddresses)%nat then Qc_of_Z 65
  else if decide (20 ≤ uniqueAddresses)%nat then Qc_of_Z 45
  else if decide (5 ≤ uniqueAddresses)%nat then Qc_of_Z 25
  else Qc_of_Z 0.

Definition scoreChainPresence (chainCount : nat) : Qc :=
  if decide (3 ≤ chainCount)%nat then Qc_of_Z 100
  else if decide (2 ≤ chainCount)%nat then Qc_of_Z 60
  else if decide (1 ≤ chainCount)%nat then Qc_of_Z 30
  else Qc_of_Z 0.

Definition scoreDeployments (count : nat) : Qc :=
  if decide (10 ≤ count)%nat then Qc_of_Z 100
  else if decide (5 ≤ count)%nat then Qc_of_Z 80
  else if decide (2 ≤ count)%nat then Qc_of_Z 60
  else if decide (1 ≤ count)%nat then Qc_of_Z 40
  else Qc_of_Z 0.

(** [activityToFactors(activities)]. *)
Definition activityToFactors (activities : list OnChainActivity) : list TrustFactor :=
  let totalTx := foldl (λ s a, s + transactionCount a)%nat 0%nat activities in
  let totalInteractions := foldl (λ s a, s + uniqueInteractions a)%nat 0%nat activities in
  let maxAge := foldr Z.max 0%Z (age <$> activities) in
  let totalDeployed := foldl (λ s a, s + contractsDeployed a)%nat 0%nat activities in
  let chainsActive := length activities in
  [ {| factor_name := "Account Age";
       factor_score := scoreAge maxAge;
       factor_weight := Q2Qc (25 # 100);
       factor_description :=
         show_Z maxAge +:+ " days old across " +:+ show_nat chainsActive +:+ " chain(s)" |};
    {| factor_name := "Transaction Volume";
       factor_score := scoreTxCount totalTx;
       factor_weight := Q2Qc (2 # 10);
       factor_description := show_nat totalTx +:+ " total transactions" |};
    {| factor_name := "Interaction Diversity";
       factor_score := scoreDiversity totalInteractions;
       factor_weight := Q2Qc (2 # 10);
       factor_description :=
         show_nat totalInteractions +:+ " unique addresses interacted with" |};
    {| factor_name := "Multi-Chain Presence";
       factor_score := scoreChainPresence chainsActive;
       factor_weight := Q2Qc (15 # 100);
       factor_description := "Active on " +:+ show_nat chainsActive +:+ " chain(s)" |} ]%list
  ++ (if decide (0 < totalDeployed)%nat then
        [ {| factor_name := "Builder Activity";
             factor_score := scoreDeployments totalDeployed;
             factor_weight := Q2Qc (2 # 10);
             factor_description :=
               "Deployed " +:+ show_nat totalDeployed +:+ " contract(s)" |} ]%list
      else []).

(* ================================================================= *)
(** ** The Intuition service ([IntuitionService]) *)

Record AtomNode : Type := {
  atom_id : string;
  atom_label : option string;
  atom_type : option string;
  wallet_id : option string
}.

Record VaultData : Type := {
  total_shares : string;
  current_share_price : string;
  position_count : nat
}.

Record Creator : Type := {
  creator_id : string;
  creator_label : option string
}.

(** [TripleData]; [block_time] is [new Date(block_timestamp).getTime()],
    the parsing of dates being outside the embedding. *)
Record TripleData : Type := {
  triple_id : string;
  subject : AtomNode;
  predicate : AtomNode;
  object : AtomNode;
  creator : Creator;
  vault : option VaultData;
  counter_vault : option VaultData;
  block_time : Z
}.

(** A [string | null] in a condition: [null] and the empty text are false. *)
Definition truthy (s : option string) : option string :=
  match s with
  | Some (String c r) => Some (String c r)
  | _ => None
  end.

(** [resolveAddress(atom)]. *)
Definition resolveAddress (atom : AtomNode) : option string :=
  match truthy (wallet_id atom) with
  | Some w => Some (toLowerCase w)
  | None =>
      match truthy (atom_label atom) with
      | Some l => if isValidAddress l then Some (toLowerCase l) else None
      | None => None
      end
  end.

(** [vault?.position_count ?? 0]. *)
Definition positions (v : option VaultData) : nat := from_option position_count 0%nat v.

(** Body of the loop of [triplesToEdges]: the edges one triple adds. *)
Definition tripleEdges (triple : TripleData) : outcome (list TrustEdge) :=
  let creatorAddr := toLowerCase (creator_id (creator triple)) in
  let subjectAddr := truthy (resolveAddress (subject triple)) in
  let objectAddr := truthy (resolveAddress (object triple)) in
  match subjectAddr, objectAddr with
  | None, None => Ok []
  | _, _ =>
      let forPositions := positions (vault triple) in
      let againstPositions := positions (counter_vault triple) in
      let totalPositions := (forPositions + againstPositions)%nat in
      weight ← (if decide (0 < totalPositions)%nat
                then (Qc_of_nat forPositions - Qc_of_nat againstPositions)
                     /? Qc_of_nat totalPositions
                else Ok (Q2Qc (1 # 2)));
      let timestamp := block_time triple in
      Ok ((match subjectAddr with
           | Some s =>
               if decide (creatorAddr ≠ s) then
                 [ {| from := creatorAddr; to := s; weight := weight;
                      source := "intuition"; timestamp := timestamp |} ]%list
               else []
           | None => []
           end)
          ++ (match objectAddr with
              | Some o =>
                  if decide (creatorAddr ≠ o) then
                    [ {| from := creatorAddr; to := o; weight := weight * Q2Qc (1 # 2);
                         source := "intuition"; timestamp := timestamp |} ]%list
                  else []
              | None => []
              end)
          ++ (match subjectAddr, objectAddr with
              | Some s, Some o =>
                  if decide (s ≠ o) then
                    [ {| from := s; to := o; weight := weight * Q2Qc (3 # 10);
                         source := "intuition-semantic"; timestamp := timestamp |} ]%list
                  else []
              | _, _ => []
              end))
  end.

(** [triplesToEdges(triples)]. *)
Definition triplesToEdges (triples : list TripleData) : outcome (list TrustEdge) :=
  foldl (λ edges triple,
           edges ← edges;
           added ← tripleEdges triple;
           Ok (edges ++ added))
        (Ok []) triples.

(** [computeTripleValue(triple)]. *)
Definition computeTripleValue (triple : TripleData) : outcome Qc :=
  let forCount := positions (vault triple) in
  let againstCount := positions (counter_vault triple) in
  let total := (forCount + againstCount)%nat in
  if decide (total = 0)%nat then Ok 0
  else (Qc_of_nat forCount - Qc_of_nat againstCount) /? Qc_of_nat total.

(** [tripleToAttestation(triple)]. *)
Definition tripleToAttestation (triple : TripleData) : outcome AttestationData :=
  value ← computeTripleValue triple;
  Ok {| att_id := triple_id triple;
        att_subject := or_text (atom_label (subject triple)) (atom_id (subject triple));
        att_predicate := or_text (atom_label (predicate triple)) (atom_id (predicate triple));
        att_object := or_text (atom_label (object triple)) (atom_id (object triple));
        att_creator := creator_id (creator triple);
        att_value := value;
        att_timestamp := block_time triple;
        att_chain := "base" |}.

(* ================================================================= *)
(** ** The trust score tool ([TrustScoreTool]) *)

(** What [getDirectConnections] returns. *)
Record Connections : Type := {
  trustors : list string;
  trustees : list string
}.

(** What [getAccountStats] returns when the account exists. *)
Record AccountStats : Type := {
  stats_attestationCount : nat;
  totalStaked : Z
}.

(** How the promise of a service settles: with a value, or rejected with
    an error. *)
Inductive settled (A : Type) : Type :=
  | Fulfilled (a : A)
  | Rejected (msg : string).
Arguments Fulfilled {A} a.
Arguments Rejected {A} msg.

(** [await promise]. *)
Definition await {A} (promise : settled A) : outcome A :=
  match promise with
  | Fulfilled a => Ok a
  | Rejected msg => Thrown msg
  end.

(** The services the tool asks, by their answers.  The two attestation
    fetches catch their own errors ([[]] and [null]), as does
    [detectEntityType] (["unknown"]); the others can reject. *)
Record Services : Type := {
  getNeighborhood : string → nat → settled GraphNeighborhood;
  getDirectConnections : string → settled Connections;
  fetchAttestationsForAddress : string → nat → list AttestationData;
  getAccountStats : string → option AccountStats;
  analyze : string → settled (list OnChainActivity);
  detectEntityType : string → string → EntityType
}.

Definition calculateConfidence (hasGraph hasAttestations hasOnChain : bool) : Qc :=
  let sources := 0%nat in
  let sources := if hasGraph then S sources else sources in
  let sources := if hasAttestations then S sources else sources in
  let sources := if hasOnChain then S sources else sources in
  if decide (sources = 3)%nat then Q2Qc (95 # 100)
  else if decide (sources = 2)%nat then Q2Qc (75 # 100)
  else if decide (sources = 1)%nat then Q2Qc (5 # 10)
  else Q2Qc (1 # 10).

Definition scoreAttestationCount (count : nat) : Qc :=
  if decide (50 ≤ count)%nat then Qc_of_Z 100
  else if decide (20 ≤ count)%nat then Qc_of_Z 80
  else if decide (10 ≤ count)%nat then Qc_of_Z 60
  else if decide (5 ≤ count)%nat then Qc_of_Z 40
  else if decide (1 ≤ count)%nat then Qc_of_Z 20
  else Qc_of_Z 0.

Definition scoreStakeWeight (totalShares : Z) : Qc :=
  if decide (1000000 ≤ totalShares)%Z then Qc_of_Z 100
  else if decide (100000 ≤ totalShares)%Z then Qc_of_Z 80
  else if decide (10000 ≤ totalShares)%Z then Qc_of_Z 60
  else if decide (1000 ≤ totalShares)%Z then Qc_of_Z 40
  else if decide (100 ≤ totalShares)%Z then Qc_of_Z 20
  else Qc_of_Z 0.

(** [computeEigenTrust(target, depth)]; the list is the [factors] of the
    object the method returns. *)
Definition computeEigenTrust (services : Services) (config : EigenTrustConfig)
    (target : string) (depth : nat) : outcome (list TrustFactor) :=
  try_catch
    (neighborhood ← await (getNeighborhood services target depth);
     if decide (length (nb_edges neighborhood) = 0)%nat then Ok []
     else
       result ← compute config (nb_edges neighborhood) ∅;
       let rawScore := default 0 (scores result !! target) in
       let maxScore := foldr Math_max (Q2Qc (1 # 1000)) (map_to_list (scores result)).*2 in
       normalized ← normalizeScore rawScore 0 maxScore;
       connections ← await (getDirectConnections services target);
       Ok [ {| factor_name := "Graph Trust (EigenTrust)";
               factor_score := normalized;
               factor_weight := Q2Qc (35 # 100);
               factor_description :=
                 "Score from " +:+ show_nat (length (nb_nodes neighborhood))
                 +:+ " nodes, " +:+ show_nat (length (trustors connections))
                 +:+ " trustors, " +:+ show_nat (length (trustees connections))
                 +:+ " trustees" |} ]%list)
    (Ok []).

(** [computeAttestationFactors(target)]. *)
Definition computeAttestationFactors (services : Services) (target : string)
    : outcome (list TrustFactor) :=
  try_catch
    (let attestations := fetchAttestationsForAddress services target 100 in
     let stats := getAccountStats services target in
     if bool_decide (length attestations = 0)%nat && bool_decide (stats = None :> option AccountStats)
     then Ok []
     else
       let attCount := length attestations in
       let volume :=
         {| factor_name := "Attestation Volume";
            factor_score := scoreAttestationCount attCount;
            factor_weight := Q2Qc (15 # 100);
            factor_description := show_nat attCount +:+ " attestations found" |} in
       sentimentFactor ←
         (if decide (0 < attCount)%nat then
            let positive := length (filter (λ a, 0 < att_value a) attestations) in
            let negative := length (filter (λ a, att_value a < 0) attestations) in
            sentiment ←
              (if decide (0 < attCount)%nat then
                 ratio ← Qc_of_nat positive /? Qc_of_nat attCount;
                 Ok (Math_round (ratio * Qc_of_Z 100))
               else Ok (Qc_of_Z 50));
            Ok [ {| factor_name := "Attestation Sentiment";
                    factor_score := sentiment;
                    factor_weight := Q2Qc (15 # 100);
                    factor_description :=
                      show_nat positive +:+ " positive, " +:+ show_nat negative
                      +:+ " negative attestations" |} ]%list
          else Ok []);
       let stakeFactor :=
         match stats with
         | Some stats =>
             if decide (0 < totalStaked stats)%Z then
               [ {| factor_name := "Stake Weight";
                    factor_score := scoreStakeWeight (totalStaked stats);
                    factor_weight := Q2Qc (1 # 10);
                    factor_description :=
                      show_Z (totalStaked stats) +:+ " total shares staked" |} ]%list
             else []
         | None => []
         end in
       Ok ([volume] ++ sentimentFactor ++ stakeFactor))
    (Ok []).

(** [computeOnChainFactors(target)]. *)
Definition computeOnChainFactors (services : Services) (target : string)
    : outcome (list TrustFactor) :=
  try_catch
    (activities ← await (analyze services target);
     if decide (length activities = 0)%nat then Ok []
     else Ok (activityToFactors activities))
    (Ok []).

(** [buildErrorResponse(query, error)]; [now] is [Date.now()]. *)
Definition buildErrorResponse (query : TrustQuery) (error : string) (now : Z)
    : TrustResponse :=
  {| resp_query := query;
     resp_score :=
       {| ts_address := q_target query;
          ts_score := 0;
          ts_confidence := 0;
          ts_level := unknown;
          ts_factors := [];
          ts_metadata :=
            {| meta_chain := or_text (q_chain query) "unknown";
               meta_entityType := unknown_entity;
               meta_firstSeen := None;
               meta_lastActive := None;
               meta_totalTransactions := None;
               meta_attestationCount := None;
               meta_graphDepth := None |};
          ts_timestamp := now |};
     resp_explanation := ErrorText error |}.

(** The [attestationCount] of the metadata: read back from the text of
    the factor named "Attestation Volume". *)
Definition attestationCount (attestationFactors : list TrustFactor) : outcome (option nat) :=
  if decide (0 < length attestationFactors)%nat then
    let found :=
      List.find (λ f, bool_decide (factor_name f = "Attestation Volume")) attestationFactors in
    count ← parseInt (or_text (found ≫= λ f, match_digits (factor_description f)) "0");
    Ok (Some count)
  else Ok None.

(** [score(query)]; [now] is [Date.now()]. *)
Definition score (services : Services) (config : EigenTrustConfig) (query : TrustQuery)
    (now : Z) : outcome TrustResponse :=
  let target := toLowerCase (q_target query) in
  let chain := or_text (q_chain query) "ethereum" in
  let depth := or_count (q_depth query) 3 in
  if negb (isValidAddress target) then
    Ok (buildErrorResponse query "Invalid address format" now)
  else
    eigenTrustScore ← computeEigenTrust services config target depth;
    attestationFactors ← computeAttestationFactors services target;
    onchainFactors ← computeOnChainFactors services target;
    let entityType := detectEntityType services target chain in
    let allFactors := eigenTrustScore ++ attestationFactors ++ onchainFactors in
    finalScore ← (if decide (0 < length allFactors)%nat then weightedAverage allFactors
                  else Ok 0);
    let confidence :=
      calculateConfidence (bool_decide (0 < length eigenTrustScore)%nat)
                          (bool_decide (0 < length attestationFactors)%nat)
                          (bool_decide (0 < length onchainFactors)%nat) in
    count ← attestationCount attestationFactors;
    let trustScore :=
      {| ts_address := target;
         ts_score := finalScore;
         ts_confidence := confidence;
         ts_level := scoreToLevel finalScore;
         ts_factors := allFactors;
         ts_metadata :=
           {| meta_chain := chain;
              meta_entityType := entityType;
              meta_firstSeen := None;
              meta_lastActive := None;
              meta_totalTransactions := None;
              meta_attestationCount := count;
              meta_graphDepth := Some depth |};
         ts_timestamp := now |} in
    Ok {| resp_query := query;
          resp_score := trustScore;
          resp_explanation := ScoreExplained trustScore |}.

(* ================================================================= *)
(** ** Examples for the scoring *)

(** A graph factor and an attestation factor. *)
Definition factors_example : list TrustFactor :=
  [ {| factor_name := "Graph Trust (EigenTrust)";
       factor_score := Qc_of_Z 80;
       factor_weight := Q2Qc (35 # 100);
       factor_description := "Score from 3 nodes, 1 trustors, 1 trustees" |};
    {| factor_name := "Attestation Volume";
       factor_score := Qc_of_Z 20;
       factor_weight := Q2Qc (15 # 100);
       factor_description := "3 attestations found" |} ].

(** The edge [e] with a negative weight raised to zero. *)
Definition clampWeight (e : TrustEdge) : TrustEdge :=
  {| from := from e; to := to e; weight := Math_max 0 (weight e);
     source := source e; timestamp := timestamp e |}.

(** Three attestations about the address [0xaa...a], two in favour. *)
Definition attestation_example (value : Qc) : AttestationData :=
  {| att_id := "1"; att_subject := address_of "a"; att_predicate := "trusts";
     att_object := "thing"; att_creator := address_of "b"; att_value := value;
     att_timestamp := 0; att_chain := "base" |}.

(** Services of which only the attestation fetch has data: the graph is
    not connected, the account has no statistics and no chain knows the
    address. *)
Definition services_example : Services :=
  {| getNeighborhood := λ _ _, Rejected "[GraphService] Not connected. Call connect() first.";
     getDirectConnections := λ _, Rejected "[GraphService] Not connected. Call connect() first.";
     fetchAttestationsForAddress := λ _ _,
       [attestation_example 1; attestation_example (Q2Qc (1 # 2));
        attestation_example (- (1))];
     getAccountStats := λ _, None;
     analyze := λ _, Fulfilled [];
     detectEntityType := λ _ _, wallet |}.

(** A query for the address [0xAA...A], in upper case. *)
Definition query_example : TrustQuery :=
  {| q_target := address_of "A"; q_chain := None; q_depth := None;
     q_includeFactors := Some true; q_includePaths := None |}.

(* ================================================================= *)
(** ** The solver on doubles *)

(** [compute] once more, statement by statement, on the numbers the
    program runs on: IEEE 754 binary64 with rounding to the nearest value,
    ties to even (the kernel's [float]).  The embedding above reads a
    number as an exact rational; this one decides what the code does
    where overflow, rounding, NaN or a [maxIterations] that is no natural
    number matter.  [maxIterations] and [iterations] are doubles here,
    so the loop takes its fuel as an argument. *)
Module Float64.

Local Open Scope float_scope.

(** The integer [n] as a double, correctly rounded (exact up to 2^53). *)
Definition of_nat (n : nat) : float :=
  SF2Prim (binary_normalize prec emax (Z.of_nat n) 0 false).

Record TrustEdge : Type := mkEdge {
  from : string;
  to : string;
  weight : float;
  source : string;
  timestamp : float
}.

Record EigenTrustConfig : Type := {
  maxIterations : float;
  convergenceThreshold : float;
  preTrustedWeight : float;
  decayFactor : float
}.

(** [scores] is the [Map] with its entries in insertion order. *)
Record EigenTrustResult : Type := {
  scores : list (string * float);
  iterations : float;
  converged : bool
}.

Definition DEFAULT_CONFIG : EigenTrustConfig := {|
  maxIterations := 50;
  convergenceThreshold := 0.0001;
  preTrustedWeight := 0.1;
  decayFactor := 0.85
|}.

(** [Math.max(a, b)]: NaN when an argument is NaN, and [+0] above [-0]. *)
Definition Math_max (a b : float) : float :=
  if is_nan a || is_nan b then nan
  else if a <? b then b
  else if b <? a then a
  else if get_sign a then b else a.

Definition at_index (v : list float) (i : nat) : float := default 0 (v !! i).

Definition entry (M : list (list float)) (i j : nat) : float :=
  at_index (default [] (M !! i)) j.

Definition matrix_set (matrix : list (list float)) (i j : nat) (v : float)
    : list (list float) :=
  alter (λ row, <[j := v]> row) i matrix.

(** The node set, in the order of first insertion. *)
Definition collectNodes (edges : list TrustEdge) : list string :=
  foldl (λ nodeSet edge, nodeSet_add (to edge) (nodeSet_add (from edge) nodeSet)) [] edges.

(** First loop of [buildNormalizedTrustMatrix]. *)
Definition rawTrustMatrix (edges : list TrustEdge) (nodes : list string)
    (nodeIndex : gmap string nat) : list (list float) :=
  let n := length nodes in
  foldl (λ matrix edge,
           match nodeIndex !! from edge, nodeIndex !! to edge with
           | Some i, Some j =>
               if decide (i ≠ j) then matrix_set matrix i j (Math_max 0 (weight edge))
               else matrix
           | _, _ => matrix
           end)
        (replicate n (replicate n 0)) edges.

(** [rowSum += matrix[i][j]], from the left. *)
Definition rowSum (row : list float) : float := foldl add 0 row.

(** One row of the second loop: [rowSum > 0] is false for NaN, and a
    division by [Infinity] gives 0. *)
Definition normalizeRow (n : nat) (row : list float) : list float :=
  if 0 <? rowSum row then (λ x, x / rowSum row) <$> row
  else replicate n (1 / of_nat n).

Definition buildNormalizedTrustMatrix (edges : list TrustEdge) (nodes : list string)
    (nodeIndex : gmap string nat) : list (list float) :=
  normalizeRow (length nodes) <$> rawTrustMatrix edges nodes nodeIndex.

Definition markPreTrusted (nodeIndex : gmap string nat) (preTrustValue : float)
    (p : list float) (addr : string) : list float :=
  match nodeIndex !! addr with
  | Some idx => <[idx := preTrustValue]> p
  | None => p
  end.

(** The vector [p]; every write of the loop stores the same value, so
    the order in which the set lists its elements is immaterial. *)
Definition preTrustVector (nodes : list string) (nodeIndex : gmap string nat)
    (preTrusted : gset string) : list float :=
  let n := length nodes in
  if decide (0 < size preTrusted)%nat then
    foldl (markPreTrusted nodeIndex (1 / of_nat (size preTrusted))) (replicate n 0)
          (elements preTrusted)
  else replicate n (1 / of_nat n).

(** One pass of the propagation: [tNew] from [t]. *)
Definition propagate (n : nat) (a : float) (C : list (list float)) (p t : list float)
    : list float :=
  (λ j,
     let sum := foldl (λ sum i, sum + entry C i j * at_index t i) 0 (seq 0 n) in
     (1 - a) * at_index p j + a * sum) <$> seq 0 n.

(** [diff += Math.abs(tNew[i] - t[i])]. *)
Definition l1_diff (n : nat) (tNew t : list float) : float :=
  foldl (λ diff i, diff + abs (at_index tNew i - at_index t i)) 0 (seq 0 n).

(** The [while (iterations < maxIterations)] loop, both sides doubles. *)
Fixpoint iterate (fuel : nat) (config : EigenTrustConfig) (n : nat)
    (C : list (list float)) (p t : list float) (iterations : float)
    : outcome (list float * float * bool) :=
  match fuel with
  | O => OutOfFuel
  | S fuel' =>
      if iterations <? maxIterations config then
        let tNew := propagate n (decayFactor config) C p t in
        let diff := l1_diff n tNew t in
        if diff <? convergenceThreshold config then
          Ok (tNew, iterations + 1, true)
        else
          iterate fuel' config n C p tNew (iterations + 1)
      else
        Ok (t, iterations, false)
  end.

(** [scores.set(key, value)]: a new key goes to the end. *)
Definition map_set (scores : list (string * float)) (key : string) (value : float)
    : list (string * float) :=
  if decide (key ∈ scores.*1) then
    (λ kv, if decide (kv.1 = key) then (key, value) else kv) <$> scores
  else scores ++ [(key, value)].

Definition packageScores (nodes : list string) (t : list float) : list (string * float) :=
  foldl (λ scores i, map_set scores (default ""%string (nodes !! i)) (at_index t i))
        [] (seq 0 (length nodes)).

(** [compute]; [fuel] bounds how often the guard of the loop is
    evaluated, and [OutOfFuel] says that the loop was still running
    then. *)
Definition compute (fuel : nat) (config : EigenTrustConfig) (edges : list TrustEdge)
    (preTrusted : gset string) : outcome EigenTrustResult :=
  let nodes := collectNodes edges in
  let n := length nodes in
  if decide (n = 0)%nat then
    Ok {| scores := []; iterations := 0; converged := true |}
  else
    let nodeIndex := buildNodeIndex nodes in
    let C := buildNormalizedTrustMatrix edges nodes nodeIndex in
    let p := preTrustVector nodes nodeIndex preTrusted in
    r ← iterate fuel config n C p p 0;
    Ok {| scores := packageScores nodes r.1.1; iterations := r.1.2; converged := r.2 |}.

(** [sum(result.scores.values())], from the left. *)
Definition sum_values (scores : list (string * float)) : float :=
  foldl (λ sum kv, sum + kv.2) 0 scores.

Definition edge (a b : string) (w : float) : TrustEdge :=
  {| from := a; to := b; weight := w; source := "test"; timestamp := 0 |}.

(** Two weights of [2^1023] out of [A]: each is a finite double, and
    their sum is not. *)
Definition graph_overflow : list TrustEdge :=
  [edge "A" "B" 0x1p1023; edge "A" "C" 0x1p1023].

(** The two-node cycle. *)
Definition graph_cycle : list TrustEdge := [edge "A" "B" 1; edge "B" "A" 1].

(** A self-loop, a positive and a negative weight out of [A]. *)
Definition graph_fan : list TrustEdge :=
  [edge "A" "B" 2; edge "A" "A" 1; edge "A" "C" (-1)].

End Float64.

(* ================================================================= *)
(** * Proofs *)

(** Order facts between rationals, through [lra] on their values. *)
Ltac qc_order :=
  unfold Qcle, Qclt in *; simpl in *; unfold inject_Z in *; lra.

(* ================================================================= *)
(** ** [scoreToLevel] *)

(** C8.  The classification of a score [s]: [unknown] when [s < 10],
    [suspicious] when [10 <= s < 30], [low] when [30 <= s < 50],
    [moderate] when [50 <= s < 70], [high] when [70 <= s < 85] and
    [very_high] when [85 <= s]; each tier contains its lower bound, and
    the tiers are told apart by the score alone. *)
Theorem scoreToLevel_tiers (s : Qc) :
  (scoreToLevel s = unknown ↔ s < Qc_of_Z 10) ∧
  (scoreToLevel s = suspicious ↔ Qc_of_Z 10 ≤ s < Qc_of_Z 30) ∧
  (scoreToLevel s = low ↔ Qc_of_Z 30 ≤ s < Qc_of_Z 50) ∧
  (scoreToLevel s = moderate ↔ Qc_of_Z 50 ≤ s < Qc_of_Z 70) ∧
  (scoreToLevel s = high ↔ Qc_of_Z 70 ≤ s < Qc_of_Z 85) ∧
  (scoreToLevel s = very_high ↔ Qc_of_Z 85 ≤ s).
Proof.
  unfold scoreToLevel.
  repeat case_decide;
    repeat split; intros; try discriminate; try reflexivity;
    destruct_and?; first [ qc_order | exfalso; qc_order ].
Qed.

(** The boundaries themselves, as the unit test of [scoreToLevel] has them. *)
Lemma scoreToLevel_boundaries :
  scoreToLevel (Qc_of_Z 85) = very_high ∧ scoreToLevel (Qc_of_Z 70) = high ∧
  scoreToLevel (Qc_of_Z 50) = moderate ∧ scoreToLevel (Qc_of_Z 30) = low ∧
  scoreToLevel (Qc_of_Z 10) = suspicious ∧ scoreToLevel (Qc_of_Z 0) = unknown.
Proof. by vm_compute. Qed.

(* ================================================================= *)
(** ** Outcomes and sums *)

Lemma mapM_Ok_fmap {A B} (f : A → outcome B) (g : A → B) (l : list A) :
  (∀ x, x ∈ l → f x = Ok (g x)) → mapM f l = Ok (g <$> l).
Proof.
  induction l as [|x l IH]; intros Hf; [done|].
  cbn. rewrite Hf by left. cbn.
  rewrite IH; [done|]. intros y Hy. apply Hf. by right.
Qed.

Lemma checked_div_Ok (x y : Qc) : y ≠ 0 → x /? y = Ok (x / y).
Proof. intros Hy. unfold checked_div. by case_decide. Qed.

Lemma Qc_of_nat_S (n : nat) : Qc_of_nat (S n) = Qc_of_nat n + 1.
Proof.
  unfold Qc_of_nat. rewrite Nat2Z.inj_succ, <- Z.add_1_r.
  by rewrite Z2Qc_inj_add, Z2Qc_inj_1.
Qed.

Lemma Qc_of_nat_0 : Qc_of_nat 0 = 0.
Proof. by apply Qc_is_canon. Qed.

Lemma Qc_of_nat_nonzero (n : nat) : n ≠ 0%nat → Qc_of_nat n ≠ 0.
Proof.
  intros Hn Heq. unfold Qc_of_nat in Heq.
  rewrite <- Z2Qc_inj_0 in Heq. apply Z2Qc_inj in Heq. lia.
Qed.

Lemma sumQ_cons (x : Qc) (l : list Qc) : sumQ (x :: l) = x + sumQ l.
Proof. done. Qed.

Lemma foldl_plus_sumQ {A} (f : A → Qc) (l : list A) (a : Qc) :
  foldl (λ s x, s + f x) a l = a + sumQ (f <$> l).
Proof.
  revert a. induction l as [|x l IH]; intros a; cbn; [ring|].
  rewrite IH. fold (sumQ (f <$> l)). ring.
Qed.

Lemma rowSum_sumQ (row : list Qc) : rowSum row = sumQ row.
Proof.
  unfold rowSum. rewrite <- (Qcplus_0_l (sumQ row)). generalize 0.
  induction row as [|x row IH]; intros a; cbn; [ring|].
  rewrite IH. fold (sumQ row). ring.
Qed.

Lemma sumQ_replicate (n : nat) (v : Qc) : sumQ (replicate n v) = Qc_of_nat n * v.
Proof.
  induction n as [|n IH]; cbn.
  - rewrite Qc_of_nat_0. ring.
  - fold (sumQ (replicate n v)). rewrite IH, Qc_of_nat_S. ring.
Qed.

Lemma sumQ_fmap_ext {A} (f g : A → Qc) (l : list A) :
  (∀ x, x ∈ l → f x = g x) → sumQ (f <$> l) = sumQ (g <$> l).
Proof.
  intros Hfg. f_equal. apply list_fmap_ext. intros i x Hx.
  apply Hfg. by eapply list_elem_of_lookup_2.
Qed.

Lemma sumQ_fmap_linear {A} (c d : Qc) (f g : A → Qc) (l : list A) :
  sumQ ((λ x, c * f x + d * g x) <$> l) = c * sumQ (f <$> l) + d * sumQ (g <$> l).
Proof.
  induction l as [|x l IH]; cbn; [ring|].
  fold (sumQ ((λ x, c * f x + d * g x) <$> l)) (sumQ (f <$> l)) (sumQ (g <$> l)).
  rewrite IH. ring.
Qed.

Lemma sumQ_fmap_scale {A} (c : Qc) (f : A → Qc) (l : list A) :
  sumQ ((λ x, f x * c) <$> l) = sumQ (f <$> l) * c.
Proof.
  induction l as [|x l IH]; cbn; [ring|].
  fold (sumQ ((λ x, f x * c) <$> l)) (sumQ (f <$> l)). rewrite IH. ring.
Qed.

Lemma sumQ_fmap_div (c : Qc) (l : list Qc) :
  sumQ ((λ x, x / c) <$> l) = sumQ l / c.
Proof.
  induction l as [|x l IH]; cbn; [unfold Qcdiv; ring|].
  fold (sumQ ((λ x, x / c) <$> l)) (sumQ l). rewrite IH. unfold Qcdiv. ring.
Qed.

Lemma sumQ_fmap_zero {A} (l : list A) : sumQ ((λ _, 0) <$> l) = 0.
Proof.
  induction l as [|x l IH]; cbn; [done|].
  fold (sumQ ((λ _ : A, 0) <$> l)). rewrite IH. ring.
Qed.

Lemma sumQ_fmap_plus {A} (f g : A → Qc) (l : list A) :
  sumQ ((λ x, f x + g x) <$> l) = sumQ (f <$> l) + sumQ (g <$> l).
Proof.
  induction l as [|x l IH]; cbn; [ring|].
  fold (sumQ ((λ x, f x + g x) <$> l)) (sumQ (f <$> l)) (sumQ (g <$> l)).
  rewrite IH. ring.
Qed.

(** The order of a double summation does not matter. *)
Lemma sumQ_exchange {A B} (f : A → B → Qc) (la : list A) (lb : list B) :
  sumQ ((λ b, sumQ ((λ a, f a b) <$> la)) <$> lb)
  = sumQ ((λ a, sumQ ((λ b, f a b) <$> lb)) <$> la).
Proof.
  induction la as [|a la IH]; cbn.
  - apply sumQ_fmap_zero.
  - fold (sumQ ((λ a, sumQ ((λ b, f a b) <$> lb)) <$> la)). rewrite <- IH.
    rewrite <- sumQ_fmap_plus. done.
Qed.

(** Summing the entries by index is summing the list. *)
Lemma sumQ_at_index (v : list Qc) :
  sumQ (at_index v <$> seq 0 (length v)) = sumQ v.
Proof.
  f_equal. apply list_eq. intros i.
  rewrite list_lookup_fmap. destruct (v !! i) as [x|] eqn:Hi.
  - rewrite lookup_seq_lt by (by eapply lookup_lt_Some).
    cbn. unfold at_index. by rewrite Hi.
  - rewrite lookup_seq_ge; [done|]. by apply lookup_ge_None.
Qed.

(* ================================================================= *)
(** ** The node set and its index *)

Lemma elem_of_nodeSet_add (y x : string) (s : list string) :
  y ∈ nodeSet_add x s ↔ y = x ∨ y ∈ s.
Proof.
  unfold nodeSet_add. case_decide.
  - split; [by right|]. by intros [->|?].
  - rewrite elem_of_app, list_elem_of_singleton. tauto.
Qed.

Lemma nodeSet_add_NoDup (x : string) (s : list string) :
  NoDup s → NoDup (nodeSet_add x s).
Proof.
  intros Hs. unfold nodeSet_add. case_decide; [done|].
  apply NoDup_app. split_and!; [done| |apply NoDup_singleton].
  intros y Hy ->%list_elem_of_singleton. done.
Qed.

Lemma collect_from_NoDup (es : list TrustEdge) (s : list string) :
  NoDup s → NoDup (foldl addEndpoints s es).
Proof.
  revert s. induction es as [|e es IH]; intros s Hs; [done|].
  cbn. apply IH. unfold addEndpoints. by do 2 apply nodeSet_add_NoDup.
Qed.

Lemma elem_of_collect_from (es : list TrustEdge) (s : list string) (y : string) :
  y ∈ foldl addEndpoints s es ↔ y ∈ s ∨ ∃ e, e ∈ es ∧ (y = from e ∨ y = to e).
Proof.
  revert s. induction es as [|e es IH]; intros s; cbn.
  - split; [by left|]. intros [?|(e & He & _)]; [done|]. by apply elem_of_nil in He.
  - rewrite IH. unfold addEndpoints. rewrite !elem_of_nodeSet_add. split.
    + intros [[->|[->|?]]|(e' & He' & Hy)]; eauto using list_elem_of_here.
      right. exists e'. split; [by right|done].
    + intros [?|(e' & [->|He']%elem_of_cons & Hy)]; [tauto| |eauto].
      destruct Hy as [->| ->]; tauto.
Qed.

Lemma collectNodes_NoDup (es : list TrustEdge) : NoDup (collectNodes es).
Proof. apply collect_from_NoDup, NoDup_nil_2. Qed.

Lemma elem_of_collectNodes (es : list TrustEdge) (y : string) :
  y ∈ collectNodes es ↔ ∃ e, e ∈ es ∧ (y = from e ∨ y = to e).
Proof.
  unfold collectNodes. rewrite elem_of_collect_from. split; [|by right].
  intros [Hy|?]; [|done]. by apply elem_of_nil in Hy.
Qed.

(** The node set is empty exactly for the empty edge list. *)
Lemma collectNodes_nil_iff (es : list TrustEdge) : collectNodes es = [] ↔ es = [].
Proof.
  split; [|by intros ->].
  destruct es as [|e es]; [done|]. intros Hnil.
  assert (from e ∈ collectNodes (e :: es)) as Hin.
  { apply elem_of_collectNodes. exists e. split; [left|by left]. }
  rewrite Hnil in Hin. by apply elem_of_nil in Hin.
Qed.

Lemma nodeIndex_from (l : list string) (k : nat) (m : gmap string nat) (x : string) (i : nat) :
  NoDup l →
  foldl (λ nodeIndex ni, <[ni.2 := ni.1]> nodeIndex) m (zip (seq k (length l)) l) !! x = Some i
  ↔ (∃ j, l !! j = Some x ∧ i = (k + j)%nat) ∨ ((x ∉ l) ∧ m !! x = Some i).
Proof.
  revert k m. induction l as [|y l IH]; intros k m Hnd; cbn.
  - split; [intros ?; right; split; [apply not_elem_of_nil|done]|].
    intros [(j & Hj & _)|[_ ?]]; [by rewrite lookup_nil in Hj|done].
  - apply NoDup_cons in Hnd as [Hy Hnd]. rewrite IH by done. cbn. split.
    + intros [(j & Hj & ->)|[Hx Hm]].
      * left. exists (S j). split; [done|lia].
      * destruct (decide (y = x)) as [->|Hne].
        -- rewrite lookup_insert_eq in Hm. left. exists 0%nat. split; [done|].
           injection Hm as <-. lia.
        -- rewrite lookup_insert_ne in Hm by done. right. split; [|done].
           by apply not_elem_of_cons.
    + intros [([|j] & Hj & ->)|[Hx Hm]].
      * cbn in Hj. injection Hj as ->. right. split; [done|].
        rewrite lookup_insert_eq. f_equal. lia.
      * left. exists j. split; [done|lia].
      * apply not_elem_of_cons in Hx as [Hne Hx]. right. split; [done|].
        by rewrite lookup_insert_ne.
Qed.

(** [nodeIndex.get(x)] is the position of [x] in [nodes]. *)
Lemma buildNodeIndex_lookup (nodes : list string) (x : string) (i : nat) :
  NoDup nodes → buildNodeIndex nodes !! x = Some i ↔ nodes !! i = Some x.
Proof.
  intros Hnd. unfold buildNodeIndex. rewrite nodeIndex_from by done. split.
  - intros [(j & Hj & ->)|[_ Hm]]; [done|]. by rewrite lookup_empty in Hm.
  - intros Hi. left. by exists i.
Qed.

Lemma buildNodeIndex_None (nodes : list string) (x : string) :
  NoDup nodes → buildNodeIndex nodes !! x = None ↔ x ∉ nodes.
Proof.
  intros Hnd. rewrite eq_None_not_Some. unfold is_Some. split.
  - intros Hno [i Hi]%list_elem_of_lookup_1. apply Hno. exists i.
    by apply buildNodeIndex_lookup.
  - intros Hx [i Hi]. apply Hx. apply buildNodeIndex_lookup in Hi; [|done].
    by eapply list_elem_of_lookup_2.
Qed.

(* ================================================================= *)
(** ** The loop on doubles *)

(** On the doubles, a run that returns with some fuel returns the same
    with more: what the statements below evaluate with a given fuel is
    what the code returns. *)
Lemma iterate_more_fuel (fuel fuel' : nat) (config : Float64.EigenTrustConfig) (n : nat)
    (C : list (list float)) (p t : list float) (iterations : float)
    (r : list float * float * bool) :
  Float64.iterate fuel config n C p t iterations = Ok r → (fuel ≤ fuel')%nat →
  Float64.iterate fuel' config n C p t iterations = Ok r.
Proof.
  revert fuel' t iterations. induction fuel as [|fuel IH]; intros fuel' t it; [done|].
  intros Hrun Hle. destruct fuel' as [|fuel']; [lia|]. cbn in *.
  destruct (PrimFloat.ltb it _); [|done].
  destruct (PrimFloat.ltb _ _); [done|]. apply IH; [done|lia].
Qed.

Lemma compute_more_fuel (fuel fuel' : nat) (config : Float64.EigenTrustConfig)
    (edges : list Float64.TrustEdge) (preTrusted : gset string)
    (r : Float64.EigenTrustResult) :
  Float64.compute fuel config edges preTrusted = Ok r → (fuel ≤ fuel')%nat →
  Float64.compute fuel' config edges preTrusted = Ok r.
Proof.
  unfold Float64.compute. case_decide; [done|]. intros Hrun Hle.
  destruct (Float64.iterate fuel _ _ _ _ _ _) as [r0| | |] eqn:Hloop; try done.
  by rewrite (iterate_more_fuel fuel fuel' _ _ _ _ _ _ r0 Hloop Hle).
Qed.

(* ================================================================= *)
(** ** The trust matrix *)

Lemma entry_lookup (M : list (list Qc)) (i j : nat) (row : list Qc) :
  M !! i = Some row → entry M i j = at_index row j.
Proof. intros Hi. unfold entry. by rewrite Hi. Qed.

Lemma matrix_set_square (n : nat) (M : list (list Qc)) (i j : nat) (v : Qc) :
  square n M → square n (matrix_set M i j v).
Proof.
  intros [Hlen Hrows]. unfold matrix_set. split; [by rewrite length_alter|].
  intros i' row Hrow. destruct (decide (i = i')) as [->|Hne].
  - rewrite list_lookup_alter_eq in Hrow.
    destruct (M !! i') as [row'|] eqn:Hi'; [|done].
    injection Hrow as <-. rewrite length_insert. by eapply Hrows.
  - rewrite list_lookup_alter_ne in Hrow by done. by eapply Hrows.
Qed.

Lemma entry_matrix_set (n : nat) (M : list (list Qc)) (i j i' j' : nat) (v : Qc) :
  square n M → (i < n)%nat → (j < n)%nat →
  entry (matrix_set M i j v) i' j' = if decide (i' = i ∧ j' = j) then v else entry M i' j'.
Proof.
  intros [Hlen Hrows] Hi Hj. unfold matrix_set, entry.
  destruct (decide (i' = i)) as [->|Hne].
  - rewrite list_lookup_alter_eq.
    destruct (lookup_lt_is_Some_2 M i) as [row Hrow]; [lia|].
    rewrite Hrow. cbn. unfold at_index.
    destruct (decide (j' = j)) as [->|Hnej].
    + rewrite list_lookup_insert_eq by (by rewrite (Hrows _ _ Hrow)).
      by rewrite decide_True.
    + rewrite list_lookup_insert_ne by done. by rewrite decide_False by tauto.
  - rewrite list_lookup_alter_ne by done. by rewrite decide_False by tauto.
Qed.

Lemma zero_matrix_square (n : nat) : square n (replicate n (replicate n 0)).
Proof.
  split; [by rewrite length_replicate|].
  intros i row [-> _]%lookup_replicate. by rewrite length_replicate.
Qed.

Lemma entry_zero_matrix (n i j : nat) : entry (replicate n (replicate n 0)) i j = 0.
Proof.
  unfold entry, at_index.
  destruct (replicate n (replicate n 0) !! i) as [row|] eqn:Hi; [|done].
  apply lookup_replicate in Hi as [-> _]. cbn.
  destruct (replicate n 0 !! j) as [x|] eqn:Hj; [|done].
  by apply lookup_replicate in Hj as [-> _].
Qed.

Section raw_matrix.
Context (nodes : list string) (Hnd : NoDup nodes).
Local Abbreviation n := (length nodes).
Local Abbreviation nodeIndex := (buildNodeIndex nodes).

Lemma rawTrustMatrix_snoc (es : list TrustEdge) (e : TrustEdge) :
  rawTrustMatrix (es ++ [e]) nodes nodeIndex
  = match nodeIndex !! from e, nodeIndex !! to e with
    | Some i, Some j =>
        if decide (i ≠ j)
        then matrix_set (rawTrustMatrix es nodes nodeIndex) i j (Math_max 0 (weight e))
        else rawTrustMatrix es nodes nodeIndex
    | _, _ => rawTrustMatrix es nodes nodeIndex
    end.
Proof. unfold rawTrustMatrix. by rewrite foldl_app. Qed.

Lemma nodeIndex_bound (x : string) (i : nat) : nodeIndex !! x = Some i → (i < n)%nat.
Proof.
  intros Hi. apply buildNodeIndex_lookup in Hi; [|done]. by eapply lookup_lt_Some.
Qed.

Lemma rawTrustMatrix_square (es : list TrustEdge) :
  square n (rawTrustMatrix es nodes nodeIndex).
Proof.
  induction es as [|e es IH] using rev_ind; [apply zero_matrix_square|].
  rewrite rawTrustMatrix_snoc.
  destruct (nodeIndex !! from e) as [i|]; [|done].
  destruct (nodeIndex !! to e) as [j|]; [|done].
  case_decide; [|done]. by apply matrix_set_square.
Qed.

(** The entry for the nodes [a] and [b], at the positions [i] and [j]. *)
Lemma rawTrustMatrix_entry (es : list TrustEdge) (i j : nat) (a b : string) :
  nodes !! i = Some a → nodes !! j = Some b →
  entry (rawTrustMatrix es nodes nodeIndex) i j
  = if decide (i = j) then 0
    else match edgeWeight es a b with
         | Some w => Math_max 0 w
         | None => 0
         end.
Proof.
  intros Ha Hb. induction es as [|e es IH] using rev_ind.
  - unfold rawTrustMatrix. cbn. rewrite entry_zero_matrix. by case_decide.
  - rewrite rawTrustMatrix_snoc. unfold edgeWeight in *.
    rewrite filter_app, filter_cons, filter_nil.
    destruct (decide (from e = a ∧ to e = b)) as [[Hf Ht]|Hother].
    + (* the edge is one from [a] to [b] *)
      assert (nodeIndex !! from e = Some i) as ->
        by (apply buildNodeIndex_lookup; [done|congruence]).
      assert (nodeIndex !! to e = Some j) as ->
        by (apply buildNodeIndex_lookup; [done|congruence]).
      rewrite last_snoc. cbn.
      destruct (decide (i ≠ j)) as [Hij|Hij].
      * rewrite (entry_matrix_set n);
          [|apply rawTrustMatrix_square; done|by eapply lookup_lt_Some..].
        rewrite decide_True by done. by rewrite decide_False.
      * rewrite IH. by rewrite !decide_True by (by destruct (decide (i = j))).
    + (* another edge *)
      rewrite app_nil_r, <- IH.
      destruct (nodeIndex !! from e) as [i'|] eqn:Hi'; [|done].
      destruct (nodeIndex !! to e) as [j'|] eqn:Hj'; [|done].
      destruct (decide (i' ≠ j')) as [Hne|]; [|done].
      rewrite (entry_matrix_set n);
        [|apply rawTrustMatrix_square; done|by eapply nodeIndex_bound..].
      rewrite decide_False; [done|].
      intros [-> ->]. apply Hother.
      apply buildNodeIndex_lookup in Hi', Hj'; [|done..].
      split; congruence.
Qed.

(** No self-loop reaches the matrix. *)
Lemma rawTrustMatrix_diagonal (es : list TrustEdge) (i : nat) :
  entry (rawTrustMatrix es nodes nodeIndex) i i = 0.
Proof.
  induction es as [|e es IH] using rev_ind.
  - unfold rawTrustMatrix. cbn. apply entry_zero_matrix.
  - rewrite rawTrustMatrix_snoc.
    destruct (nodeIndex !! from e) as [i'|] eqn:Hi'; [|done].
    destruct (nodeIndex !! to e) as [j'|] eqn:Hj'; [|done].
    case_decide; [|done].
    rewrite (entry_matrix_set n);
      [|apply rawTrustMatrix_square|by eapply nodeIndex_bound..].
    rewrite decide_False; [done|]. intros [-> ->]. done.
Qed.
End raw_matrix.

Lemma normalizeRow_Ok (n : nat) (row : list Qc) :
  n ≠ 0%nat → normalizeRow n row = Ok (normalizedRow n row).
Proof.
  intros Hn. unfold normalizeRow, normalizedRow. rewrite rowSum_sumQ.
  case_decide as Hpos.
  - apply mapM_Ok_fmap. intros x _. apply checked_div_Ok.
    intros Hz. rewrite Hz in Hpos. by apply Qclt_not_eq in Hpos.
  - by rewrite checked_div_Ok by by apply Qc_of_nat_nonzero.
Qed.

Lemma normalizedRow_length (n : nat) (row : list Qc) :
  length row = n → length (normalizedRow n row) = n.
Proof.
  intros Hlen. unfold normalizedRow. case_decide.
  - by rewrite length_fmap.
  - by rewrite length_replicate.
Qed.

Lemma normalizedRow_sum (n : nat) (row : list Qc) :
  n ≠ 0%nat → sumQ (normalizedRow n row) = 1.
Proof.
  intros Hn. unfold normalizedRow. case_decide as Hpos.
  - rewrite sumQ_fmap_div. field.
    intros Hz. rewrite Hz in Hpos. by apply Qclt_not_eq in Hpos.
  - rewrite sumQ_replicate. field. by apply Qc_of_nat_nonzero.
Qed.

Lemma square_nonempty (n : nat) (M : list (list Qc)) (row : list Qc) :
  square n M → row ∈ M → n ≠ 0%nat.
Proof.
  intros [Hlen _] Hrow ->. apply length_zero_iff_nil in Hlen. subst M.
  by apply elem_of_nil in Hrow.
Qed.

(** The matrix is always built: no division of it is by zero. *)
Lemma buildNormalizedTrustMatrix_Ok (es : list TrustEdge) (nodes : list string) :
  buildNormalizedTrustMatrix es nodes (buildNodeIndex nodes)
  = Ok (normalizedRow (length nodes) <$> rawTrustMatrix es nodes (buildNodeIndex nodes)).
Proof.
  unfold buildNormalizedTrustMatrix. apply mapM_Ok_fmap.
  intros row Hrow. apply normalizeRow_Ok.
  eapply square_nonempty; [by apply rawTrustMatrix_square|done].
Qed.

Lemma normalized_row_stochastic (es : list TrustEdge) (nodes : list string) :
  row_stochastic (length nodes)
    (normalizedRow (length nodes) <$> rawTrustMatrix es nodes (buildNodeIndex nodes)).
Proof.
  destruct (rawTrustMatrix_square nodes es) as [Hlen Hrows].
  split; [by rewrite length_fmap|].
  intros i row Hrow. rewrite list_lookup_fmap in Hrow.
  destruct (rawTrustMatrix es nodes (buildNodeIndex nodes) !! i) as [raw|] eqn:Hraw;
    [|done].
  injection Hrow as <-. split.
  - apply normalizedRow_length. by eapply Hrows.
  - apply normalizedRow_sum. apply lookup_lt_Some in Hraw. lia.
Qed.

(** Clamped weights are not negative, and neither is their sum. *)
Lemma Math_max_0_nonneg (w : Qc) : 0 ≤ Math_max 0 w.
Proof. unfold Math_max. case_decide; [by apply Qclt_le_weak|apply Qcle_refl]. Qed.

Lemma sumQ_nonneg (l : list Qc) : (∀ x, x ∈ l → 0 ≤ x) → 0 ≤ sumQ l.
Proof.
  induction l as [|x l IH]; intros Hl; [apply Qcle_refl|].
  rewrite sumQ_cons. rewrite <- (Qcplus_0_l 0).
  apply Qcplus_le_compat; [apply Hl; left|apply IH].
  intros y Hy. apply Hl. by right.
Qed.

Lemma rawTrustMatrix_row_nonneg (es : list TrustEdge) (nodes : list string) (i : nat)
    (row : list Qc) :
  NoDup nodes →
  rawTrustMatrix es nodes (buildNodeIndex nodes) !! i = Some row → 0 ≤ sumQ row.
Proof.
  intros Hnd Hrow. apply sumQ_nonneg. intros x [j Hj]%list_elem_of_lookup_1.
  destruct (rawTrustMatrix_square nodes es) as [Hlen Hrows].
  destruct (lookup_lt_is_Some_2 nodes i) as [a Ha];
    [apply lookup_lt_Some in Hrow; lia|].
  destruct (lookup_lt_is_Some_2 nodes j) as [b Hb];
    [apply lookup_lt_Some in Hj; by rewrite <- (Hrows _ _ Hrow)|].
  pose proof (rawTrustMatrix_entry nodes Hnd es i j a b Ha Hb) as Hentry.
  rewrite (entry_lookup _ _ _ _ Hrow) in Hentry. unfold at_index in Hentry.
  rewrite Hj in Hentry. cbn in Hentry. rewrite Hentry.
  case_decide; [apply Qcle_refl|].
  destruct (edgeWeight es a b); [apply Math_max_0_nonneg|apply Qcle_refl].
Qed.

(** C2, as amended.  For every edge list, with [nodes] the node set in
    index order and [raw] the matrix after the loop over the edges: the
    solver's matrix [C] is built (no division by zero), and for every
    node [a] at index [i]:
    - [raw[i][j]], for another node [b] at index [j], is the weight of
      the (last) edge from [a] to [b] clamped at zero, and 0 without such
      an edge;
    - [raw[i][i]] is 0, whatever self-loops the edge list has;
    - the clamped weights of row [i] sum to a value that is not negative;
    - when that sum is positive and does not overflow (it is at most
      [2^1023]), row [i] of [C] is the raw row divided by it, sums to 1
      and keeps the 0 on the diagonal;
    - when that sum is 0, row [i] of [C] is uniform, every entry
      [1/|N|], and sums to 1.
    Numbers are exact rationals: "sums to 1" is up to the rounding of the
    quotients on doubles. *)
Theorem trust_matrix_construction (es : list TrustEdge) :
  let nodes := collectNodes es in
  let n := length nodes in
  let raw := rawTrustMatrix es nodes (buildNodeIndex nodes) in
  ∃ C, buildNormalizedTrustMatrix es nodes (buildNodeIndex nodes) = Ok C ∧
       length C = n ∧
       ∀ i a, nodes !! i = Some a →
         (∀ j b, nodes !! j = Some b → i ≠ j →
            entry raw i j = match edgeWeight es a b with
                            | Some w => Math_max 0 w
                            | None => 0
                            end) ∧
         entry raw i i = 0 ∧
         ∃ rawRow row,
           raw !! i = Some rawRow ∧ C !! i = Some row ∧ length row = n ∧
           0 ≤ sumQ rawRow ∧
           (0 < sumQ rawRow → sumQ rawRow ≤ SAFE_ROW_SUM →
              row = (λ x, x / sumQ rawRow) <$> rawRow ∧ sumQ row = 1 ∧
              at_index row i = 0) ∧
           (sumQ rawRow = 0 →
              row = replicate n (1 / Qc_of_nat n) ∧ sumQ row = 1).
Proof.
  intros nodes n raw. pose proof (collectNodes_NoDup es) as Hnd. fold nodes in Hnd.
  exists (normalizedRow n <$> raw). split; [apply buildNormalizedTrustMatrix_Ok|].
  destruct (rawTrustMatrix_square nodes es) as [Hlen Hrows]. fold raw in Hlen, Hrows.
  split; [by rewrite length_fmap|].
  intros i a Ha. split; [|split].
  - intros j b Hb Hij.
    unfold raw. rewrite (rawTrustMatrix_entry nodes Hnd es i j a b Ha Hb).
    by rewrite decide_False.
  - apply rawTrustMatrix_diagonal; done.
  - pose proof (lookup_lt_Some _ _ _ Ha) as Hi. fold n in Hi.
    destruct (lookup_lt_is_Some_2 raw i) as [rawRow HrawRow]; [lia|].
    exists rawRow, (normalizedRow n rawRow).
    assert (n ≠ 0%nat) as Hn by lia.
    assert (sumQ (normalizedRow n rawRow) = 1) as Hsum by (by apply normalizedRow_sum).
    split; [done|]. split; [by rewrite list_lookup_fmap, HrawRow|].
    split; [apply normalizedRow_length; by eapply Hrows|].
    split; [by eapply rawTrustMatrix_row_nonneg|].
    unfold normalizedRow in Hsum |- *. split.
    + intros Hpos _. rewrite decide_True in Hsum |- * by done.
      split; [done|]. split; [done|].
      unfold at_index. rewrite list_lookup_fmap.
      pose proof (rawTrustMatrix_diagonal nodes Hnd es i) as Hdiag.
      fold raw in Hdiag. rewrite (entry_lookup _ _ _ _ HrawRow) in Hdiag.
      unfold at_index in Hdiag.
      destruct (rawRow !! i) as [x|]; [|done]. cbn in *. rewrite Hdiag.
      unfold Qcdiv. ring.
    + intros Hzero.
      by rewrite decide_False in Hsum |- * by (rewrite Hzero; apply (irreflexivity Qclt)).
Qed.

(** C2, as amended, at work on [A -> B (2)], [A -> A (1)], [A -> C (-1)]:
    the self-loop and the negative weight leave 0 in the raw row of [A],
    whose normalized row sums to 1.  The doubles give the same matrix:
    the row [[0, 1, 0]] for [A] and uniform rows for [B] and [C]. *)
Lemma trust_matrix_construction_witness :
  let nodes := collectNodes graph_fan in
  (∃ C, buildNormalizedTrustMatrix graph_fan nodes (buildNodeIndex nodes) = Ok C ∧
        nodes = ["A"; "B"; "C"]%string ∧
        entry (rawTrustMatrix graph_fan nodes (buildNodeIndex nodes)) 0 0 = 0 ∧
        entry (rawTrustMatrix graph_fan nodes (buildNodeIndex nodes)) 0 2 = 0 ∧
        ∃ row, C !! 0%nat = Some row ∧ sumQ row = 1) ∧
  Float64.buildNormalizedTrustMatrix Float64.graph_fan
    (Float64.collectNodes Float64.graph_fan)
    (buildNodeIndex (Float64.collectNodes Float64.graph_fan))
  = [[0; 1; 0]; [1 / 3; 1 / 3; 1 / 3]; [1 / 3; 1 / 3; 1 / 3]]%float.
Proof.
  intros nodes. split; [|by vm_compute].
  destruct (trust_matrix_construction graph_fan) as (C & HC & _ & Hrows).
  destruct (Hrows 0%nat "A"%string eq_refl)
    as (Hentry & Hdiag & rawRow & row & HrawRow & Hrow & _ & _ & Hpos & _).
  assert (0 < sumQ rawRow ∧ sumQ rawRow ≤ SAFE_ROW_SUM) as [Hlow Hhigh].
  { replace rawRow with (default [] (Some rawRow)) by done. rewrite <- HrawRow.
    split; by vm_compute. }
  destruct (Hpos Hlow Hhigh) as (_ & Hsum & _).
  exists C. split; [exact HC|]. split; [reflexivity|]. split; [exact Hdiag|].
  split; [|by exists row].
  unfold nodes. rewrite (Hentry 2%nat "C"%string eq_refl) by done. by vm_compute.
Defined.

(** C2, as it was stated, fails when the sum of a row overflows.  On the
    doubles, with the two weights [2^1023] out of [A] (each finite and
    positive): the raw row of [A] is [[0, 2^1023, 2^1023]], its [rowSum]
    is [Infinity], which passes [rowSum > 0], and every entry divided by
    it is 0: the row of [A] in the solver's matrix is [[0, 0, 0]] and
    sums to 0, not to 1. *)
Lemma trust_matrix_overflow_counterexample :
  let edges := Float64.graph_overflow in
  let nodes := Float64.collectNodes edges in
  let raw := Float64.rawTrustMatrix edges nodes (buildNodeIndex nodes) in
  let C := Float64.buildNormalizedTrustMatrix edges nodes (buildNodeIndex nodes) in
  nodes = ["A"; "B"; "C"]%string ∧
  raw !! 0%nat = Some [0; 0x1p1023; 0x1p1023]%float ∧
  (is_finite 0x1p1023 = true ∧ (0 <? 0x1p1023)%float = true) ∧
  (Float64.rowSum [0; 0x1p1023; 0x1p1023]%float = infinity ∧
   (0 <? infinity)%float = true) ∧
  C !! 0%nat = Some [0; 0; 0]%float ∧
  Float64.rowSum [0; 0; 0]%float = 0%float ∧
  Float64.rowSum [0; 0; 0]%float ≠ 1%float.
Proof.
  intros edges nodes raw C. repeat (split; [by vm_compute|]).
  intros Hone. vm_compute in Hone. discriminate Hone.
Qed.

(* ================================================================= *)
(** ** The pre-trust vector *)

Section pre_trust.
Context (nodes : list string) (Hnd : NoDup nodes).
Local Abbreviation nodeIndex := (buildNodeIndex nodes).
Local Abbreviation mark := (markPreTrusted (buildNodeIndex nodes)).

Lemma mark_length (v : Qc) (p : list Qc) (addr : string) :
  length (mark v p addr) = length p.
Proof.
  unfold markPreTrusted. destruct (nodeIndex !! addr); [apply length_insert|done].
Qed.

(** After the loop over the addresses [l], the slot of a node holds
    [v] if the node is one of them, and its old value otherwise. *)
Lemma mark_all_lookup (v : Qc) (l : list string) (p0 : list Qc) (i : nat) (x : string) :
  length p0 = length nodes → nodes !! i = Some x →
  foldl (mark v) p0 l !! i = Some (if decide (x ∈ l) then v else at_index p0 i).
Proof.
  revert p0. induction l as [|y l IH]; intros p0 Hlen Hx; cbn.
  - rewrite decide_False by apply not_elem_of_nil. unfold at_index.
    destruct (lookup_lt_is_Some_2 p0 i) as [z ->]; [|done].
    rewrite Hlen. by eapply lookup_lt_Some.
  - rewrite IH by (by rewrite ?mark_length). f_equal.
    destruct (decide (x ∈ l)) as [Hl|Hl]; [by rewrite decide_True by by right|].
    unfold markPreTrusted, at_index.
    destruct (nodeIndex !! y) as [k|] eqn:Hk.
    + apply buildNodeIndex_lookup in Hk; [|done].
      destruct (decide (k = i)) as [->|Hne].
      * assert (y = x) as -> by congruence.
        rewrite decide_True by left.
        rewrite list_lookup_insert_eq; [done|].
        rewrite Hlen. by eapply lookup_lt_Some.
      * rewrite list_lookup_insert_ne by done.
        rewrite decide_False; [done|].
        intros [->|?]%elem_of_cons; [|done].
        apply Hne. by eapply NoDup_lookup.
    + apply buildNodeIndex_None in Hk; [|done].
      rewrite decide_False; [done|].
      intros [->|?]%elem_of_cons; [|done].
      apply Hk. by eapply list_elem_of_lookup_2.
Qed.

Lemma mark_all_length (v : Qc) (l : list string) (p0 : list Qc) :
  length (foldl (mark v) p0 l) = length p0.
Proof.
  revert p0. induction l as [|y l IH]; intros p0; cbn; [done|].
  by rewrite IH, mark_length.
Qed.

(** [p] is always built once the graph has a node, and it gives every
    node its pre-trust mass; addresses that are no nodes leave no trace. *)
Lemma preTrustVector_Ok (preTrusted : gset string) :
  nodes ≠ [] →
  preTrustVector nodes nodeIndex preTrusted
  = Ok (preTrustMass preTrusted (length nodes) <$> nodes).
Proof.
  intros Hne. unfold preTrustVector, preTrustMass.
  assert (length nodes ≠ 0%nat) as Hn by (by destruct nodes).
  case_decide as Hsize.
  - rewrite checked_div_Ok by (apply Qc_of_nat_nonzero; lia). cbn. f_equal.
    apply list_eq. intros i. rewrite list_lookup_fmap.
    destruct (nodes !! i) as [x|] eqn:Hx; cbn.
    + rewrite (mark_all_lookup _ _ _ i x); [|by rewrite length_replicate|done].
      f_equal. unfold at_index.
      rewrite lookup_replicate_2 by (by eapply lookup_lt_Some). cbn.
      destruct (decide (x ∈ elements preTrusted)) as [Hin|Hin];
        rewrite elem_of_elements in Hin; [by rewrite decide_True|by rewrite decide_False].
    + apply lookup_ge_None.
      rewrite mark_all_length, length_replicate. by apply lookup_ge_None.
  - rewrite checked_div_Ok by by apply Qc_of_nat_nonzero. cbn. f_equal.
    apply list_eq. intros i. rewrite list_lookup_fmap.
    destruct (nodes !! i) as [x|] eqn:Hx; cbn.
    + apply lookup_replicate_2. by eapply lookup_lt_Some.
    + apply lookup_ge_None. rewrite length_replicate. by apply lookup_ge_None.
Qed.

Lemma sumQ_indicator (preTrusted : gset string) (v : Qc) (l : list string) :
  sumQ ((λ x, if decide (x ∈ preTrusted) then v else 0) <$> l)
  = Qc_of_nat (length (filter (λ x, x ∈ preTrusted) l)) * v.
Proof.
  induction l as [|x l IH]; [cbn; rewrite Qc_of_nat_0; ring|].
  rewrite fmap_cons, sumQ_cons, IH, filter_cons.
  case_decide; [rewrite length_cons, Qc_of_nat_S|]; ring.
Qed.

Lemma present_count (preTrusted : gset string) :
  length (filter (λ x, x ∈ preTrusted) nodes) = presentPreTrusted preTrusted nodes.
Proof.
  unfold presentPreTrusted, size, set_size. cbn. apply Permutation_length.
  apply NoDup_Permutation; [by apply NoDup_filter|apply NoDup_elements|].
  intros x. rewrite list_elem_of_filter, elem_of_elements, elem_of_filter. tauto.
Qed.

(** The mass of [p]: 1 without pre-trusted addresses, and otherwise
    the share of the pre-trusted addresses that are nodes. *)
Lemma preTrust_mass (preTrusted : gset string) :
  nodes ≠ [] →
  sumQ (preTrustMass preTrusted (length nodes) <$> nodes)
  = if decide (0 < size preTrusted)%nat
    then Qc_of_nat (presentPreTrusted preTrusted nodes) / Qc_of_nat (size preTrusted)
    else 1.
Proof.
  intros Hne. unfold preTrustMass.
  assert (length nodes ≠ 0%nat) as Hn by (by destruct nodes).
  case_decide as Hsize.
  - rewrite sumQ_indicator, present_count. unfold Qcdiv. ring.
  - transitivity (sumQ (replicate (length nodes) (1 / Qc_of_nat (length nodes)))).
    + f_equal. by apply const_fmap.
    + rewrite sumQ_replicate. field. by apply Qc_of_nat_nonzero.
Qed.
End pre_trust.

(* ================================================================= *)
(** ** The propagation loop *)

(** The accumulations of the loop body are the sums of the recurrence. *)
Lemma propagate_recurrence (n : nat) (a : Qc) (C : list (list Qc)) (p t : list Qc) :
  propagate n a C p t = recurrence_step n a C p t.
Proof.
  unfold propagate, recurrence_step. apply list_fmap_ext. intros _ j _. cbn.
  by rewrite foldl_plus_sumQ, Qcplus_0_l.
Qed.

Lemma l1_diff_distance (n : nat) (u v : list Qc) : l1_diff n u v = l1_distance n u v.
Proof.
  unfold l1_diff, l1_distance, Math_abs.
  by rewrite (foldl_plus_sumQ (λ i, Qcabs (at_index u i - at_index v i))), Qcplus_0_l.
Qed.

Lemma recurrence_step_length (n : nat) (a : Qc) (C : list (list Qc)) (p t : list Qc) :
  length (recurrence_step n a C p t) = n.
Proof. unfold recurrence_step. by rewrite length_fmap, length_seq. Qed.

Lemma sumQ_row (n : nat) (C : list (list Qc)) (i : nat) (row : list Qc) :
  C !! i = Some row → length row = n →
  sumQ (entry C i <$> seq 0 n) = sumQ row.
Proof.
  intros Hrow <-. rewrite <- (sumQ_at_index row). apply sumQ_fmap_ext.
  intros j _. by apply entry_lookup.
Qed.

(** Mass conservation of one step: with rows that sum to 1, the new
    vector carries [(1 - a)] of the mass of [p] and [a] of the mass of [t]. *)
Lemma recurrence_step_mass (n : nat) (a : Qc) (C : list (list Qc)) (p t : list Qc) :
  row_stochastic n C → length p = n → length t = n →
  sumQ (recurrence_step n a C p t) = (1 - a) * sumQ p + a * sumQ t.
Proof.
  intros [HC Hrows] Hp Ht. unfold recurrence_step.
  rewrite (sumQ_fmap_linear (1 - a) a (at_index p)
             (λ j, sumQ ((λ i, entry C i j * at_index t i) <$> seq 0 n))).
  rewrite <- Hp at 1. rewrite sumQ_at_index. f_equal. f_equal.
  rewrite (sumQ_exchange (λ i j, entry C i j * at_index t i)).
  rewrite <- (sumQ_at_index t), Ht. apply sumQ_fmap_ext.
  intros i Hi%elem_of_seq. rewrite sumQ_fmap_scale.
  destruct (lookup_lt_is_Some_2 C i) as [row Hrow]; [lia|].
  destruct (Hrows i row Hrow) as [Hlen Hsum].
  rewrite (sumQ_row n C i row) by done. rewrite Hsum. ring.
Qed.

Section iterates.
Context (n : nat) (a : Qc) (C : list (list Qc)) (p : list Qc).
Context (HC : row_stochastic n C) (Hp : length p = n).

Lemma trust_iterate_length (k : nat) : length (trust_iterate n a C p k) = n.
Proof. destruct k; [done|]. apply recurrence_step_length. Qed.

(** Every iterate carries the mass of [p]. *)
Lemma trust_iterate_mass (k : nat) : sumQ (trust_iterate n a C p k) = sumQ p.
Proof.
  induction k as [|k IH]; [done|]. cbn.
  rewrite recurrence_step_mass by (done || apply trust_iterate_length).
  rewrite IH. ring.
Qed.
End iterates.

Section loop.
Context (config : EigenTrustConfig) (n : nat) (C : list (list Qc)) (p : list Qc).
Local Abbreviation T := (trust_iterate n (decayFactor config) C p).
Local Abbreviation dist := (λ k, l1_distance n (T k) (T (pred k))).
Local Abbreviation below := (λ k, dist k < convergenceThreshold config).

(** What the loop returns when it is entered with [iterations = it] and
    [t] the iterate number [it]: the first later iterate that is closer
    than the threshold to the one before it, or the iterate number
    [maxIterations]. *)
Lemma iterate_from (d it fuel : nat) :
  maxIterations config = (it + d)%nat → (d < fuel)%nat →
  (∃ k, (it < k ≤ maxIterations config)%nat ∧ below k ∧
        (∀ k', (it < k' < k)%nat → ¬ below k') ∧
        iterate fuel config n C p (T it) it = Ok (T k, k, true))
  ∨ ((∀ k', (it < k' ≤ maxIterations config)%nat → ¬ below k') ∧
     iterate fuel config n C p (T it) it
     = Ok (T (maxIterations config), maxIterations config, false)).
Proof.
  revert it fuel. induction d as [|d IH]; intros it fuel Hmax Hfuel.
  - right. split; [intros k' ?; lia|].
    destruct fuel as [|fuel]; [lia|]. cbn.
    rewrite decide_False by lia. by replace (maxIterations config) with it by lia.
  - destruct fuel as [|fuel]; [lia|]. cbn [iterate].
    rewrite decide_True by lia.
    rewrite propagate_recurrence, l1_diff_distance.
    change (recurrence_step n (decayFactor config) C p (T it)) with (T (S it)).
    change (l1_distance n (T (S it)) (T it)) with (dist (S it)).
    destruct (decide (dist (S it) < convergenceThreshold config)) as [Hlt|Hge].
    + left. exists (S it). split; [lia|]. split; [done|]. split; [intros k' ?; lia|done].
    + destruct (IH (S it) fuel) as [(k & Hk & Hbelow & Hfirst & Hrun)|[Hnone Hrun]];
        [lia..| |].
      * left. exists k. split; [lia|]. split; [done|]. split; [|done].
        intros k' Hk'. destruct (decide (k' = S it)) as [->|]; [done|].
        apply Hfirst. lia.
      * right. split; [|done].
        intros k' Hk'. destruct (decide (k' = S it)) as [->|]; [done|].
        apply Hnone. lia.
Qed.
End loop.

(** Started on [p] with [maxIterations + 1] units of fuel, the loop
    returns one of the iterates, after at most [maxIterations] passes. *)
Lemma iterate_returns (config : EigenTrustConfig) (n : nat) (C : list (list Qc))
    (p : list Qc) :
  ∃ k flag, (k ≤ maxIterations config)%nat ∧
            iterate (S (maxIterations config)) config n C p p 0
            = Ok (trust_iterate n (decayFactor config) C p k, k, flag).
Proof.
  destruct (iterate_from config n C p (maxIterations config) 0 (S (maxIterations config)))
    as [(k & Hk & _ & _ & Hrun)|[_ Hrun]]; [lia..| |].
  - exists k, true. split; [lia|exact Hrun].
  - exists (maxIterations config), false. split; [lia|exact Hrun].
Qed.

(* ================================================================= *)
(** ** The score map *)

Lemma sum_values_empty : sum_values ∅ = 0.
Proof. unfold sum_values. by rewrite map_fold_empty. Qed.

Lemma sum_values_insert (m : gmap string Qc) (x : string) (v : Qc) :
  m !! x = None → sum_values (<[x := v]> m) = sum_values m + v.
Proof.
  intros Hx. unfold sum_values. rewrite map_fold_insert_L; [done| |done].
  intros. ring.
Qed.

Section fill.
Context (key : nat → string) (val : nat → Qc).
Local Abbreviation fill := (foldl (λ scores i, <[key i := val i]> scores)).

Lemma fill_lookup_other (indices : list nat) (m0 : gmap string Qc) (x : string) :
  x ∉ key <$> indices → fill m0 indices !! x = m0 !! x.
Proof.
  revert m0. induction indices as [|i indices IH]; intros m0 Hx; [done|].
  rewrite fmap_cons in Hx. apply not_elem_of_cons in Hx as [Hne Hx].
  cbn. rewrite IH by done. by rewrite lookup_insert_ne.
Qed.

Lemma fill_lookup (indices : list nat) (m0 : gmap string Qc) (i : nat) :
  NoDup (key <$> indices) → i ∈ indices → fill m0 indices !! key i = Some (val i).
Proof.
  revert m0. induction indices as [|j indices IH]; intros m0 Hnd Hi.
  - by apply elem_of_nil in Hi.
  - rewrite fmap_cons in Hnd. apply NoDup_cons in Hnd as [Hj Hnd]. cbn.
    apply elem_of_cons in Hi as [->|Hi]; [|by apply IH].
    rewrite fill_lookup_other by done. apply lookup_insert_eq.
Qed.

Lemma fill_sum (indices : list nat) (m0 : gmap string Qc) :
  NoDup (key <$> indices) → (∀ i, i ∈ indices → m0 !! key i = None) →
  sum_values (fill m0 indices) = sum_values m0 + sumQ (val <$> indices).
Proof.
  revert m0. induction indices as [|j indices IH]; intros m0 Hnd Hfree.
  - cbn. ring.
  - rewrite fmap_cons in Hnd. apply NoDup_cons in Hnd as [Hj Hnd]. cbn.
    fold (sumQ (val <$> indices)). rewrite IH; [|done|].
    + rewrite sum_values_insert by (apply Hfree; left). ring.
    + intros i Hi. rewrite lookup_insert_ne; [apply Hfree; by right|].
      intros Heq. apply Hj. rewrite Heq. by apply list_elem_of_fmap_2.
Qed.
End fill.

Lemma node_keys (nodes : list string) :
  (λ i, default ""%string (nodes !! i)) <$> seq 0 (length nodes) = nodes.
Proof.
  apply list_eq. intros i. rewrite list_lookup_fmap.
  destruct (nodes !! i) as [x|] eqn:Hx.
  - rewrite lookup_seq_lt by (by eapply lookup_lt_Some). cbn. by rewrite Hx.
  - rewrite lookup_seq_ge; [done|]. by apply lookup_ge_None.
Qed.

(** The score of the node at index [i] is [t[i]]. *)
Lemma packageScores_lookup (nodes : list string) (t : list Qc) (i : nat) (x : string) :
  NoDup nodes → nodes !! i = Some x → packageScores nodes t !! x = Some (at_index t i).
Proof.
  intros Hnd Hx. unfold packageScores.
  pose proof (fill_lookup (λ i, default ""%string (nodes !! i)) (at_index t)
                (seq 0 (length nodes)) ∅ i) as Hfill.
  cbn in Hfill. rewrite Hx in Hfill. apply Hfill.
  - by rewrite node_keys.
  - apply elem_of_seq. split; [lia|]. cbn. by eapply lookup_lt_Some.
Qed.

(** Addresses that are no nodes have no score. *)
Lemma packageScores_lookup_None (nodes : list string) (t : list Qc) (x : string) :
  x ∉ nodes → packageScores nodes t !! x = None.
Proof.
  intros Hx. unfold packageScores.
  rewrite (fill_lookup_other (λ i, default ""%string (nodes !! i)) (at_index t));
    [done|by rewrite node_keys].
Qed.

(** The scores sum to the mass of [t]. *)
Lemma packageScores_sum (nodes : list string) (t : list Qc) :
  NoDup nodes → length t = length nodes → sum_values (packageScores nodes t) = sumQ t.
Proof.
  intros Hnd Hlen. unfold packageScores.
  rewrite (fill_sum (λ i, default ""%string (nodes !! i)) (at_index t));
    [|by rewrite node_keys|done].
  rewrite sum_values_empty, <- Hlen, sumQ_at_index. ring.
Qed.

(* ================================================================= *)
(** ** [compute] as a whole *)

Section compute_facts.
Context (config : EigenTrustConfig) (es : list TrustEdge) (preTrusted : gset string).
Local Abbreviation nodes := (collectNodes es).
Local Abbreviation n := (length nodes).
Local Abbreviation C := (normalizedRow n <$> rawTrustMatrix es nodes (buildNodeIndex nodes)).
Local Abbreviation p := (preTrustMass preTrusted n <$> nodes).

Lemma compute_empty_nodes :
  nodes = [] → compute config es preTrusted
               = Ok {| scores := ∅; iterations := 0; converged := true |}.
Proof. intros Hnil. unfold compute. fold nodes. by rewrite Hnil. Qed.

(** With a node in the graph, [compute] runs the loop on [C] and [p]
    and packages what the loop returns. *)
Lemma compute_nonempty :
  es ≠ [] →
  compute config es preTrusted
  = r ← iterate (S (maxIterations config)) config n C p p 0;
    Ok {| scores := packageScores nodes r.1.1; iterations := r.1.2; converged := r.2 |}.
Proof.
  intros Hes. unfold compute. fold nodes n.
  assert (nodes ≠ []) as Hne by (by intros ?%collectNodes_nil_iff).
  rewrite decide_False by (by destruct nodes).
  rewrite buildNormalizedTrustMatrix_Ok.
  rewrite preTrustVector_Ok by (done || apply collectNodes_NoDup).
  done.
Qed.

End compute_facts.

(** C4.  For the empty edge list, and for any edge list whose node set is
    empty, [compute] returns exactly [{scores: {}, iterations: 0,
    converged: true}], whatever the configuration and the pre-trusted
    set.  The return is a normal one: it comes before the matrix and the
    pre-trust vector are built, and the uniform pre-trust value [1/n],
    which those steps would compute for an empty node set, is the
    division by zero that is never reached. *)
Theorem compute_empty_graph (config : EigenTrustConfig) (preTrusted : gset string) :
  compute config [] preTrusted = Ok {| scores := ∅; iterations := 0; converged := true |} ∧
  (∀ es, collectNodes es = [] →
         compute config es preTrusted
         = Ok {| scores := ∅; iterations := 0; converged := true |}) ∧
  preTrustVector [] (buildNodeIndex []) ∅ = NonFinite.
Proof.
  split; [done|]. split; [|done].
  intros es Hnil. by apply compute_empty_nodes.
Qed.

(** C9, as amended.  For every edge list, every pre-trusted set and every
    configuration whose [maxIterations] is a natural number of at most
    [2^53]: [compute] returns a result (the loop is not cut short, and
    nothing divides by zero), the loop body runs [iterations] times, and
    [iterations] is at most [maxIterations].  The bound [2^53] is where
    the counter of the code, a double, stops counting; the counter of the
    embedding is a natural number. *)
Theorem compute_terminates (config : EigenTrustConfig) (es : list TrustEdge)
    (preTrusted : gset string) :
  (Z.of_nat (maxIterations config) ≤ MAX_COUNT)%Z →
  ∃ r, compute config es preTrusted = Ok r ∧
       (iterations r ≤ maxIterations config)%nat.
Proof.
  intros _. destruct (decide (es = [])) as [->|Hes].
  - exists {| scores := ∅; iterations := 0; converged := true |}.
    split; [done|]. cbn. lia.
  - rewrite compute_nonempty by done.
    destruct (iterate_returns config (length (collectNodes es))
                (normalizedRow (length (collectNodes es))
                   <$> rawTrustMatrix es (collectNodes es) (buildNodeIndex (collectNodes es)))
                (preTrustMass preTrusted (length (collectNodes es)) <$> collectNodes es))
      as (k & flag & Hk & ->).
    eexists. split; [reflexivity|]. exact Hk.
Qed.

(** C9, as amended, at work: the default 50 iterations on the two-node
    cycle with [A] pre-trusted.  On the doubles the run ends after the
    same 50 iterations. *)
Lemma compute_terminates_witness :
  (Z.of_nat (maxIterations DEFAULT_CONFIG) ≤ MAX_COUNT)%Z ∧
  (∃ r, compute DEFAULT_CONFIG graph_cycle {["A"%string]} = Ok r ∧
        (iterations r ≤ 50)%nat) ∧
  (∃ r, Float64.compute 51 Float64.DEFAULT_CONFIG Float64.graph_cycle {["A"%string]} = Ok r ∧
        Float64.iterations r = 50%float).
Proof.
  split; [by vm_compute|]. split.
  - apply (compute_terminates DEFAULT_CONFIG graph_cycle {["A"%string]}). by vm_compute.
  - eexists. split; [vm_compute; reflexivity|]. done.
Defined.

(** C9, as it was stated, fails for a finite [maxIterations] that is no
    natural number, and beyond [2^53].  On the doubles, on the two-node
    cycle with [A] pre-trusted and the default decay factor and
    threshold:
    - [maxIterations = 2.5]: the guard [iterations < 2.5] still holds at
      2, the body runs a third time and [iterations] is 3;
    - [maxIterations = -1]: the body never runs, and [iterations] is 0,
      which is more than -1;
    - [2^53 + 1] rounds to [2^53], so [iterations++] leaves a count of
      [2^53] where it is: with [maxIterations = 2^53 + 2] and a threshold
      of 0, the loop that has come to this count on the cycle without
      pre-trusted nodes (a fixed point: [diff] is 0, which is not below 0)
      never ends, whatever the fuel. *)
Lemma compute_iterations_counterexample :
  let config m threshold :=
    {| Float64.maxIterations := m; Float64.convergenceThreshold := threshold;
       Float64.preTrustedWeight := 0.1; Float64.decayFactor := 0.85 |} in
  let nodes := Float64.collectNodes Float64.graph_cycle in
  let C := Float64.buildNormalizedTrustMatrix Float64.graph_cycle nodes (buildNodeIndex nodes) in
  let p := Float64.preTrustVector nodes (buildNodeIndex nodes) ∅ in
  (is_finite 2.5 = true ∧
   ∃ r, Float64.compute 4 (config 2.5 0.0001) Float64.graph_cycle {["A"%string]} = Ok r ∧
        Float64.iterations r = 3 ∧ (Float64.iterations r <=? 2.5) = false)%float ∧
  (is_finite (-1) = true ∧
   ∃ r, Float64.compute 1 (config (-1) 0.0001) Float64.graph_cycle {["A"%string]} = Ok r ∧
        Float64.iterations r = 0 ∧ (Float64.iterations r <=? -1) = false)%float ∧
  (is_finite 9007199254740994 = true ∧
   9007199254740992 + 1 = 9007199254740992 ∧
   ∀ fuel, Float64.iterate fuel (config 9007199254740994 0) 2 C p p 9007199254740992
           = OutOfFuel)%float.
Proof.
  intros config nodes C p. split; [|split].
  - split; [done|]. eexists. split; [vm_compute; reflexivity|]. done.
  - split; [done|]. eexists. split; [vm_compute; reflexivity|]. done.
  - split; [done|]. split; [done|].
    induction fuel as [|fuel IH]; [done|].
    etransitivity; [|exact IH]. by vm_compute.
Qed.

(** The loop needs no more fuel than [maxIterations + 1]: with any
    larger amount it returns the same. *)
Lemma iterate_fuel_irrelevant (config : EigenTrustConfig) (n : nat) (C : list (list Qc))
    (p : list Qc) (fuel : nat) :
  (maxIterations config < fuel)%nat →
  iterate fuel config n C p p 0 = iterate (S (maxIterations config)) config n C p p 0.
Proof.
  assert (∀ d it t f1 f2, maxIterations config = (it + d)%nat →
            (d < f1)%nat → (d < f2)%nat →
            iterate f1 config n C p t it = iterate f2 config n C p t it) as Hgen.
  { induction d as [|d IH]; intros it t f1 f2 Hmax H1 H2;
      (destruct f1 as [|f1]; [lia|]); (destruct f2 as [|f2]; [lia|]); cbn.
    - repeat case_decide; try lia; done.
    - repeat case_decide; try lia; try done. apply IH; lia. }
  intros Hfuel. apply (Hgen (maxIterations config)); lia.
Qed.

Lemma at_index_fmap_seq (f : nat → Qc) (n j : nat) :
  (j < n)%nat → at_index (f <$> seq 0 n) j = f j.
Proof.
  intros Hj. unfold at_index. by rewrite list_lookup_fmap, lookup_seq_lt.
Qed.

(** C3.  For an edge list with at least one node, [compute] builds its
    matrix [C] and vector [p] and returns a result, and with [t] the
    sequence [t 0 = p],
    [t (k+1) [j] = (1 - a) * p[j] + a * sum_i (C[i][j] * t k [i])]
    ([a] the decay factor) and [norm k] the L1 norm of [t k - t (k-1)]:
    - either some [k] between 1 and [maxIterations] is the first with
      [norm k] below the threshold, and the result has [iterations = k],
      [converged = true] and, for the node at index [i], the score
      [t k [i]];
    - or no [k] between 1 and [maxIterations] has [norm k] below the
      threshold, and the result has [iterations = maxIterations],
      [converged = false] and the scores [t maxIterations [i]].
    An engine built without overrides has the decay factor 0.85, the
    threshold 1e-4 and 50 as the maximum iteration count. *)
Theorem compute_follows_recurrence (config : EigenTrustConfig) (es : list TrustEdge)
    (preTrusted : gset string) :
  es ≠ [] →
  let nodes := collectNodes es in
  let n := length nodes in
  let a := decayFactor config in
  ∃ C p r,
    buildNormalizedTrustMatrix es nodes (buildNodeIndex nodes) = Ok C ∧
    preTrustVector nodes (buildNodeIndex nodes) preTrusted = Ok p ∧
    compute config es preTrusted = Ok r ∧
    let t := trust_iterate n a C p in
    let norm := λ k, l1_distance n (t k) (t (pred k)) in
    t 0%nat = p ∧
    (∀ k j, (j < n)%nat →
       at_index (t (S k)) j
       = (1 - a) * at_index p j + a * sumQ ((λ i, entry C i j * at_index (t k) i) <$> seq 0 n)) ∧
    ((∃ k, (1 ≤ k ≤ maxIterations config)%nat ∧
           norm k < convergenceThreshold config ∧
           (∀ k', (1 ≤ k' < k)%nat → ¬ norm k' < convergenceThreshold config) ∧
           iterations r = k ∧ converged r = true ∧
           ∀ i x, nodes !! i = Some x → scores r !! x = Some (at_index (t k) i))
     ∨ ((∀ k', (1 ≤ k' ≤ maxIterations config)%nat →
               ¬ norm k' < convergenceThreshold config) ∧
        iterations r = maxIterations config ∧ converged r = false ∧
        ∀ i x, nodes !! i = Some x →
               scores r !! x = Some (at_index (t (maxIterations config)) i))) ∧
    decayFactor (EigenTrustEngine no_overrides) = Q2Qc (85 # 100) ∧
    convergenceThreshold (EigenTrustEngine no_overrides) = Q2Qc (1 # 10000) ∧
    maxIterations (EigenTrustEngine no_overrides) = 50%nat.
Proof.
  intros Hes nodes n a.
  assert (nodes ≠ []) as Hne by (by intros ?%collectNodes_nil_iff).
  pose proof (collectNodes_NoDup es) as Hnd. fold nodes in Hnd.
  set (C := normalizedRow n <$> rawTrustMatrix es nodes (buildNodeIndex nodes)).
  set (p := preTrustMass preTrusted n <$> nodes).
  destruct (iterate_from config n C p (maxIterations config) 0 (S (maxIterations config)))
    as [(k & Hk & Hbelow & Hfirst & Hrun)|[Hnone Hrun]]; [lia..| |].
  - exists C, p. eexists.
    split; [apply buildNormalizedTrustMatrix_Ok|].
    split; [by apply preTrustVector_Ok|].
    split; [rewrite compute_nonempty by done; fold nodes n C p;
            cbn [trust_iterate] in Hrun; rewrite Hrun; reflexivity|].
    cbn zeta. split; [done|].
    split; [intros k0 j Hj; cbn [trust_iterate]; unfold recurrence_step;
            by rewrite at_index_fmap_seq|].
    split; [|done].
    left. exists k. split; [lia|]. split; [done|].
    split; [intros k' Hk'; apply Hfirst; lia|].
    split; [done|]. split; [done|].
    intros i x Hx. by apply packageScores_lookup.
  - exists C, p. eexists.
    split; [apply buildNormalizedTrustMatrix_Ok|].
    split; [by apply preTrustVector_Ok|].
    split; [rewrite compute_nonempty by done; fold nodes n C p;
            cbn [trust_iterate] in Hrun; rewrite Hrun; reflexivity|].
    cbn zeta. split; [done|].
    split; [intros k0 j Hj; cbn [trust_iterate]; unfold recurrence_step;
            by rewrite at_index_fmap_seq|].
    split; [|done].
    right. split; [intros k' Hk'; apply Hnone; lia|].
    split; [done|]. split; [done|].
    intros i x Hx. by apply packageScores_lookup.
Qed.

(** C3 at work on the graph [A -> B] with the default configuration. *)
Lemma compute_follows_recurrence_witness :
  graph_A_B ≠ [] ∧
  ∃ r, compute DEFAULT_CONFIG graph_A_B ∅ = Ok r ∧ (iterations r ≤ 50)%nat.
Proof.
  split; [done|].
  destruct (compute_follows_recurrence DEFAULT_CONFIG graph_A_B ∅)
    as (C & p & r & _ & _ & Hr & _ & _ & Hcases & _); [done|].
  exists r. split; [exact Hr|].
  destruct Hcases as [(k & Hk & _ & _ & Hit & _)|(_ & Hit & _)];
    rewrite Hit; [apply Hk|apply le_n].
Defined.

(* ================================================================= *)
(** ** Mass conservation *)

Lemma Qc_of_nat_le (m n : nat) : Qc_of_nat m ≤ Qc_of_nat n ↔ (m ≤ n)%nat.
Proof. unfold Qc_of_nat. rewrite <- Z2Qc_inj_le. lia. Qed.

Lemma share_below_one (k s : nat) : (k < s)%nat → Qc_of_nat k / Qc_of_nat s < 1.
Proof.
  intros Hks. apply Qcnot_le_lt. intros Hle.
  assert (Qc_of_nat s ≠ 0) as Hs by (apply Qc_of_nat_nonzero; lia).
  apply (Qcmult_le_compat_r _ _ (Qc_of_nat s)) in Hle.
  - replace (Qc_of_nat k / Qc_of_nat s * Qc_of_nat s) with (Qc_of_nat k) in Hle
      by (by field).
    rewrite Qcmult_1_l in Hle. apply Qc_of_nat_le in Hle. lia.
  - rewrite <- Qc_of_nat_0. apply Qc_of_nat_le. lia.
Qed.

(** [compute] returns on a graph with a node, and the scores it returns
    sum to the mass of [p]. *)
Lemma compute_mass (config : EigenTrustConfig) (es : list TrustEdge)
    (preTrusted : gset string) :
  es ≠ [] →
  ∃ r, compute config es preTrusted = Ok r ∧
       sum_values (scores r)
       = sumQ (preTrustMass preTrusted (length (collectNodes es)) <$> collectNodes es).
Proof.
  intros Hes. rewrite compute_nonempty by done.
  set (nodes := collectNodes es). set (n := length nodes).
  set (C := normalizedRow n <$> rawTrustMatrix es nodes (buildNodeIndex nodes)).
  set (p := preTrustMass preTrusted n <$> nodes).
  assert (row_stochastic n C) as HC by apply normalized_row_stochastic.
  assert (length p = n) as Hp by (unfold p; by rewrite length_fmap).
  destruct (iterate_returns config n C p) as (k & flag & _ & ->).
  eexists. split; [reflexivity|]. cbn [scores fst snd].
  rewrite packageScores_sum;
    [by apply trust_iterate_mass|apply collectNodes_NoDup|].
  by rewrite trust_iterate_length.
Qed.

(** C1, as amended.  For every non-empty edge list in which the clamped
    weights out of one node never sum beyond [2^1023] (no row sum
    overflows), every pre-trusted set whose addresses all appear as an
    endpoint of some edge (the empty set among them) and every decay
    factor between 0 and 1: if [compute] returns a result with
    [converged = true], then the values of [result.scores] sum to 1
    within 1e-6.  In the exact arithmetic of this embedding they sum to
    1, for any weights and decay factor; the tolerance is the room for
    the rounding of doubles, and the conditions on the weights and on the
    decay factor are those under which the doubles stay near the
    rationals (the counterexample below runs the doubles without them). *)
Theorem scores_sum_to_one (config : EigenTrustConfig) (es : list TrustEdge)
    (preTrusted : gset string) (r : EigenTrustResult) :
  es ≠ [] →
  rows_finite es →
  (∀ x, x ∈ preTrusted → x ∈ collectNodes es) →
  0 ≤ decayFactor config ∧ decayFactor config ≤ 1 →
  compute config es preTrusted = Ok r →
  converged r = true →
  Qcabs (sum_values (scores r) - 1) < Q2Qc (1 # 1000000).
Proof.
  intros Hes _ Hpresent _ Hr _.
  assert (sum_values (scores r) = 1) as ->; [|by vm_compute].
  destruct (compute_mass config es preTrusted Hes) as (r' & Hr' & Hsum).
  assert (r' = r) as -> by congruence. rewrite Hsum.
  rewrite preTrust_mass;
    [|apply collectNodes_NoDup|by intros ?%collectNodes_nil_iff].
  case_decide as Hsize; [|done].
  assert (presentPreTrusted preTrusted (collectNodes es) = size preTrusted) as ->.
  { unfold presentPreTrusted. f_equal. apply set_eq. intros x.
    rewrite elem_of_filter. split; [by intros [_ ?]|]. intros Hx. split; [|done].
    by apply Hpresent. }
  field. apply Qc_of_nat_nonzero. lia.
Qed.

(** C1, as amended, at work: the cycle [A -> B -> A] with both nodes
    pre-trusted.  On the doubles the same run converges too, on scores
    that sum to 1 within the tolerance. *)
Lemma scores_sum_to_one_witness :
  graph_cycle ≠ [] ∧ rows_finite graph_cycle ∧
  (∀ x, x ∈ ({["A"; "B"]} : gset string) → x ∈ collectNodes graph_cycle) ∧
  (0 ≤ decayFactor DEFAULT_CONFIG ∧ decayFactor DEFAULT_CONFIG ≤ 1) ∧
  (∃ r, compute DEFAULT_CONFIG graph_cycle {["A"; "B"]} = Ok r ∧
        converged r = true ∧
        Qcabs (sum_values (scores r) - 1) < Q2Qc (1 # 1000000)) ∧
  (∃ r, Float64.compute 51 Float64.DEFAULT_CONFIG Float64.graph_cycle {["A"; "B"]} = Ok r ∧
        Float64.converged r = true ∧
        (abs (Float64.sum_values (Float64.scores r) - 1) <? 0.000001) = true)%float.
Proof.
  split; [done|].
  assert (rows_finite graph_cycle) as Hrows
    by (repeat (apply Forall_cons; split; [by vm_compute|]); apply Forall_nil_2).
  assert (∀ x, x ∈ ({["A"; "B"]} : gset string) → x ∈ collectNodes graph_cycle) as Hin.
  { intros x [->%elem_of_singleton| ->%elem_of_singleton]%elem_of_union;
      [by left|right; by left]. }
  assert (0 ≤ decayFactor DEFAULT_CONFIG ∧ decayFactor DEFAULT_CONFIG ≤ 1) as Hdecay
    by (split; by vm_compute).
  split; [exact Hrows|]. split; [exact Hin|]. split; [exact Hdecay|]. split.
  - eexists. split; [vm_compute; reflexivity|]. split; [reflexivity|].
    eapply (scores_sum_to_one DEFAULT_CONFIG graph_cycle {["A"; "B"]});
      [done|exact Hrows|exact Hin|exact Hdecay|vm_compute; reflexivity|reflexivity].
  - eexists. split; [vm_compute; reflexivity|]. done.
Defined.

(** C1, as it was stated, fails in three ways.
    - A pre-trusted address that is no node: on [A -> B] with [Z]
      pre-trusted, [p] is the zero vector, the first pass changes nothing,
      the solver reports convergence after one iteration and the scores
      sum to 0.
    - A row sum that overflows, on the doubles: with two weights [2^1023]
      out of [A] the row of [A] becomes zeros, what [A] holds is lost in
      every pass, and the run converges after 15 iterations on three
      scores of 0.115..., which sum to 0.346....
    - A decay factor far from a blending weight, on the doubles: with
      [a = 1e17] and a threshold of 10 on the two-node cycle, [1 - a]
      rounds to [-a], the first pass cancels to the zero vector, and the
      run converges after one iteration on scores that sum to 0. *)
Lemma scores_sum_counterexample :
  (∃ r, compute DEFAULT_CONFIG graph_A_B {["Z"%string]} = Ok r ∧
        graph_A_B ≠ [] ∧ converged r = true ∧ iterations r = 1%nat ∧
        sum_values (scores r) = 0 ∧
        ¬ Qcabs (sum_values (scores r) - 1) < Q2Qc (1 # 1000000)) ∧
  (∃ r, Float64.compute 51 Float64.DEFAULT_CONFIG Float64.graph_overflow ∅ = Ok r ∧
        Float64.converged r = true ∧ Float64.iterations r = 15 ∧
        Float64.sum_values (Float64.scores r) = 0.34628428008187356 ∧
        (abs (Float64.sum_values (Float64.scores r) - 1) <? 0.000001) = false)%float ∧
  (∃ r, Float64.compute 51
          {| Float64.maxIterations := 50; Float64.convergenceThreshold := 10;
             Float64.preTrustedWeight := 0.1; Float64.decayFactor := 1e17 |}
          Float64.graph_cycle ∅ = Ok r ∧
        Float64.converged r = true ∧ Float64.iterations r = 1 ∧
        Float64.sum_values (Float64.scores r) = 0 ∧
        (abs (Float64.sum_values (Float64.scores r) - 1) <? 0.000001) = false)%float.
Proof.
  split; [|split].
  - eexists. split; [vm_compute; reflexivity|].
    split; [done|]. split; [done|]. split; [done|].
    assert (∀ m, m = 0 → ¬ Qcabs (m - 1) < Q2Qc (1 # 1000000)) as Hfar
      by (intros m ->; by vm_compute).
    assert (sum_values (<["B"%string := 0]> (<["A"%string := 0]> ∅)) = 0) as Hzero.
    { rewrite !sum_values_insert, sum_values_empty by done. ring. }
    split; [|apply Hfar]; cbn [scores]; rewrite <- Hzero at 1;
      f_equal; apply map_eq; intros x; by vm_compute.
  - eexists. split; [vm_compute; reflexivity|]. done.
  - eexists. split; [vm_compute; reflexivity|]. done.
Qed.



(* ================================================================= *)
(** ** [scoreFor] *)

(** C5.  [scoreFor] misses nodes that [compute] has scored: it looks up
    [address.toLowerCase()], and [compute] keys the scores by the node
    identifiers as given.
    - On the graph [A -> B] of the unit tests, with the default
      configuration, the node ["A"] has a score that is not 0, [topN]
      lists ["A"] with that score, and [scoreFor(result, "A")] returns 0,
      the answer its doc comment keeps for an address that is not in the
      graph.
    - On the spec's scenario [A -> D], [B -> D], [C -> D], [D -> A (1)],
      [D] is stored with a higher score than [A], and [scoreFor] returns
      0 for both. *)
Theorem scoreFor_misses_scored_node :
  (∃ r v, compute DEFAULT_CONFIG graph_A_B ∅ = Ok r ∧
          scores r !! "A"%string = Some v ∧ v ≠ 0 ∧
          ("A"%string, v) ∈ topN r 2 ∧
          scoreFor r "A" = 0 ∧ scoreFor r "A" ≠ v) ∧
  (∃ r vA vD, compute DEFAULT_CONFIG graph_star ∅ = Ok r ∧
              scores r !! "A"%string = Some vA ∧ scores r !! "D"%string = Some vD ∧
              vA < vD ∧
              scoreFor r "A" = 0 ∧ scoreFor r "D" = 0 ∧ ¬ scoreFor r "A" < scoreFor r "D").
Proof.
  assert (∀ v : Qc, this v ≠ this 0 → v ≠ 0) as Hne by (intros v Hv ->; done).
  split.
  - eexists. eexists. split; [vm_compute; reflexivity|].
    split; [vm_compute; reflexivity|].
    split; [by apply Hne|].
    split; [|split; [by vm_compute|intros Heq; by apply (f_equal this) in Heq]].
    apply list_elem_of_lookup. exists 1%nat. by vm_compute.
  - eexists. eexists. eexists. split; [vm_compute; reflexivity|].
    split; [vm_compute; reflexivity|]. split; [vm_compute; reflexivity|].
    split; [by vm_compute|]. split; [by vm_compute|]. split; [by vm_compute|].
    by vm_compute.
Qed.

(* ================================================================= *)
(** ** The shortest-path query *)

Lemma first_some_Some {A B} (f : A → option B) (l : list A) (y : B) :
  first_some f l = Some y → ∃ x, x ∈ l ∧ f x = Some y.
Proof.
  induction l as [|x l IH]; cbn; [done|].
  destruct (f x) as [y'|] eqn:Hx.
  - intros [= ->]. exists x. split; [left|done].
  - intros (x' & Hin & Hx')%IH. exists x'. split; [by right|done].
Qed.

Lemma first_some_None {A B} (f : A → option B) (l : list A) :
  first_some f l = None ↔ ∀ x, x ∈ l → f x = None.
Proof.
  induction l as [|x l IH]; cbn.
  - split; [|done]. by intros _ x ?%elem_of_nil.
  - destruct (f x) as [y|] eqn:Hx.
    + split; [done|]. intros Hall. rewrite Hall in Hx by left. done.
    + rewrite IH. split.
      * intros Hall x' [->|?]%elem_of_cons; auto.
      * intros Hall x' Hin. apply Hall. by right.
Qed.

Lemma walk_S (G : list TrustEdge) (k : nat) (a b : string) :
  walk G (S k) a b
  = first_some (λ e, if decide (from e = a) then (e ::.) <$> walk G k (to e) b else None) G.
Proof. done. Qed.

(** What [walk] finds is a path with that many relationships. *)
Lemma walk_sound (G : list TrustEdge) (k : nat) (a b : string) (p : list TrustEdge) :
  walk G (S k) a b = Some p → trustPath G a b p ∧ length p = S k.
Proof.
  revert a p. induction k as [|k IH]; intros a p Hwalk;
    rewrite walk_S in Hwalk;
    apply first_some_Some in Hwalk as (e & He & Hstep);
    destruct (decide (from e = a)) as [<-|]; try done.
  - cbn in Hstep. destruct (decide (to e = b)) as [<-|]; [|done].
    injection Hstep as <-. split; [by constructor|done].
  - destruct (walk G (S k) (to e) b) as [p'|] eqn:Hrest; [|done].
    injection Hstep as <-. apply IH in Hrest as [Hpath Hlen].
    split; [by constructor|]. cbn. by rewrite Hlen.
Qed.

(** A path is found by [walk] at its length. *)
Lemma walk_complete (G : list TrustEdge) (a b : string) (p : list TrustEdge) :
  trustPath G a b p → is_Some (walk G (length p) a b).
Proof.
  induction 1 as [e He|e b p He Hpath IH]; cbn [length]; rewrite walk_S.
  - apply not_eq_None_Some. rewrite first_some_None. intros Hall.
    specialize (Hall e He). rewrite decide_True in Hall by done.
    cbn in Hall. by rewrite decide_True in Hall.
  - apply not_eq_None_Some. rewrite first_some_None. intros Hall.
    specialize (Hall e He). rewrite decide_True in Hall by done.
    destruct IH as [p' Hp']. by rewrite Hp' in Hall.
Qed.

(** The query's search returns a path from [a] to [b] whose length lies
    in the range searched, and no shorter length of the range has a path. *)
Lemma shortest_walk_sound (G : list TrustEdge) (a b : string) (k budget : nat)
    (p : list TrustEdge) :
  (1 ≤ k)%nat → shortest_walk G a b k budget = Some p →
  trustPath G a b p ∧ (k ≤ length p < k + budget)%nat ∧
  ∀ j, (k ≤ j < length p)%nat → walk G j a b = None.
Proof.
  revert k. induction budget as [|budget IH]; intros k Hk Hfound; [done|].
  cbn in Hfound. destruct (walk G k a b) as [p'|] eqn:Hwalk.
  - injection Hfound as ->. destruct k as [|k]; [lia|].
    apply walk_sound in Hwalk as [Hpath Hlen].
    split; [done|]. split; [lia|]. intros j Hj. lia.
  - apply IH in Hfound as (Hpath & Hlen & Hmin); [|lia].
    split; [done|]. split; [lia|].
    intros j Hj. destruct (decide (j = k)) as [->|]; [done|]. apply Hmin. lia.
Qed.

(** Without a path of a length in the range, the search finds nothing. *)
Lemma shortest_walk_None (G : list TrustEdge) (a b : string) (k budget : nat) :
  (1 ≤ k)%nat →
  (∀ p, trustPath G a b p → ¬ (k ≤ length p < k + budget)%nat) →
  shortest_walk G a b k budget = None.
Proof.
  intros Hk Hnone.
  destruct (shortest_walk G a b k budget) as [p|] eqn:Hfound; [|done].
  apply shortest_walk_sound in Hfound as (Hpath & Hlen & _); [|done].
  by destruct (Hnone p Hpath).
Qed.

(** With a path of a length in the range, the search finds one. *)
Lemma shortest_walk_complete (G : list TrustEdge) (a b : string) (k budget : nat)
    (p : list TrustEdge) :
  trustPath G a b p → (k ≤ length p < k + budget)%nat →
  is_Some (shortest_walk G a b k budget).
Proof.
  intros Hpath. revert k. induction budget as [|budget IH]; intros k Hlen; [lia|].
  cbn. destruct (walk G k a b) as [p'|] eqn:Hwalk; [done|].
  apply IH. destruct (decide (k = length p)) as [->|]; [|lia].
  apply walk_complete in Hpath as [p' Hp']. congruence.
Qed.

(** A path leaves [a], and its relationships follow one another. *)
Lemma trustPath_rebuild (G : list TrustEdge) (a b : string) (p : list TrustEdge) :
  trustPath G a b p →
  imap (λ i e, {| from := default ""%string ((a :: (to <$> p)) !! i);
                  to := default ""%string ((a :: (to <$> p)) !! (i + 1)%nat);
                  weight := ed_weight e;
                  source := ed_source e;
                  timestamp := ed_timestamp e |})
       ((λ e, {| ed_weight := weight e; ed_source := source e;
                 ed_timestamp := timestamp e |}) <$> p)
  = p.
Proof.
  induction 1 as [e He|e b p He Hpath IH]; cbn.
  - by destruct e.
  - f_equal; [by destruct e|]. etrans; [|exact IH]. by apply imap_ext.
Qed.

(* ================================================================= *)
(** ** The path finder *)

Lemma trustPath_nonempty (G : list TrustEdge) (a b : string) (p : list TrustEdge) :
  trustPath G a b p → (1 ≤ length p)%nat.
Proof. destruct 1; cbn; lia. Qed.

(** The first relationship of a path leaves its start. *)
Lemma trustPath_head (G : list TrustEdge) (a b : string) (p : list TrustEdge) :
  trustPath G a b p → ∃ e, e ∈ G ∧ from e = a.
Proof. destruct 1 as [e He|e b p He _]; by exists e. Qed.

(** A path of one relationship is a stored edge from start to end. *)
Lemma trustPath_direct (G : list TrustEdge) (a b : string) (p : list TrustEdge) :
  trustPath G a b p → length p = 1%nat → ∃ e, e ∈ G ∧ from e = a ∧ to e = b.
Proof.
  destruct 1 as [e He|e b p He Hp]; intros Hlen; [by exists e|].
  apply trustPath_nonempty in Hp. cbn in Hlen. lia.
Qed.

(** [findTrustPath] on a connected service: one session, one query, and
    the stored path the search finds, with the mean of its weights. *)
Lemma findTrustPath_connected (graph : GraphService) (G : list TrustEdge)
    (from_address to_address : string) (maxHops : nat) :
  driver graph = Some {| stored := G; failure := None |} →
  let a := toLowerCase from_address in
  let b := toLowerCase to_address in
  let graph' := {| driver := driver graph;
                   journal := journal graph
                              ++ [SessionOpened; QueryRun (ShortestPathQuery a b maxHops);
                                  SessionClosed] |} in
  findTrustPath graph from_address to_address maxHops
  = (match shortest_walk G a b 1 maxHops with
     | Some p => Ok (Some {| nodes := a :: (to <$> p);
                             edges := p;
                             totalWeight := mean (weight <$> p);
                             hops := length p |})
     | None => Ok None
     end, graph').
Proof.
  intros Hdriver a b graph'. subst graph'. unfold findTrustPath.
  rewrite Hdriver. cbn [failure stored run_query].
  fold a b. destruct (shortest_walk G a b 1 maxHops) as [p|] eqn:Hfound; [|done].
  apply shortest_walk_sound in Hfound as (Hpath & Hlen & _); [|lia].
  cbn [nodeAddresses edgeData]. rewrite (trustPath_rebuild G a b p Hpath).
  rewrite checked_div_Ok by (apply Qc_of_nat_nonzero; lia).
  rewrite foldl_plus_sumQ, Qcplus_0_l. unfold mean. by rewrite length_fmap.
Qed.

(** C6, as amended.  [findPath(from, to, maxHops)]:
    - when [from] and [to] are equal up to case, the answer has no path,
      and the service is left as it was: no session was opened and no
      query was run (this holds for a service that is not connected too);
    - on a connected service whose server answers, with a stored graph
      that has no directed path of at most [maxHops] relationships from
      [from] to [to] (as lower-cased for the lookup), the answer is a
      normal return with [path = null];
    - in particular when every directed path from [from] to [to] has at
      least [d] relationships and [maxHops < d];
    - for two valid addresses that differ beyond case, a service that is
      not connected throws [Not connected] and is left as it was, and a
      service whose server rejects the query throws the server's error:
      there is no answer with [path = null] then, whatever is stored. *)
Theorem findPath_null (graph : GraphService) (from_address to_address : string)
    (maxHops : nat) :
  let asked := isValidAddress from_address = true ∧ isValidAddress to_address = true ∧
               toLowerCase from_address ≠ toLowerCase to_address in
  (toLowerCase from_address = toLowerCase to_address →
   ∃ why, findPath graph from_address to_address maxHops
          = (Ok {| path := None; explanation := why |}, graph)) ∧
  (∀ G, driver graph = Some {| stored := G; failure := None |} →
        (∀ p, trustPath G (toLowerCase from_address) (toLowerCase to_address) p →
              (maxHops < length p)%nat) →
        ∃ why graph', findPath graph from_address to_address maxHops
                      = (Ok {| path := None; explanation := why |}, graph')) ∧
  (∀ G d, driver graph = Some {| stored := G; failure := None |} →
          (∀ p, trustPath G (toLowerCase from_address) (toLowerCase to_address) p →
                (d ≤ length p)%nat) →
          (maxHops < d)%nat →
          ∃ why graph', findPath graph from_address to_address maxHops
                        = (Ok {| path := None; explanation := why |}, graph')) ∧
  (asked → driver graph = None →
   findPath graph from_address to_address maxHops
   = (Thrown "[GraphService] Not connected. Call connect() first.", graph)) ∧
  (∀ G error, asked → driver graph = Some {| stored := G; failure := Some error |} →
     ∃ graph', findPath graph from_address to_address maxHops = (Thrown error, graph')).
Proof.
  intros asked.
  assert (∀ G, driver graph = Some {| stored := G; failure := None |} →
            (∀ p, trustPath G (toLowerCase from_address) (toLowerCase to_address) p →
                  (maxHops < length p)%nat) →
            ∃ why graph', findPath graph from_address to_address maxHops
                          = (Ok {| path := None; explanation := why |}, graph')) as Hfar.
  { intros G Hdriver Hnone. unfold findPath.
    destruct (negb (isValidAddress from_address) || negb (isValidAddress to_address));
      [by eexists _, _|].
    case_decide; [by eexists _, _|].
    rewrite (findTrustPath_connected graph G) by done.
    rewrite shortest_walk_None; [by eexists _, _|lia|].
    intros p Hp%Hnone. lia. }
  split; [|split; [exact Hfar|split; [|split]]].
  - intros Hsame. unfold findPath.
    destruct (negb (isValidAddress from_address) || negb (isValidAddress to_address));
      [by eexists|].
    rewrite decide_True by done. by eexists.
  - intros G d Hdriver Hdist Hd. apply (Hfar G Hdriver).
    intros p Hp%Hdist. lia.
  - intros (Hfrom & Hto & Hdiffer) Hdriver. unfold findPath, findTrustPath.
    rewrite Hfrom, Hto, decide_False, Hdriver by done. done.
  - intros G error (Hfrom & Hto & Hdiffer) Hdriver. unfold findPath, findTrustPath.
    rewrite Hfrom, Hto, decide_False, Hdriver by done. by eexists.
Qed.

(** The stored chain [a -> b -> c] has no relationship that leaves [c]. *)
Lemma stored_chain_from_c (b : string) (p : list TrustEdge) :
  ¬ trustPath stored_chain (toLowerCase (address_of "c")) b p.
Proof.
  intros (e & He & Hfrom)%trustPath_head.
  repeat (apply elem_of_cons in He as [->|He]; [by vm_compute in Hfrom|]).
  by apply elem_of_nil in He.
Qed.

(** C6, as amended, at work on the stored chain [a -> b -> c]: the same
    address in two spellings is turned away by a service that is not even
    connected; [c -> a] has no directed path; [a -> c], two hops away, is
    not found within one hop; and a service that is not connected throws
    when asked for [c -> a]. *)
Lemma findPath_null_witness :
  toLowerCase (address_of "A") = toLowerCase (address_of "a") ∧
  (∃ why, findPath not_connected (address_of "A") (address_of "a") 5
          = (Ok {| path := None; explanation := why |}, not_connected)) ∧
  (∃ why graph', findPath (connected stored_chain) (address_of "c") (address_of "a") 5
                 = (Ok {| path := None; explanation := why |}, graph')) ∧
  (∃ why graph', findPath (connected stored_chain) (address_of "a") (address_of "c") 1
                 = (Ok {| path := None; explanation := why |}, graph')) ∧
  findPath not_connected (address_of "c") (address_of "a") 5
  = (Thrown "[GraphService] Not connected. Call connect() first.", not_connected).
Proof.
  assert (toLowerCase (address_of "A") = toLowerCase (address_of "a")) as Hsame by done.
  split; [exact Hsame|]. split; [|split; [|split]].
  - exact (proj1 (findPath_null not_connected (address_of "A") (address_of "a") 5) Hsame).
  - apply (proj1 (proj2 (findPath_null (connected stored_chain)
                           (address_of "c") (address_of "a") 5)) stored_chain eq_refl).
    intros p Hp. by apply stored_chain_from_c in Hp.
  - apply (proj1 (proj2 (proj2 (findPath_null (connected stored_chain)
                                  (address_of "a") (address_of "c") 1)))
             stored_chain 2%nat eq_refl); [|lia].
    intros p Hp. pose proof (trustPath_nonempty _ _ _ _ Hp) as Hlen.
    destruct (decide (length p = 1%nat)) as [Hone|]; [exfalso|lia].
    destruct (trustPath_direct _ _ _ _ Hp Hone) as (e & He & Hfrom & Hto).
    repeat (apply elem_of_cons in He as [->|He];
            [by (vm_compute in Hfrom; vm_compute in Hto)|]).
    by apply elem_of_nil in He.
  - apply (proj1 (proj2 (proj2 (proj2 (findPath_null not_connected
                                         (address_of "c") (address_of "a") 5)))));
      [|done].
    split; [done|]. split; [done|]. by vm_compute.
Defined.

(** C6, as it was stated, fails when the service cannot ask the database.
    The stored chain [a -> b -> c] has no directed path from [c] to [a],
    of any length.  Asked for [c -> a], a service that was never connected
    (the agent goes on in limited mode when [initialize] fails) throws
    [Not connected], and a service whose server is down throws the
    server's error, after opening and closing its session: neither
    returns [path = null]. *)
Lemma findPath_error_counterexample :
  let c := address_of "c" in
  let a := address_of "a" in
  let down := unreachable stored_chain "ServiceUnavailable" in
  isValidAddress c = true ∧ isValidAddress a = true ∧ toLowerCase c ≠ toLowerCase a ∧
  (∀ p, ¬ trustPath stored_chain (toLowerCase c) (toLowerCase a) p) ∧
  findPath not_connected c a 5
  = (Thrown "[GraphService] Not connected. Call connect() first.", not_connected) ∧
  findPath down c a 5
  = (Thrown "ServiceUnavailable",
     {| driver := driver down;
        journal := [SessionOpened;
                    QueryRun (ShortestPathQuery (toLowerCase c) (toLowerCase a) 5);
                    SessionClosed] |}) ∧
  (∀ why graph', findPath not_connected c a 5
                 ≠ (Ok {| path := None; explanation := why |}, graph')) ∧
  (∀ why graph', findPath down c a 5
                 ≠ (Ok {| path := None; explanation := why |}, graph')).
Proof.
  intros c a down. split; [done|]. split; [done|]. split; [by vm_compute|].
  split; [intros p; apply stored_chain_from_c|].
  split; [by vm_compute|]. split; [by vm_compute|].
  split; intros why graph'; by vm_compute.
Qed.




(* ================================================================= *)
(** * Further properties *)

Lemma Qc_eq_this (a b : Qc) : a = b → Qeq (this a) (this b).
Proof. by intros ->. Qed.

(** Linear arithmetic on the rationals of the embedding, through their
    values. *)
Ltac qc_lra :=
  lazymatch goal with |- _ ≠ _ => intros ? | |- _ => idtac end;
  repeat match goal with H : @eq Qc _ _ |- _ => apply Qc_eq_this in H end;
  try apply Qc_is_canon;
  unfold Qcle, Qclt, Qcminus, Qcopp, Qcplus, Qcmult, Q2Qc, Qc_of_Z in *;
  cbn [this] in *; rewrite ?Qred_correct in *;
  repeat match goal with H : _ |- _ => rewrite !Qred_correct in H end;
  unfold inject_Z in *; lra.

(* ================================================================= *)
(** ** Rounding *)

Lemma Math_round_mono (x y : Qc) : x ≤ y → Math_round x ≤ Math_round y.
Proof.
  intros Hxy. unfold Math_round. apply (proj1 (Z2Qc_inj_le _ _)), Qfloor_resp_le.
  qc_lra.
Qed.

Lemma Math_round_integer (z : Z) : Math_round (Qc_of_Z z) = Qc_of_Z z.
Proof.
  unfold Math_round. f_equal.
  set (x := (this (Qc_of_Z z) + this (Q2Qc (1 # 2)))%Q).
  assert (inject_Z z <= x)%Q as Hlo by (subst x; qc_lra).
  assert (x < inject_Z (z + 1))%Q as Hhi.
  { subst x. rewrite inject_Z_plus. qc_lra. }
  pose proof (Qfloor_le x) as Hfl. pose proof (Qlt_floor x) as Hfu.
  assert (Qfloor x < z + 1)%Z by (rewrite Zlt_Qlt; by eapply Qle_lt_trans).
  assert (z < Qfloor x + 1)%Z by (rewrite Zlt_Qlt; by eapply Qle_lt_trans).
  clearbody x. lia.
Qed.

(** Rounding keeps a value between two integers between them. *)
Lemma Math_round_between (lo hi : Z) (x : Qc) :
  Qc_of_Z lo ≤ x → x ≤ Qc_of_Z hi →
  ∃ z, Math_round x = Qc_of_Z z ∧ (lo ≤ z ≤ hi)%Z.
Proof.
  intros Hlo Hhi. exists (Qfloor (x + Q2Qc (1 # 2))). split; [done|].
  apply Math_round_mono in Hlo, Hhi. rewrite Math_round_integer in Hlo, Hhi.
  unfold Math_round in Hlo, Hhi.
  apply (proj2 (Z2Qc_inj_le _ _)) in Hlo. by apply (proj2 (Z2Qc_inj_le _ _)) in Hhi.
Qed.

(** A quotient by a positive number, bounded through its products. *)
Lemma Qcdiv_between (lo hi n d : Qc) :
  0 < d → lo * d ≤ n → n ≤ hi * d → lo ≤ n / d ∧ n / d ≤ hi.
Proof.
  intros Hd Hlo Hhi.
  assert (n / d * d = n) as Hn by (field; intros ->; by apply Qclt_not_eq in Hd).
  split; apply (Qcmult_lt_0_le_reg_r _ _ d); try done; by rewrite Hn.
Qed.

Lemma Math_max_spec (a b : Qc) : a ≤ Math_max a b ∧ b ≤ Math_max a b
                                  ∧ (Math_max a b = a ∨ Math_max a b = b).
Proof.
  unfold Math_max. case_decide as H; [|apply Qcnot_lt_le in H];
    (split; [|split]); auto; try apply Qcle_refl; by apply Qclt_le_weak.
Qed.

(** The clamp of [normalizeScore] lies in [[min, max]] and is monotone. *)
Lemma clamp_between (raw min max : Qc) :
  min ≤ max → min ≤ Math_max min (Math_min max raw) ∧ Math_max min (Math_min max raw) ≤ max.
Proof.
  intros Hmm. unfold Math_max, Math_min. repeat case_decide; split; qc_lra.
Qed.

Lemma clamp_mono (raw raw' min max : Qc) :
  raw ≤ raw' →
  Math_max min (Math_min max raw) ≤ Math_max min (Math_min max raw').
Proof.
  intros Hle. unfold Math_max, Math_min. repeat case_decide; qc_lra.
Qed.

Lemma clamp_low (raw min max : Qc) :
  min ≤ max → raw ≤ min → Math_max min (Math_min max raw) = min.
Proof.
  intros Hmm Hle. unfold Math_max, Math_min.
  repeat case_decide; try done; apply Qcle_antisym; qc_lra.
Qed.

Lemma clamp_high (raw min max : Qc) :
  min ≤ max → max ≤ raw → Math_max min (Math_min max raw) = max.
Proof.
  intros Hmm Hle. unfold Math_max, Math_min.
  repeat case_decide; try done; apply Qcle_antisym; qc_lra.
Qed.

(* ================================================================= *)
(** ** [normalizeScore] *)

Lemma Math_round_0 : Math_round 0 = 0.
Proof. by rewrite <-Z2Qc_inj_0, Math_round_integer. Qed.

Lemma ratio_zero (x d c : Qc) : (x - x) / d * c = 0.
Proof. unfold Qcdiv. ring. Qed.

Lemma ratio_one (d c : Qc) : d ≠ 0 → d / d * c = c.
Proof. intros. by field. Qed.

Lemma normalizeScore_ratio (raw min max : Qc) :
  min < max →
  let ratio := (Math_max min (Math_min max raw) - min) / (max - min) in
  normalizeScore raw min max = Ok (Math_round (ratio * Qc_of_Z 100)) ∧ 0 ≤ ratio ∧ ratio ≤ 1.
Proof.
  intros Hmm ratio. unfold normalizeScore.
  rewrite checked_div_Ok by qc_lra. split; [done|].
  destruct (clamp_between raw min max) as [H1 H2]; [by apply Qclt_le_weak|].
  apply Qcdiv_between; qc_lra.
Qed.

Lemma normalizeScore_integer (raw min max : Qc) :
  min < max →
  ∃ z : Z, normalizeScore raw min max = Ok (Qc_of_Z z) ∧ (0 ≤ z ≤ 100)%Z.
Proof.
  intros Hmm. destruct (normalizeScore_ratio raw min max Hmm) as (-> & H0 & H1).
  set (ratio := (Math_max min (Math_min max raw) - min) / (max - min)) in *.
  clearbody ratio.
  destruct (Math_round_between 0 100 (ratio * Qc_of_Z 100)) as (z & -> & Hz);
    [qc_lra..|]. by exists z.
Qed.

Lemma normalizeScore_ends (raw min max : Qc) :
  min < max →
  (raw ≤ min → normalizeScore raw min max = Ok 0) ∧
  (max ≤ raw → normalizeScore raw min max = Ok (Qc_of_Z 100)).
Proof.
  intros Hmm. destruct (normalizeScore_ratio raw min max Hmm) as (-> & _).
  assert (max - min ≠ 0) as Hd by qc_lra.
  split; intros Hraw.
  - rewrite clamp_low by (first [done | by apply Qclt_le_weak]).
    by rewrite ratio_zero, Math_round_0.
  - rewrite clamp_high by (first [done | by apply Qclt_le_weak]).
    rewrite ratio_one by done. by rewrite Math_round_integer.
Qed.

(** X1.  for [min < max], [normalizeScore] returns an integer between 0
    and 100, whatever the raw value: 0 for a raw value at or below [min],
    100 for one at or above [max]. *)
Theorem normalizeScore_range (raw min max : Qc) :
  min < max →
  (∃ z : Z, normalizeScore raw min max = Ok (Qc_of_Z z) ∧ (0 ≤ z ≤ 100)%Z) ∧
  (raw ≤ min → normalizeScore raw min max = Ok 0) ∧
  (max ≤ raw → normalizeScore raw min max = Ok (Qc_of_Z 100)).
Proof.
  intros Hmm. split; [by apply normalizeScore_integer|].
  by apply normalizeScore_ends.
Qed.

Lemma normalizeScore_range_witness :
  (∃ z : Z, normalizeScore (Q2Qc (1 # 3)) 0 1 = Ok (Qc_of_Z z) ∧ (0 ≤ z ≤ 100)%Z) ∧
  normalizeScore (- (1)) 0 1 = Ok 0 ∧
  normalizeScore (1 + 1) 0 1 = Ok (Qc_of_Z 100).
Proof.
  destruct (normalizeScore_range (Q2Qc (1 # 3)) 0 1) as [H _]; [reflexivity|].
  destruct (normalizeScore_range (- (1)) 0 1) as (_ & Hlow & _); [reflexivity|].
  destruct (normalizeScore_range (1 + 1) 0 1) as (_ & _ & Hhigh); [reflexivity|].
  split; [exact H|]. split; [apply Hlow|apply Hhigh]; by vm_compute.
Defined.

(** X2.  for [min < max], [normalizeScore] is monotone in the raw value. *)
Theorem normalizeScore_monotone (raw raw' min max s s' : Qc) :
  min < max → raw ≤ raw' →
  normalizeScore raw min max = Ok s → normalizeScore raw' min max = Ok s' →
  s ≤ s'.
Proof.
  intros Hmm Hle.
  destruct (normalizeScore_ratio raw min max Hmm) as (-> & _).
  destruct (normalizeScore_ratio raw' min max Hmm) as (-> & _).
  intros [= <-] [= <-]. apply Math_round_mono.
  pose proof (clamp_mono raw raw' min max Hle) as Hclamp.
  set (c := Math_max min (Math_min max raw)) in *.
  set (c' := Math_max min (Math_min max raw')) in *. clearbody c c'.
  assert (0 < max - min) as Hd by qc_lra.
  assert (0 ≤ / (max - min)) as Hinv by (apply Qclt_le_weak; by apply Qcinv_pos).
  unfold Qcdiv. apply Qcmult_le_compat_r; [|qc_lra].
  apply Qcmult_le_compat_r; [qc_lra|done].
Qed.

Lemma normalizeScore_monotone_witness :
  normalizeScore (Q2Qc (1 # 3)) 0 1 = Ok (Qc_of_Z 33) ∧
  normalizeScore (Q2Qc (2 # 3)) 0 1 = Ok (Qc_of_Z 67) ∧
  Qc_of_Z 33 ≤ Qc_of_Z 67.
Proof.
  split; [reflexivity|]. split; [reflexivity|].
  apply (normalizeScore_monotone (Q2Qc (1 # 3)) (Q2Qc (2 # 3)) 0 1);
    try reflexivity; by vm_compute.
Defined.

(** X3.  with [min = max] the division of [normalizeScore] is [0 / 0] and
    no number is returned; with [max < min] the result is 0 whatever the
    raw value. *)
Theorem normalizeScore_degenerate (raw min max : Qc) :
  (min = max → normalizeScore raw min max = NonFinite) ∧
  (max < min → normalizeScore raw min max = Ok 0).
Proof.
  split.
  - intros ->. unfold normalizeScore, checked_div.
    destruct (decide (max - max = 0)) as [|Hne]; [done|]. destruct Hne. ring.
  - intros Hlt. unfold normalizeScore.
    assert (Math_max min (Math_min max raw) = min) as ->.
    { unfold Math_max, Math_min. repeat case_decide; try done; qc_lra. }
    rewrite checked_div_Ok by qc_lra. cbn.
    by rewrite ratio_zero, Math_round_0.
Qed.

(* ================================================================= *)
(** ** [weightedAverage] *)

Lemma weightedAverage_sums (items : list TrustFactor) :
  weightedAverage items
  = if decide (sumQ (factor_weight <$> items) = 0) then Ok 0
    else Ok (Math_round (sumQ ((λ item, factor_score item * factor_weight item) <$> items)
                         / sumQ (factor_weight <$> items))).
Proof.
  unfold weightedAverage.
  rewrite (foldl_plus_sumQ factor_weight), Qcplus_0_l.
  rewrite (foldl_plus_sumQ (λ item, factor_score item * factor_weight item)), Qcplus_0_l.
  case_decide; [done|]. by rewrite checked_div_Ok.
Qed.

(** A weighted sum lies between the bounds of its scores, times the
    total weight. *)
Lemma weighted_sum_between (lo hi : Qc) (items : list TrustFactor) :
  (∀ item, item ∈ items → 0 ≤ factor_weight item) →
  (∀ item, item ∈ items → lo ≤ factor_score item ∧ factor_score item ≤ hi) →
  lo * sumQ (factor_weight <$> items)
    ≤ sumQ ((λ item, factor_score item * factor_weight item) <$> items) ∧
  sumQ ((λ item, factor_score item * factor_weight item) <$> items)
    ≤ hi * sumQ (factor_weight <$> items).
Proof.
  induction items as [|item items IH]; intros Hw Hs.
  - cbn. split; qc_lra.
  - rewrite !fmap_cons, !sumQ_cons.
    destruct IH as [IHlo IHhi];
      [intros; apply Hw; by right|intros; apply Hs; by right|].
    destruct (Hs item) as [Hlo Hhi]; [by left|].
    pose proof (Hw item ltac:(by left)) as Hpos.
    assert (lo * factor_weight item ≤ factor_score item * factor_weight item)
      by (by apply Qcmult_le_compat_r).
    assert (factor_score item * factor_weight item ≤ hi * factor_weight item)
      by (by apply Qcmult_le_compat_r).
    rewrite !Qcmult_plus_distr_r. split; by apply Qcplus_le_compat.
Qed.

Lemma weightedAverage_between (items : list TrustFactor) (lo hi : Z) :
  (∀ item, item ∈ items → 0 ≤ factor_weight item) →
  sumQ (factor_weight <$> items) ≠ 0 →
  (∀ item, item ∈ items →
     Qc_of_Z lo ≤ factor_score item ∧ factor_score item ≤ Qc_of_Z hi) →
  ∃ z : Z, weightedAverage items = Ok (Qc_of_Z z) ∧ (lo ≤ z ≤ hi)%Z.
Proof.
  intros Hw Htotal Hs. rewrite weightedAverage_sums, decide_False by done.
  destruct (weighted_sum_between (Qc_of_Z lo) (Qc_of_Z hi) items Hw Hs) as [Hlo Hhi].
  assert (0 < sumQ (factor_weight <$> items)) as Hpos.
  { assert (0 ≤ sumQ (factor_weight <$> items)) as Hnn.
    { apply sumQ_nonneg. intros w (item & -> & Hin)%list_elem_of_fmap. by apply Hw. }
    apply Qcle_lt_or_eq in Hnn as [|]; [done|congruence]. }
  destruct (Qcdiv_between _ _ _ _ Hpos Hlo Hhi) as [Hlo' Hhi'].
  destruct (Math_round_between lo hi _ Hlo' Hhi') as (z & -> & Hz). by exists z.
Qed.

(** A sum of numbers that are not negative is at least each of them. *)
Lemma elem_of_le_sumQ (x : Qc) (l : list Qc) :
  (∀ y, y ∈ l → 0 ≤ y) → x ∈ l → x ≤ sumQ l.
Proof.
  intros Hnn Hx. induction l as [|y l IH]; [by apply elem_of_nil in Hx|].
  rewrite sumQ_cons.
  assert (0 ≤ sumQ l) as Hl by (apply sumQ_nonneg; intros; apply Hnn; by right).
  pose proof (Hnn y ltac:(by left)) as Hy.
  apply elem_of_cons in Hx as [->|Hx].
  - set (rest := sumQ l) in *. clearbody rest. qc_lra.
  - pose proof (IH ltac:(intros; apply Hnn; by right) Hx) as Hle.
    set (rest := sumQ l) in *. clearbody rest. qc_lra.
Qed.

(** X4.  For factors as their type documents them, with weights between
    0 and 1 and scores between 0 and 100, [weightedAverage] returns an
    integer, and never divides by zero: the integer is 0 when every
    weight is 0 (the empty list included), and otherwise lies within any
    integer bounds that hold for every score. *)
Theorem weightedAverage_bounds (items : list TrustFactor) (lo hi : Z) :
  (∀ item, item ∈ items → 0 ≤ factor_weight item ∧ factor_weight item ≤ 1) →
  (∀ item, item ∈ items →
     Qc_of_Z lo ≤ factor_score item ∧ factor_score item ≤ Qc_of_Z hi) →
  (0 ≤ lo)%Z → (hi ≤ 100)%Z →
  ∃ z : Z, weightedAverage items = Ok (Qc_of_Z z) ∧
           ((∀ item, item ∈ items → factor_weight item = 0) → z = 0%Z) ∧
           ((∃ item, item ∈ items ∧ 0 < factor_weight item) → (lo ≤ z ≤ hi)%Z).
Proof.
  intros Hw Hs _ _.
  assert (∀ w, w ∈ factor_weight <$> items → 0 ≤ w) as Hnn
    by (intros w (item & -> & Hin)%list_elem_of_fmap; by apply Hw).
  destruct (decide (sumQ (factor_weight <$> items) = 0)) as [Hzero|Hpos].
  - exists 0%Z. split; [by rewrite weightedAverage_sums, decide_True, Z2Qc_inj_0|].
    split; [done|]. intros (item & Hin & Hitem). exfalso.
    assert (factor_weight item ≤ sumQ (factor_weight <$> items)) as Hle
      by (apply elem_of_le_sumQ; [done|by apply list_elem_of_fmap_2]).
    rewrite Hzero in Hle. set (w := factor_weight item) in *. clearbody w. qc_lra.
  - destruct (weightedAverage_between items lo hi) as (z & Hz & Hbounds);
      [intros; by apply Hw|done|done|].
    exists z. split; [done|]. split; [|done].
    intros Hall. exfalso. apply Hpos.
    rewrite (sumQ_fmap_ext factor_weight (λ _, 0)) by done. apply sumQ_fmap_zero.
Qed.

Lemma weightedAverage_bounds_witness :
  weightedAverage factors_example = Ok (Qc_of_Z 62) ∧
  ∃ z : Z, weightedAverage factors_example = Ok (Qc_of_Z z) ∧ (0 ≤ z ≤ 100)%Z.
Proof.
  split; [reflexivity|].
  destruct (weightedAverage_bounds factors_example 0 100) as (z & Hz & _ & Hbounds);
    [| |lia|lia|].
  - intros item Hin. repeat (apply elem_of_cons in Hin as [->|Hin]);
      [split; by vm_compute..|]. by apply elem_of_nil in Hin.
  - intros item Hin. repeat (apply elem_of_cons in Hin as [->|Hin]);
      [split; by vm_compute..|]. by apply elem_of_nil in Hin.
  - exists z. split; [exact Hz|]. apply Hbounds.
    eexists. split; [by left|by vm_compute].
Defined.

(* ================================================================= *)
(** ** Texts *)

Lemma append_nil_l (t : string) : "" +:+ t = t.
Proof. done. Qed.

Lemma append_cons (c : ascii) (s t : string) : String c s +:+ t = String c (s +:+ t).
Proof. done. Qed.

Ltac string_simpl := rewrite ?append_cons, ?append_nil_l in *; cbn in *.

Lemma length_append (s t : string) :
  String.length (s +:+ t) = (String.length s + String.length t)%nat.
Proof. induction s; string_simpl; congruence. Qed.

Lemma append_assoc (s t u : string) : (s +:+ t) +:+ u = s +:+ (t +:+ u).
Proof. induction s; string_simpl; congruence. Qed.

Lemma append_nil_r (s : string) : s +:+ "" = s.
Proof. induction s; string_simpl; congruence. Qed.

Lemma substring_0_all (s : string) : String.substring 0 (String.length s) s = s.
Proof. induction s; string_simpl; congruence. Qed.

Lemma substring_0_append (s t : string) :
  String.substring 0 (String.length s) (s +:+ t) = s.
Proof. induction s; string_simpl; [by destruct t|congruence]. Qed.

Lemma substring_skip (s t : string) (m : nat) :
  String.substring (String.length s) m (s +:+ t) = String.substring 0 m t.
Proof. induction s; string_simpl; done. Qed.

(** A text splits at any position within it. *)
Lemma string_split (n : nat) (s : string) :
  (n ≤ String.length s)%nat →
  ∃ pre post, s = pre +:+ post ∧ String.length pre = n.
Proof.
  revert n. induction s as [|c s IH]; intros [|n] Hle; cbn in *; try lia.
  - by exists "", "".
  - by exists "", (String c s).
  - destruct (IH n) as (pre & post & -> & Hlen); [lia|].
    exists (String c pre), post. string_simpl. by rewrite Hlen.
Qed.

(* ================================================================= *)
(** ** Lower case and validity *)

Lemma lower_ascii_idem (c : ascii) : lower_ascii (lower_ascii c) = lower_ascii c.
Proof. by destruct c as [[] [] [] [] [] [] [] []]. Qed.

Lemma is_hex_digit_lower (c : ascii) : is_hex_digit (lower_ascii c) = is_hex_digit c.
Proof. by destruct c as [[] [] [] [] [] [] [] []]. Qed.

Lemma toLowerCase_idem (s : string) : toLowerCase (toLowerCase s) = toLowerCase s.
Proof. induction s; cbn; [done|]. by rewrite lower_ascii_idem, IHs. Qed.

Lemma length_toLowerCase (s : string) : String.length (toLowerCase s) = String.length s.
Proof. induction s; cbn; congruence. Qed.

Lemma all_hex_toLowerCase (s : string) : all_hex (toLowerCase s) = all_hex s.
Proof. induction s; cbn; [done|]. by rewrite is_hex_digit_lower, IHs. Qed.

Lemma isValidAddress_inv (a : string) :
  isValidAddress a = true ↔
  ∃ digits, a = String "0" (String "x" digits) ∧ String.length digits = 40%nat
            ∧ all_hex digits = true.
Proof.
  split.
  - destruct a as [|c0 [|c1 digits]]; cbn; try done.
    + by destruct c0 as [[] [] [] [] [] [] [] []].
    + destruct (decide (c0 = "0"%char)) as [->|];
        [|by destruct c0 as [[] [] [] [] [] [] [] []]].
      destruct (decide (c1 = "x"%char)) as [->|];
        [|by destruct c1 as [[] [] [] [] [] [] [] []]].
      intros [Hlen Hhex]%andb_prop. exists digits.
      by apply Nat.eqb_eq in Hlen.
  - intros (digits & -> & Hlen & Hhex). cbn. by rewrite Hlen, Hhex.
Qed.

Lemma isValidAddress_length (a : string) :
  isValidAddress a = true → String.length a = 42%nat.
Proof. intros (digits & -> & Hlen & _)%isValidAddress_inv. cbn. by rewrite Hlen. Qed.

Lemma isValidAddress_toLowerCase (a : string) :
  isValidAddress a = true → isValidAddress (toLowerCase a) = true.
Proof.
  intros (digits & -> & Hlen & Hhex)%isValidAddress_inv. apply isValidAddress_inv.
  exists (toLowerCase digits). by rewrite length_toLowerCase, all_hex_toLowerCase.
Qed.

(* ================================================================= *)
(** ** [extractAddress] *)

Lemma hex_run_inv (n : nat) (s : string) :
  hex_run n s = true ↔
  ∃ digits rest, s = digits +:+ rest ∧ String.length digits = n ∧ all_hex digits = true.
Proof.
  revert s. induction n as [|n IH]; intros s; cbn.
  - split; [intros _; by exists "", s|done].
  - destruct s as [|c s].
    + split; [done|]. intros ([|??] & rest & Heq & Hlen & _); string_simpl; done.
    + rewrite andb_true_iff, IH. split.
      * intros (Hc & digits & rest & -> & Hlen & Hhex).
        exists (String c digits), rest. string_simpl. by rewrite Hc, Hhex, Hlen.
      * intros ([|c' digits] & rest & Heq & Hlen & Hhex); string_simpl; [done|].
        injection Heq as -> ->. apply andb_prop in Hhex as [Hc Hhex].
        split; [done|]. exists digits, rest. split; [done|]. split; [lia|done].
Qed.

Lemma address_at_eq (s : string) :
  address_at s
  = match s with
    | String c0 (String c1 digits) =>
        if decide (c0 = "0"%char) then
          if decide (c1 = "x"%char) then hex_run 40 digits else false
        else false
    | _ => false
    end.
Proof.
  destruct s as [|c0 [|c1 digits]]; [done| |].
  - by destruct c0 as [[] [] [] [] [] [] [] []].
  - destruct (decide (c0 = "0"%char)) as [->|];
      [|by destruct c0 as [[] [] [] [] [] [] [] []]].
    destruct (decide (c1 = "x"%char)) as [->|]; [done|].
    by destruct c1 as [[] [] [] [] [] [] [] []].
Qed.

Lemma address_at_inv (s : string) :
  address_at s = true ↔ ∃ a rest, s = a +:+ rest ∧ isValidAddress a = true.
Proof.
  rewrite address_at_eq. split.
  - destruct s as [|c0 [|c1 s]]; try done.
    destruct (decide (c0 = "0"%char)) as [->|]; [|done].
    destruct (decide (c1 = "x"%char)) as [->|]; [|done].
    intros (digits & rest & -> & Hlen & Hhex)%hex_run_inv.
    exists (String "0" (String "x" digits)), rest. split; [done|].
    apply isValidAddress_inv. by exists digits.
  - intros (a & rest & -> & (digits & -> & Hlen & Hhex)%isValidAddress_inv).
    rewrite !append_cons, !decide_True by done. apply hex_run_inv. by exists digits, rest.
Qed.

Lemma address_at_substring (s : string) :
  address_at s = true →
  isValidAddress (String.substring 0 42 s) = true ∧
  ∃ post, s = String.substring 0 42 s +:+ post.
Proof.
  intros (a & rest & -> & Hvalid)%address_at_inv.
  pose proof (isValidAddress_length a Hvalid) as Hlen.
  rewrite <-Hlen, substring_0_append. split; [done|by exists rest].
Qed.

Lemma extractAddress_prefix (a rest : string) :
  isValidAddress a = true → extractAddress (a +:+ rest) = Some a.
Proof.
  intros Hvalid. pose proof (isValidAddress_length a Hvalid) as Hlen.
  assert (address_at (a +:+ rest) = true) as Hat by (apply address_at_inv; by exists a, rest).
  destruct a as [|c a]; [done|]. rewrite append_cons in *. cbn [extractAddress].
  rewrite Hat, <-append_cons, <-Hlen. by rewrite substring_0_append.
Qed.

Lemma extractAddress_first (text : string) :
  match extractAddress text with
  | Some a =>
      isValidAddress a = true ∧
      ∃ pre post,
        text = pre +:+ a +:+ post ∧
        ∀ pre' a' post',
          text = pre' +:+ a' +:+ post' → isValidAddress a' = true →
          (String.length pre ≤ String.length pre')%nat
  | None => ∀ pre a post, text = pre +:+ a +:+ post → isValidAddress a = false
  end.
Proof.
  induction text as [|c text IH].
  - cbn. intros [|??] [|??] post Heq; string_simpl; done.
  - cbn [extractAddress]. destruct (address_at (String c text)) eqn:Hat.
    + destruct (address_at_substring _ Hat) as [Hvalid [post Hpost]].
      split; [done|]. exists "", post. split; [done|]. intros; cbn; lia.
    + assert (∀ a' post', String c text = a' +:+ post' → isValidAddress a' = false)
        as Hhere.
      { intros a' post' Heq. destruct (isValidAddress a') eqn:Hvalid; [|done].
        rewrite <-Hat. symmetry. apply address_at_inv. by exists a', post'. }
      destruct (extractAddress text) as [a|].
      * destruct IH as (Hvalid & pre & post & -> & Hfirst). split; [done|].
        exists (String c pre), post. split; [done|].
        intros [|c' pre'] a' post' Heq Hvalid'; string_simpl.
        { by rewrite (Hhere a' post') in Hvalid'. }
        injection Heq as <- Heq. apply le_n_S. by eapply Hfirst.
      * intros [|c' pre'] a post Heq; string_simpl; [by eapply Hhere|].
        injection Heq as <- Heq. by eapply IH.
Qed.

(** X5.  [extractAddress] returns the first valid address of the text: what
    it returns is valid and occurs in the text, no valid address starts
    earlier, and it returns [null] only for a text that holds none. *)
Theorem extractAddress_first_match (text : string) :
  (∀ a, extractAddress text = Some a →
     isValidAddress a = true ∧
     ∃ pre post,
       text = pre +:+ a +:+ post ∧
       ∀ pre' a' post',
         text = pre' +:+ a' +:+ post' → isValidAddress a' = true →
         (String.length pre ≤ String.length pre')%nat) ∧
  (extractAddress text = None →
     ∀ pre a post, text = pre +:+ a +:+ post → isValidAddress a = false).
Proof.
  pose proof (extractAddress_first text) as H.
  destruct (extractAddress text) as [a|]; split; try done. by intros ? [= <-].
Qed.

(** X6.  an address is valid exactly when [extractAddress] returns it
    unchanged, and a valid address is extracted from any text it starts,
    further hexadecimal digits after it included. *)
Theorem extractAddress_roundtrip (a : string) :
  (isValidAddress a = true ↔ extractAddress a = Some a) ∧
  (isValidAddress a = true → ∀ rest, extractAddress (a +:+ rest) = Some a).
Proof.
  split; [split|].
  - intros Hvalid. rewrite <-(append_nil_r a) at 1. by apply extractAddress_prefix.
  - intros Heq. pose proof (extractAddress_first a) as H. rewrite Heq in H. apply H.
  - intros Hvalid rest. by apply extractAddress_prefix.
Qed.

(* ================================================================= *)
(** ** [shortenAddress] *)

Lemma shortenAddress_valid (address : string) :
  isValidAddress address = true →
  ∃ pre middle suf,
    address = pre +:+ middle +:+ suf ∧
    String.length pre = 6%nat ∧ String.length suf = 4%nat ∧
    shortenAddress address = pre +:+ "..." +:+ suf.
Proof.
  intros Hvalid. pose proof (isValidAddress_length _ Hvalid) as Hlen.
  destruct (string_split 6 address) as (pre & rest & -> & Hpre); [lia|].
  rewrite length_append, Hpre in Hlen.
  destruct (string_split 32 rest) as (middle & suf & -> & Hmiddle); [lia|].
  rewrite length_append, Hmiddle in Hlen.
  exists pre, middle, suf. split; [done|]. split; [done|]. split; [lia|].
  unfold shortenAddress, slice_last. rewrite Hvalid. cbn [negb].
  rewrite <-Hpre at 1. rewrite substring_0_append. do 2 f_equal.
  rewrite <-append_assoc.
  replace (String.length ((pre +:+ middle) +:+ suf) - 4)%nat
    with (String.length (pre +:+ middle)) by (rewrite !length_append; lia).
  rewrite substring_skip. replace 4%nat with (String.length suf) by lia.
  apply substring_0_all.
Qed.

(** X7.  [shortenAddress] leaves an invalid address as it is and shows the
    first six and the last four characters of a valid one, thirteen
    characters that are no valid address; shortening twice is shortening
    once. *)
Theorem shortenAddress_idempotent (address : string) :
  shortenAddress (shortenAddress address) = shortenAddress address ∧
  (isValidAddress address = false → shortenAddress address = address) ∧
  (isValidAddress address = true →
     String.length (shortenAddress address) = 13%nat ∧
     isValidAddress (shortenAddress address) = false ∧
     ∃ pre middle suf,
       address = pre +:+ middle +:+ suf ∧
       String.length pre = 6%nat ∧ String.length suf = 4%nat ∧
       shortenAddress address = pre +:+ "..." +:+ suf).
Proof.
  assert (isValidAddress address = true →
          String.length (shortenAddress address) = 13%nat ∧
          isValidAddress (shortenAddress address) = false) as Hshort.
  { intros (pre & middle & suf & _ & Hpre & Hsuf & ->)%shortenAddress_valid.
    assert (String.length (pre +:+ "..." +:+ suf) = 13%nat) as Hlen
      by (rewrite !length_append, Hpre, Hsuf; done).
    split; [done|]. destruct (isValidAddress _) eqn:Hvalid; [|done].
    apply isValidAddress_length in Hvalid. lia. }
  split; [|split].
  - destruct (isValidAddress address) eqn:Hvalid.
    + destruct Hshort as [_ Hinvalid]; [done|].
      unfold shortenAddress at 1. by rewrite Hinvalid.
    + unfold shortenAddress. rewrite Hvalid. cbn [negb]. by rewrite Hvalid.
  - intros Hinvalid. unfold shortenAddress. by rewrite Hinvalid.
  - intros Hvalid. destruct Hshort as [Hlen Hinvalid]; [done|].
    split; [done|]. split; [done|]. by apply shortenAddress_valid.
Qed.

(* ================================================================= *)
(** ** [topN] *)

(** Scores in descending order: no entry scores less than a later one. *)
Local Abbreviation descending := (StronglySorted (λ x y : string * Qc, y.2 ≤ x.2)).

Lemma insert_by_score_perm (x : string * Qc) (l : list (string * Qc)) :
  insert_by_score x l ≡ₚ x :: l.
Proof.
  induction l as [|y l IH]; cbn; [done|]. case_decide; [|done].
  rewrite IH. apply Permutation_swap.
Qed.

Lemma sort_by_score_perm (l : list (string * Qc)) : sort_by_score l ≡ₚ l.
Proof.
  induction l as [|x l IH]; cbn; [done|].
  rewrite insert_by_score_perm. by f_equiv.
Qed.

Lemma insert_by_score_descending (x : string * Qc) (l : list (string * Qc)) :
  descending l → descending (insert_by_score x l).
Proof.
  induction 1 as [|y l Hl IH Hy]; cbn.
  - by repeat constructor.
  - case_decide as Hlt.
    + constructor; [done|]. rewrite insert_by_score_perm.
      constructor; [by apply Qclt_le_weak|done].
    + apply Qcnot_lt_le in Hlt. constructor; [by constructor|].
      constructor; [done|]. eapply Forall_impl; [done|].
      intros z Hz. cbn in *. by etrans.
Qed.

Lemma sort_by_score_descending (l : list (string * Qc)) : descending (sort_by_score l).
Proof.
  induction l as [|x l IH]; cbn; [constructor|]. by apply insert_by_score_descending.
Qed.

(** The sort is stable: the entries of any one score keep their order. *)
Lemma insert_by_score_filter (v : Qc) (x : string * Qc) (l : list (string * Qc)) :
  filter (λ y, y.2 = v) (insert_by_score x l) = filter (λ y, y.2 = v) (x :: l).
Proof.
  induction l as [|y l IH]; cbn; [done|]. case_decide as Hlt; [|done].
  rewrite filter_cons, IH, !filter_cons.
  destruct (decide (y.2 = v)) as [Hy|]; [|done].
  destruct (decide (x.2 = v)) as [Hx|]; [|done].
  rewrite Hx, Hy in Hlt. by apply (irreflexivity Qclt) in Hlt.
Qed.

Lemma sort_by_score_filter (v : Qc) (l : list (string * Qc)) :
  filter (λ y, y.2 = v) (sort_by_score l) = filter (λ y, y.2 = v) l.
Proof.
  induction l as [|x l IH]; [done|].
  change (sort_by_score (x :: l)) with (insert_by_score x (sort_by_score l)).
  by rewrite insert_by_score_filter, !filter_cons, IH.
Qed.

(** X8.  [topN] keeps the [n] highest entries (all of them when there are
    fewer), in descending order of score: no entry left out scores more
    than an entry kept. *)
Theorem topN_of_highest (entries : list (string * Qc)) (n : nat) :
  length (topN_of entries n) = (n `min` length entries)%nat ∧
  StronglySorted (λ x y, y.2 ≤ x.2) (topN_of entries n) ∧
  ∃ rest, entries ≡ₚ topN_of entries n ++ rest ∧
          ∀ x y, x ∈ topN_of entries n → y ∈ rest → y.2 ≤ x.2.
Proof.
  unfold topN_of. pose proof (sort_by_score_descending entries) as Hsorted.
  rewrite <-(take_drop n (sort_by_score entries)) in Hsorted.
  apply StronglySorted_app in Hsorted as (Hcross & Htake & _).
  split; [by rewrite length_take, sort_by_score_perm|]. split; [done|].
  exists (drop n (sort_by_score entries)).
  split; [by rewrite take_drop, sort_by_score_perm|done].
Qed.

(** X9.  the sort of [topN] is stable: among the entries it returns,
    those of one score stand in the order they had, and they are the first
    of that score. *)
Theorem topN_of_stable (entries : list (string * Qc)) (n : nat) (v : Qc) :
  filter (λ x, x.2 = v) (topN_of entries n) `prefix_of` filter (λ x, x.2 = v) entries.
Proof.
  unfold topN_of. rewrite <-(sort_by_score_filter v entries).
  rewrite <-(take_drop n (sort_by_score entries)) at 2.
  rewrite filter_app. by apply prefix_app_r.
Qed.

(** X10.  on a result, [topN] lists [min(n, size)] distinct addresses, each
    with the score the map stores for it; with [n] at least the size of
    the map it lists every address. *)
Theorem topN_entries (result : EigenTrustResult) (n : nat) :
  length (topN result n) = (n `min` size (scores result))%nat ∧
  NoDup (topN result n).*1 ∧
  (∀ a s, (a, s) ∈ topN result n → scores result !! a = Some s) ∧
  ((size (scores result) ≤ n)%nat →
   ∀ a s, scores result !! a = Some s → (a, s) ∈ topN result n).
Proof.
  unfold topN, topN_of.
  pose proof (sort_by_score_perm (map_to_list (scores result))) as Hperm.
  split; [by rewrite length_take, Hperm, length_map_to_list|]. split; [|split].
  - rewrite fmap_take. eapply sublist_NoDup; [|apply sublist_take].
    rewrite Hperm. apply NoDup_fst_map_to_list.
  - intros a s (i & Hin%list_elem_of_lookup_2 & _)%elem_of_take. rewrite Hperm in Hin.
    by apply elem_of_map_to_list in Hin.
  - intros Hn a s Hlookup. rewrite take_ge
      by (by rewrite Hperm, length_map_to_list).
    rewrite Hperm. by apply elem_of_map_to_list.
Qed.

(* ================================================================= *)
(** ** The scores of [compute] *)

Lemma at_index_nonneg (l : list Qc) (i : nat) : Forall (Qcle 0) l → 0 ≤ at_index l i.
Proof.
  intros Hl. unfold at_index. destruct (l !! i) as [x|] eqn:Hx; [|apply Qcle_refl].
  by eapply Forall_lookup_1.
Qed.

Lemma entry_nonneg (M : list (list Qc)) (i j : nat) :
  Forall (Forall (Qcle 0)) M → 0 ≤ entry M i j.
Proof.
  intros HM. unfold entry. apply at_index_nonneg.
  destruct (M !! i) as [row|] eqn:Hrow; [by eapply Forall_lookup_1|constructor].
Qed.


Lemma Qcdiv_nonneg (x y : Qc) : 0 ≤ x → 0 ≤ y → 0 ≤ x / y.
Proof.
  intros Hx Hy. apply Qcle_lt_or_eq in Hy as [Hy| <-].
  - unfold Qcdiv. apply Qcmult_nonneg_nonneg; [done|].
    apply Qclt_le_weak. by apply Qcinv_pos.
  - unfold Qcdiv. replace (/ 0) with 0 by (by apply Qc_is_canon).
    rewrite Qcmult_0_r. apply Qcle_refl.
Qed.

Lemma Qc_of_nat_nonneg (n : nat) : 0 ≤ Qc_of_nat n.
Proof. rewrite <-Qc_of_nat_0. apply Qc_of_nat_le. lia. Qed.

Lemma rawTrustMatrix_nonneg (es : list TrustEdge) (nodes : list string) :
  NoDup nodes →
  Forall (Forall (Qcle 0)) (rawTrustMatrix es nodes (buildNodeIndex nodes)).
Proof.
  intros Hnd. apply Forall_lookup. intros i row Hrow.
  apply Forall_lookup. intros j x Hj.
  destruct (rawTrustMatrix_square nodes es) as [Hlen Hrows].
  destruct (lookup_lt_is_Some_2 nodes i) as [a Ha];
    [apply lookup_lt_Some in Hrow; lia|].
  destruct (lookup_lt_is_Some_2 nodes j) as [b Hb];
    [apply lookup_lt_Some in Hj; by rewrite <- (Hrows _ _ Hrow)|].
  pose proof (rawTrustMatrix_entry nodes Hnd es i j a b Ha Hb) as Hentry.
  rewrite (entry_lookup _ _ _ _ Hrow) in Hentry. unfold at_index in Hentry.
  rewrite Hj in Hentry. cbn in Hentry. rewrite Hentry.
  case_decide; [apply Qcle_refl|].
  destruct (edgeWeight es a b); [apply Math_max_0_nonneg|apply Qcle_refl].
Qed.

Lemma normalizedRow_nonneg (n : nat) (row : list Qc) :
  Forall (Qcle 0) row → Forall (Qcle 0) (normalizedRow n row).
Proof.
  intros Hrow. unfold normalizedRow. case_decide as Hsum.
  - apply Forall_fmap. eapply Forall_impl; [done|]. intros x Hx. cbn.
    apply Qcdiv_nonneg; [done|by apply Qclt_le_weak].
  - apply Forall_replicate. apply Qcdiv_nonneg; [done|apply Qc_of_nat_nonneg].
Qed.

Lemma preTrustMass_nonneg (preTrusted : gset string) (n : nat) (x : string) :
  0 ≤ preTrustMass preTrusted n x.
Proof.
  unfold preTrustMass. repeat case_decide;
    try apply Qcle_refl; (apply Qcdiv_nonneg; [done|apply Qc_of_nat_nonneg]).
Qed.

Lemma recurrence_step_nonneg (n : nat) (a : Qc) (C : list (list Qc)) (p t : list Qc) :
  0 ≤ a → a ≤ 1 →
  Forall (Forall (Qcle 0)) C → Forall (Qcle 0) p → Forall (Qcle 0) t →
  Forall (Qcle 0) (recurrence_step n a C p t).
Proof.
  intros Ha0 Ha1 HC Hp Ht. unfold recurrence_step. apply Forall_fmap, Forall_forall.
  intros j _. cbn.
  assert (0 ≤ sumQ ((λ i, entry C i j * at_index t i) <$> seq 0 n)) as Hsum.
  { apply sumQ_nonneg. intros x (i & -> & _)%list_elem_of_fmap.
    apply Qcmult_nonneg_nonneg; [by apply entry_nonneg|by apply at_index_nonneg]. }
  pose proof (at_index_nonneg p j Hp) as Hpj.
  rewrite <-(Qcplus_0_l 0). apply Qcplus_le_compat.
  - apply Qcmult_nonneg_nonneg; [qc_lra|done].
  - by apply Qcmult_nonneg_nonneg.
Qed.

Lemma trust_iterate_nonneg (n : nat) (a : Qc) (C : list (list Qc)) (p : list Qc) (k : nat) :
  0 ≤ a → a ≤ 1 → Forall (Forall (Qcle 0)) C → Forall (Qcle 0) p →
  Forall (Qcle 0) (trust_iterate n a C p k).
Proof.
  intros Ha0 Ha1 HC Hp. induction k as [|k IH]; [done|]. cbn.
  by apply recurrence_step_nonneg.
Qed.

Lemma preTrust_mass_le_1 (nodes : list string) (preTrusted : gset string) :
  NoDup nodes → nodes ≠ [] →
  sumQ (preTrustMass preTrusted (length nodes) <$> nodes) ≤ 1.
Proof.
  intros Hnd Hne. rewrite preTrust_mass by done. case_decide as Hsize; [|apply Qcle_refl].
  assert (presentPreTrusted preTrusted nodes ≤ size preTrusted)%nat as Hle.
  { unfold presentPreTrusted. apply subseteq_size. intros y [_ Hy]%elem_of_filter. done. }
  apply Nat.lt_eq_cases in Hle as [Hlt|Heq].
  - apply Qclt_le_weak. by apply share_below_one.
  - rewrite Heq. replace (Qc_of_nat (size preTrusted) / Qc_of_nat (size preTrusted))
      with 1; [apply Qcle_refl|]. field. apply Qc_of_nat_nonzero. lia.
Qed.

(** What [compute] returns on a graph with an edge: the scores are an
    iterate of the recurrence, packaged by node. *)
Lemma compute_scores (config : EigenTrustConfig) (es : list TrustEdge)
    (preTrusted : gset string) :
  es ≠ [] →
  let nodes := collectNodes es in
  let n := length nodes in
  let C := normalizedRow n <$> rawTrustMatrix es nodes (buildNodeIndex nodes) in
  let p := preTrustMass preTrusted n <$> nodes in
  ∃ r k, compute config es preTrusted = Ok r ∧
         scores r = packageScores nodes (trust_iterate n (decayFactor config) C p k).
Proof.
  intros Hes nodes n C p. rewrite compute_nonempty by done. fold nodes n C p.
  destruct (iterate_returns config n C p) as (k & flag & _ & ->).
  by eexists _, k.
Qed.



(** [compute] returns, and scores the nodes it collected. *)
Lemma compute_keys (config : EigenTrustConfig) (es : list TrustEdge)
    (preTrusted : gset string) :
  ∃ r, compute config es preTrusted = Ok r ∧
       ∀ x, is_Some (scores r !! x) ↔ x ∈ collectNodes es.
Proof.
  destruct (decide (es = [])) as [->|Hes].
  { eexists. split; [by apply compute_empty_nodes|]. intros x. cbn.
    rewrite lookup_empty. split; [by intros []|]. by intros ?%elem_of_nil. }
  destruct (compute_scores config es preTrusted Hes) as (r & k & Hr & Hscores).
  exists r. split; [done|]. intros x. rewrite Hscores. split.
  - intros Hsome. destruct (decide (x ∈ collectNodes es)) as [|Hx]; [done|].
    rewrite packageScores_lookup_None in Hsome by done. by destruct Hsome.
  - intros [i Hi]%list_elem_of_lookup_1.
    rewrite (packageScores_lookup _ _ i x) by (done || apply collectNodes_NoDup). done.
Qed.

(** X12.  [compute] scores exactly the addresses that are an endpoint of
    some edge. *)
Theorem compute_scores_domain (config : EigenTrustConfig) (es : list TrustEdge)
    (preTrusted : gset string) :
  ∃ r, compute config es preTrusted = Ok r ∧
       ∀ x, is_Some (scores r !! x) ↔ ∃ e, e ∈ es ∧ (x = from e ∨ x = to e).
Proof.
  destruct (compute_keys config es preTrusted) as (r & Hr & Hkeys).
  exists r. split; [done|]. intros x. by rewrite Hkeys, elem_of_collectNodes.
Qed.

Lemma Math_max_0_idem (w : Qc) : Math_max 0 (Math_max 0 w) = Math_max 0 w.
Proof.
  unfold Math_max. destruct (decide (0 < w)) as [Hw|Hw].
  - by rewrite decide_True.
  - rewrite decide_False; [done|]. apply (irreflexivity Qclt).
Qed.

Lemma collect_from_clamped (es : list TrustEdge) (s : list string) :
  foldl addEndpoints s (clampWeight <$> es) = foldl addEndpoints s es.
Proof. revert s. induction es as [|e es IH]; intros s; [done|]. cbn. apply IH. Qed.

Lemma rawTrustMatrix_from_clamped (es : list TrustEdge) (nodeIndex : gmap string nat)
    (M : list (list Qc)) :
  foldl (λ matrix edge,
           match nodeIndex !! from edge, nodeIndex !! to edge with
           | Some i, Some j =>
               if decide (i ≠ j) then matrix_set matrix i j (Math_max 0 (weight edge))
               else matrix
           | _, _ => matrix
           end) M (clampWeight <$> es)
  = foldl (λ matrix edge,
           match nodeIndex !! from edge, nodeIndex !! to edge with
           | Some i, Some j =>
               if decide (i ≠ j) then matrix_set matrix i j (Math_max 0 (weight edge))
               else matrix
           | _, _ => matrix
           end) M es.
Proof.
  revert M. induction es as [|e es IH]; intros M; [done|]. cbn.
  rewrite Math_max_0_idem. apply IH.
Qed.

(** X13.  a negative weight counts as weight zero: [compute] returns the
    same on the edge list and on the edge list with every negative weight
    raised to zero. *)
Theorem compute_negative_as_zero (config : EigenTrustConfig) (es : list TrustEdge)
    (preTrusted : gset string) :
  compute config (clampWeight <$> es) preTrusted = compute config es preTrusted.
Proof.
  unfold compute, buildNormalizedTrustMatrix, rawTrustMatrix, collectNodes.
  by rewrite collect_from_clamped, rawTrustMatrix_from_clamped.
Qed.

(* ================================================================= *)
(** ** The edges imported from Intuition *)

(** What holds of every imported edge. *)
Local Abbreviation imported e :=
  (from e ≠ to e ∧ toLowerCase (from e) = from e ∧ toLowerCase (to e) = to e ∧
   - (1) ≤ weight e ∧ weight e ≤ 1 ∧
   (source e = "intuition"%string ∨ source e = "intuition-semantic"%string)).

Lemma truthy_Some (s : option string) (x : string) : truthy s = Some x → s = Some x.
Proof. destruct s as [[|c r]|]; cbn; congruence. Qed.

Lemma resolveAddress_lower (atom : AtomNode) (a : string) :
  resolveAddress atom = Some a → toLowerCase a = a.
Proof.
  unfold resolveAddress. destruct (truthy (wallet_id atom)) as [w|].
  - intros [= <-]. apply toLowerCase_idem.
  - destruct (truthy (atom_label atom)) as [l|]; [|done].
    destruct (isValidAddress l); [|done]. intros [= <-]. apply toLowerCase_idem.
Qed.

Lemma Qc_of_nat_add (m n : nat) : Qc_of_nat (m + n) = Qc_of_nat m + Qc_of_nat n.
Proof. unfold Qc_of_nat. by rewrite Nat2Z.inj_add, Z2Qc_inj_add. Qed.

Lemma Qc_of_nat_pos (n : nat) : (0 < n)%nat → 0 < Qc_of_nat n.
Proof.
  intros Hn. unfold Qc_of_nat. rewrite <-Z2Qc_inj_0. apply (proj1 (Z2Qc_inj_lt _ _)). lia.
Qed.

(** The weight the vault positions give lies between -1 and 1. *)
Lemma position_weight (forPositions againstPositions : nat) :
  ∃ w, (if decide (0 < forPositions + againstPositions)%nat
        then (Qc_of_nat forPositions - Qc_of_nat againstPositions)
             /? Qc_of_nat (forPositions + againstPositions)
        else Ok (Q2Qc (1 # 2))) = Ok w ∧ - (1) ≤ w ∧ w ≤ 1.
Proof.
  case_decide as Htotal.
  - rewrite checked_div_Ok by (apply Qc_of_nat_nonzero; lia). eexists. split; [done|].
    pose proof (Qc_of_nat_nonneg forPositions) as Hf.
    pose proof (Qc_of_nat_nonneg againstPositions) as Ha.
    pose proof (Qc_of_nat_pos _ Htotal) as Hpos.
    rewrite Qc_of_nat_add in *.
    set (f := Qc_of_nat forPositions) in *. set (a := Qc_of_nat againstPositions) in *.
    clearbody f a. apply Qcdiv_between; [done|qc_lra..].
  - eexists. split; [done|]. split; by vm_compute.
Qed.

Lemma tripleEdges_imported (triple : TripleData) :
  ∃ added, tripleEdges triple = Ok added ∧ (length added ≤ 3)%nat ∧
           Forall (λ e, imported e) added.
Proof.
  unfold tripleEdges.
  destruct (position_weight (positions (vault triple)) (positions (counter_vault triple)))
    as (w & Hw & Hlo & Hhi).
  assert (- (1) ≤ w * Q2Qc (1 # 2) ∧ w * Q2Qc (1 # 2) ≤ 1) as [Hlo2 Hhi2]
    by (split; qc_lra).
  assert (- (1) ≤ w * Q2Qc (3 # 10) ∧ w * Q2Qc (3 # 10) ≤ 1) as [Hlo3 Hhi3]
    by (split; qc_lra).
  pose proof (toLowerCase_idem (creator_id (creator triple))) as Hcreator.
  destruct (truthy (resolveAddress (subject triple))) as [s|] eqn:Hs;
    destruct (truthy (resolveAddress (object triple))) as [o|] eqn:Ho;
    try apply truthy_Some, resolveAddress_lower in Hs;
    try apply truthy_Some, resolveAddress_lower in Ho;
    try (eexists; split; [done|]; split; [cbn; lia|constructor]);
    rewrite Hw; cbn [mbind outcome_mbind outcome_bind];
    repeat case_decide; eexists; (split; [done|]); (split; [cbn; lia|]);
    repeat (apply Forall_cons; split); try apply Forall_nil; cbn;
    repeat split; auto.
Qed.

Lemma triplesToEdges_from (triples : list TripleData) (edges : list TrustEdge) :
  Forall (λ e, imported e) edges →
  ∃ edges',
    foldl (λ edges triple, edges ← edges; added ← tripleEdges triple; Ok (edges ++ added))
          (Ok edges) triples = Ok edges' ∧
    (length edges' ≤ length edges + 3 * length triples)%nat ∧
    Forall (λ e, imported e) edges'.
Proof.
  revert edges. induction triples as [|triple triples IH]; intros edges Hedges.
  - exists edges. split; [done|]. split; [cbn; lia|done].
  - destruct (tripleEdges_imported triple) as (added & Hadded & Hlen & Himp).
    cbn [foldl mbind outcome_mbind outcome_bind]. rewrite Hadded.
    cbn [mbind outcome_mbind outcome_bind].
    destruct (IH (edges ++ added)) as (edges' & -> & Hlen' & Himp');
      [by apply Forall_app|].
    exists edges'. split; [done|]. split; [|done].
    rewrite length_app in Hlen'. cbn [length]. lia.
Qed.

(** X14.  the conversion of Intuition triples never fails and yields at
    most three edges per triple; no edge is a self-loop, both endpoints
    are in lower case, the weight lies between -1 and 1, and the source
    is "intuition" or "intuition-semantic". *)
Theorem triplesToEdges_edges (triples : list TripleData) :
  ∃ edges, triplesToEdges triples = Ok edges ∧
    (length edges ≤ 3 * length triples)%nat ∧
    ∀ e, e ∈ edges →
      from e ≠ to e ∧ toLowerCase (from e) = from e ∧ toLowerCase (to e) = to e ∧
      - (1) ≤ weight e ∧ weight e ≤ 1 ∧
      (source e = "intuition"%string ∨ source e = "intuition-semantic"%string).
Proof.
  destruct (triplesToEdges_from triples []) as (edges & Hedges & Hlen & Himp);
    [constructor|].
  exists edges. split; [done|]. split; [done|]. by apply Forall_forall.
Qed.

(** X15.  on a graph imported from Intuition, [scoreFor] finds the score of
    every address that [compute] has scored. *)
Theorem imported_scores_found (config : EigenTrustConfig) (triples : list TripleData)
    (preTrusted : gset string) :
  ∃ edges r, triplesToEdges triples = Ok edges ∧
             compute config edges preTrusted = Ok r ∧
             ∀ x v, scores r !! x = Some v → scoreFor r x = v.
Proof.
  destruct (triplesToEdges_from triples []) as (edges & Hedges & _ & Himp);
    [constructor|].
  destruct (compute_keys config edges preTrusted) as (r & Hr & Hkeys).
  exists edges, r. split; [done|]. split; [done|]. intros x v Hx.
  assert (x ∈ collectNodes edges) as (e & He & Hends)%elem_of_collectNodes
    by (apply Hkeys; by rewrite Hx).
  eapply Forall_forall in Himp as (_ & Hfrom & Hto & _); [|done].
  unfold scoreFor. destruct Hends as [-> | ->].
  - by rewrite Hfrom, Hx.
  - by rewrite Hto, Hx.
Qed.

(* ================================================================= *)
(** ** Counts in texts *)

Lemma take_digits_string_of_uint (d : Decimal.uint) (rest : string) :
  take_digits (NilEmpty.string_of_uint d +:+ rest)
  = NilEmpty.string_of_uint d +:+ take_digits rest.
Proof.
  induction d; cbn [NilEmpty.string_of_uint]; rewrite ?append_nil_l, ?append_cons;
    [done|cbn [take_digits]; by rewrite IHd..].
Qed.

Lemma to_little_uint_nonnil (n : nat) (acc : Decimal.uint) :
  acc ≠ Decimal.Nil → Nat.to_little_uint n acc ≠ Decimal.Nil.
Proof.
  revert acc. induction n as [|n IH]; intros acc Hacc; [done|]. cbn.
  apply IH. by destruct acc.
Qed.

Lemma show_nat_cons (n : nat) : ∃ c r, show_nat n = String c r ∧ is_digit c = true.
Proof.
  unfold show_nat. destruct (Nat.to_uint n) as [|d|d|d|d|d|d|d|d|d|d] eqn:Hd;
    try (by eexists _, _).
  apply rev_nil_inv in Hd. by apply to_little_uint_nonnil in Hd.
Qed.

Lemma take_digits_show_nat (n : nat) (rest : string) :
  take_digits (show_nat n +:+ rest) = show_nat n +:+ take_digits rest.
Proof. apply take_digits_string_of_uint. Qed.

Lemma match_digits_show_nat (n : nat) (rest : string) :
  match_digits (show_nat n +:+ rest) = Some (show_nat n +:+ take_digits rest).
Proof.
  rewrite <-take_digits_show_nat.
  destruct (show_nat_cons n) as (c & r & -> & Hc). rewrite append_cons.
  cbn [match_digits]. by rewrite Hc.
Qed.

Lemma parseInt_show_nat (n : nat) : parseInt (show_nat n) = Ok n.
Proof.
  unfold parseInt. rewrite <-(append_nil_r (show_nat n)) at 1.
  rewrite take_digits_show_nat. cbn [take_digits]. rewrite append_nil_r.
  destruct (show_nat_cons n) as (c & r & Heq & _). rewrite Heq, <-Heq.
  unfold show_nat. rewrite NilEmpty.usu. cbn [from_option]. by rewrite Unsigned.of_to.
Qed.

(* ================================================================= *)
(** ** The score tables *)

Ltac table_range :=
  repeat case_decide; (eexists; split; [reflexivity|lia]).

Ltac table_mono :=
  repeat case_decide; try lia; apply (proj1 (Z2Qc_inj_le _ _)); lia.

Lemma scoreAttestationCount_range (count : nat) :
  ∃ z : Z, scoreAttestationCount count = Qc_of_Z z ∧ (0 ≤ z ≤ 100)%Z.
Proof. unfold scoreAttestationCount. table_range. Qed.

Lemma scoreStakeWeight_range (totalShares : Z) :
  ∃ z : Z, scoreStakeWeight totalShares = Qc_of_Z z ∧ (0 ≤ z ≤ 100)%Z.
Proof. unfold scoreStakeWeight. table_range. Qed.

Lemma scoreAge_range (days : Z) :
  ∃ z : Z, scoreAge days = Qc_of_Z z ∧ (0 ≤ z ≤ 100)%Z.
Proof. unfold scoreAge. table_range. Qed.

Lemma scoreTxCount_range (count : nat) :
  ∃ z : Z, scoreTxCount count = Qc_of_Z z ∧ (0 ≤ z ≤ 100)%Z.
Proof. unfold scoreTxCount. table_range. Qed.

Lemma scoreDiversity_range (uniqueAddresses : nat) :
  ∃ z : Z, scoreDiversity uniqueAddresses = Qc_of_Z z ∧ (0 ≤ z ≤ 100)%Z.
Proof. unfold scoreDiversity. table_range. Qed.

Lemma scoreChainPresence_range (chainCount : nat) :
  ∃ z : Z, scoreChainPresence chainCount = Qc_of_Z z ∧ (0 ≤ z ≤ 100)%Z.
Proof. unfold scoreChainPresence. table_range. Qed.

Lemma scoreDeployments_range (count : nat) :
  ∃ z : Z, scoreDeployments count = Qc_of_Z z ∧ (0 ≤ z ≤ 100)%Z.
Proof. unfold scoreDeployments. table_range. Qed.

(** X16.  every score table, of the trust score tool and of the on-chain
    analyzer, is monotone (a larger count, stake or age never scores
    less) and has integer values between 0 and 100. *)
Theorem score_tables_monotone :
  (∀ m n, (m ≤ n)%nat → scoreAttestationCount m ≤ scoreAttestationCount n) ∧
  (∀ x y, (x ≤ y)%Z → scoreStakeWeight x ≤ scoreStakeWeight y) ∧
  (∀ x y, (x ≤ y)%Z → scoreAge x ≤ scoreAge y) ∧
  (∀ m n, (m ≤ n)%nat → scoreTxCount m ≤ scoreTxCount n) ∧
  (∀ m n, (m ≤ n)%nat → scoreDiversity m ≤ scoreDiversity n) ∧
  (∀ m n, (m ≤ n)%nat → scoreChainPresence m ≤ scoreChainPresence n) ∧
  (∀ m n, (m ≤ n)%nat → scoreDeployments m ≤ scoreDeployments n) ∧
  (∀ n, ∃ z : Z, scoreAttestationCount n = Qc_of_Z z ∧ (0 ≤ z ≤ 100)%Z) ∧
  (∀ x, ∃ z : Z, scoreStakeWeight x = Qc_of_Z z ∧ (0 ≤ z ≤ 100)%Z) ∧
  (∀ x, ∃ z : Z, scoreAge x = Qc_of_Z z ∧ (0 ≤ z ≤ 100)%Z) ∧
  (∀ n, ∃ z : Z, scoreTxCount n = Qc_of_Z z ∧ (0 ≤ z ≤ 100)%Z) ∧
  (∀ n, ∃ z : Z, scoreDiversity n = Qc_of_Z z ∧ (0 ≤ z ≤ 100)%Z) ∧
  (∀ n, ∃ z : Z, scoreChainPresence n = Qc_of_Z z ∧ (0 ≤ z ≤ 100)%Z) ∧
  (∀ n, ∃ z : Z, scoreDeployments n = Qc_of_Z z ∧ (0 ≤ z ≤ 100)%Z).
Proof.
  repeat split.
  - intros m n Hle. unfold scoreAttestationCount. table_mono.
  - intros x y Hle. unfold scoreStakeWeight. table_mono.
  - intros x y Hle. unfold scoreAge. table_mono.
  - intros m n Hle. unfold scoreTxCount. table_mono.
  - intros m n Hle. unfold scoreDiversity. table_mono.
  - intros m n Hle. unfold scoreChainPresence. table_mono.
  - intros m n Hle. unfold scoreDeployments. table_mono.
  - apply scoreAttestationCount_range.
  - apply scoreStakeWeight_range.
  - apply scoreAge_range.
  - apply scoreTxCount_range.
  - apply scoreDiversity_range.
  - apply scoreChainPresence_range.
  - apply scoreDeployments_range.
Qed.

(* ================================================================= *)
(** ** The factors of the trust score tool *)

(** A factor as the tool builds them: an integer score between 0 and
    100, with a positive weight. *)
Local Abbreviation sound f :=
  ((∃ z : Z, factor_score f = Qc_of_Z z ∧ (0 ≤ z ≤ 100)%Z) ∧ 0 < factor_weight f).

Ltac sound_singleton :=
  apply Forall_cons; split; [split; [|by vm_compute]|by apply Forall_nil].

Lemma sumQ_pos (l : list Qc) : l ≠ [] → Forall (Qclt 0) l → 0 < sumQ l.
Proof.
  intros Hne Hl. destruct Hl as [|x l Hx Hl]; [done|]. rewrite sumQ_cons.
  assert (0 ≤ sumQ l).
  { apply sumQ_nonneg. intros y Hy. apply Qclt_le_weak. by eapply Forall_forall in Hl. }
  qc_lra.
Qed.

Lemma weightedAverage_sound (items : list TrustFactor) :
  Forall (λ f, sound f) items → items ≠ [] →
  ∃ z : Z, weightedAverage items = Ok (Qc_of_Z z) ∧ (0 ≤ z ≤ 100)%Z.
Proof.
  intros Hitems Hne. apply weightedAverage_between.
  - intros item Hin. eapply Forall_forall in Hitems as [_ Hw]; [|done].
    by apply Qclt_le_weak.
  - assert (0 < sumQ (factor_weight <$> items)) as Hpos.
    { apply sumQ_pos; [by destruct items|].
      apply Forall_fmap. eapply Forall_impl; [done|]. by intros f [_ Hw]. }
    intros Hz. rewrite Hz in Hpos. by apply (irreflexivity Qclt) in Hpos.
  - intros item Hin. eapply Forall_forall in Hitems as [(z & -> & Hz) _]; [|done].
    split; apply (proj1 (Z2Qc_inj_le _ _)); lia.
Qed.

Lemma foldr_Math_max_ge (x : Qc) (l : list Qc) : x ≤ foldr Math_max x l.
Proof.
  induction l as [|y l IH]; cbn; [apply Qcle_refl|].
  destruct (Math_max_spec y (foldr Math_max x l)) as (_ & H & _). by etrans.
Qed.

Lemma computeEigenTrust_sound (services : Services) (config : EigenTrustConfig)
    (target : string) (depth : nat) :
  ∃ factors, computeEigenTrust services config target depth = Ok factors ∧
             Forall (λ f, sound f) factors.
Proof.
  unfold computeEigenTrust.
  destruct (getNeighborhood services target depth) as [neighborhood|msg];
    cbn [await mbind outcome_mbind outcome_bind try_catch]; [|by eexists].
  case_decide; [by eexists|].
  destruct (compute_keys config (nb_edges neighborhood) ∅) as (result & -> & _).
  cbn [mbind outcome_mbind outcome_bind].
  set (maxScore := foldr Math_max (Q2Qc (1 # 1000)) (map_to_list (scores result)).*2).
  assert (0 < maxScore) as Hmax.
  { eapply Qclt_le_trans; [|apply foldr_Math_max_ge]. by vm_compute. }
  destruct (normalizeScore_integer (default 0 (scores result !! target)) 0 maxScore Hmax)
    as (z & -> & Hz).
  cbn [mbind outcome_mbind outcome_bind].
  destruct (getDirectConnections services target) as [connections|msg];
    cbn [await mbind outcome_mbind outcome_bind try_catch]; [|by eexists].
  eexists. split; [done|]. sound_singleton. by exists z.
Qed.

Lemma sentiment_range (positive attCount : nat) :
  (0 < attCount)%nat → (positive ≤ attCount)%nat →
  ∃ z : Z, (ratio ← Qc_of_nat positive /? Qc_of_nat attCount;
            Ok (Math_round (ratio * Qc_of_Z 100))) = Ok (Qc_of_Z z) ∧ (0 ≤ z ≤ 100)%Z.
Proof.
  intros Hpos Hle. rewrite checked_div_Ok by (apply Qc_of_nat_nonzero; lia).
  cbn [mbind outcome_mbind outcome_bind].
  destruct (Qcdiv_between 0 1 (Qc_of_nat positive) (Qc_of_nat attCount)) as [H0 H1].
  - by apply Qc_of_nat_pos.
  - rewrite Qcmult_0_l. apply Qc_of_nat_nonneg.
  - rewrite Qcmult_1_l. by apply Qc_of_nat_le.
  - set (ratio := Qc_of_nat positive / Qc_of_nat attCount) in *. clearbody ratio.
    destruct (Math_round_between 0 100 (ratio * Qc_of_Z 100)) as (z & -> & Hz);
      [qc_lra..|]. by exists z.
Qed.

(** What [computeAttestationFactors] returns: nothing without
    attestations and statistics, and otherwise a list that starts with
    the volume factor, whose text gives the number of attestations. *)
Lemma computeAttestationFactors_sound (services : Services) (target : string) :
  let attestations := fetchAttestationsForAddress services target 100 in
  let stats := getAccountStats services target in
  ∃ factors,
    computeAttestationFactors services target = Ok factors ∧
    Forall (λ f, sound f) factors ∧
    if bool_decide (length attestations = 0)%nat && bool_decide (stats = None)
    then factors = []
    else ∃ volume others,
           factors = volume :: others ∧
           factor_name volume = "Attestation Volume"%string ∧
           factor_description volume
           = show_nat (length attestations) +:+ " attestations found".
Proof.
  intros attestations stats. unfold computeAttestationFactors. fold attestations stats.
  destruct (bool_decide (length attestations = 0)%nat && bool_decide (stats = None));
    [by eexists|].
  assert (∃ sentimentFactor,
    (if decide (0 < length attestations)%nat then
       sentiment ←
         (if decide (0 < length attestations)%nat then
            ratio ← Qc_of_nat (length (filter (λ a, 0 < att_value a) attestations))
                    /? Qc_of_nat (length attestations);
            Ok (Math_round (ratio * Qc_of_Z 100))
          else Ok (Qc_of_Z 50));
       Ok [ {| factor_name := "Attestation Sentiment";
               factor_score := sentiment;
               factor_weight := Q2Qc (15 # 100);
               factor_description :=
                 show_nat (length (filter (λ a, 0 < att_value a) attestations))
                 +:+ " positive, "
                 +:+ show_nat (length (filter (λ a, att_value a < 0) attestations))
                 +:+ " negative attestations" |} ]%list
     else Ok []) = Ok sentimentFactor ∧ Forall (λ f, sound f) sentimentFactor)
    as (sentimentFactor & -> & Hsentiment).
  { case_decide as Hpos; [|by eexists].
    destruct (sentiment_range
                (length (filter (λ a, 0 < att_value a) attestations))
                (length attestations)) as (z & -> & Hz); [done|apply length_filter|].
    eexists. split; [done|]. sound_singleton. by exists z. }
  cbn [mbind outcome_mbind outcome_bind try_catch].
  eexists. split; [done|]. split.
  - apply Forall_app. split; [|apply Forall_app; split; [done|]].
    + sound_singleton. apply scoreAttestationCount_range.
    + destruct stats as [st|]; [|constructor]. case_decide; [|constructor].
      sound_singleton. apply scoreStakeWeight_range.
  - by eexists _, _.
Qed.

Lemma activityToFactors_sound (activities : list OnChainActivity) :
  Forall (λ f, sound f) (activityToFactors activities).
Proof.
  unfold activityToFactors. apply Forall_app. split.
  - repeat (apply Forall_cons; split); try (by apply Forall_nil);
      (split; [|by vm_compute]).
    + apply scoreAge_range.
    + apply scoreTxCount_range.
    + apply scoreDiversity_range.
    + apply scoreChainPresence_range.
  - case_decide; [|constructor].
    sound_singleton. apply scoreDeployments_range.
Qed.

Lemma computeOnChainFactors_sound (services : Services) (target : string) :
  ∃ factors, computeOnChainFactors services target = Ok factors ∧
             Forall (λ f, sound f) factors.
Proof.
  unfold computeOnChainFactors.
  destruct (analyze services target) as [activities|msg];
    cbn [await mbind outcome_mbind outcome_bind try_catch]; [|by eexists].
  case_decide; [by eexists|]. eexists. split; [done|]. apply activityToFactors_sound.
Qed.

(* ================================================================= *)
(** ** [score] *)

Lemma attestationCount_volume (volume : TrustFactor) (others : list TrustFactor) (n : nat) :
  factor_name volume = "Attestation Volume"%string →
  factor_description volume = show_nat n +:+ " attestations found" →
  attestationCount (volume :: others) = Ok (Some n).
Proof.
  intros Hname Hdescription. unfold attestationCount.
  rewrite decide_True by (cbn; lia). cbn [List.find].
  rewrite bool_decide_eq_true_2 by done. cbn [mbind option_bind].
  rewrite Hdescription, match_digits_show_nat. cbn [take_digits is_digit].
  rewrite append_nil_r. destruct (show_nat_cons n) as (c & r & Heq & _).
  rewrite Heq at 1. cbn [or_text]. rewrite <-Heq, parseInt_show_nat. done.
Qed.

(** What [score] returns for a target whose lower-case form is valid. *)
Lemma score_valid (services : Services) (config : EigenTrustConfig) (query : TrustQuery)
    (now : Z) :
  let target := toLowerCase (q_target query) in
  let attestations := fetchAttestationsForAddress services target 100 in
  let stats := getAccountStats services target in
  isValidAddress target = true →
  ∃ eigen att onchain trustScore,
    computeEigenTrust services config target (or_count (q_depth query) 3) = Ok eigen ∧
    computeAttestationFactors services target = Ok att ∧
    computeOnChainFactors services target = Ok onchain ∧
    score services config query now
    = Ok {| resp_query := query; resp_score := trustScore;
            resp_explanation := ScoreExplained trustScore |} ∧
    ts_address trustScore = target ∧
    ts_factors trustScore = eigen ++ att ++ onchain ∧
    Forall (λ f, sound f) (ts_factors trustScore) ∧
    (∃ z : Z, ts_score trustScore = Qc_of_Z z ∧ (0 ≤ z ≤ 100)%Z) ∧
    (ts_factors trustScore = [] → ts_score trustScore = 0) ∧
    ts_level trustScore = scoreToLevel (ts_score trustScore) ∧
    ts_confidence trustScore
    = calculateConfidence (bool_decide (0 < length eigen)%nat)
                          (bool_decide (0 < length att)%nat)
                          (bool_decide (0 < length onchain)%nat) ∧
    meta_attestationCount (ts_metadata trustScore)
    = (if bool_decide (length attestations = 0)%nat && bool_decide (stats = None)
       then None else Some (length attestations)) ∧
    meta_graphDepth (ts_metadata trustScore) = Some (or_count (q_depth query) 3).
Proof.
  intros target attestations stats Hvalid. unfold score. fold target.
  rewrite Hvalid. cbn [negb].
  destruct (computeEigenTrust_sound services config target (or_count (q_depth query) 3))
    as (eigen & -> & Heigen).
  destruct (computeAttestationFactors_sound services target) as (att & -> & Hatt & Hshape).
  destruct (computeOnChainFactors_sound services target) as (onchain & -> & Honchain).
  cbn [mbind outcome_mbind outcome_bind]. fold attestations stats in Hshape.
  assert (Forall (λ f, sound f) (eigen ++ att ++ onchain)) as Hall
    by (by repeat (apply Forall_app; split)).
  assert (∃ z : Z,
            (if decide (0 < length (eigen ++ att ++ onchain))%nat
             then weightedAverage (eigen ++ att ++ onchain) else Ok 0) = Ok (Qc_of_Z z) ∧
            (0 ≤ z ≤ 100)%Z ∧ (eigen ++ att ++ onchain = [] → z = 0%Z))
    as (z & -> & Hz & Hzero).
  { destruct (decide (0 < length (eigen ++ att ++ onchain))%nat) as [Hlen|Hlen].
    - assert (eigen ++ att ++ onchain ≠ []) as Hne
        by (intros Hnil%(f_equal length); cbn in Hnil; lia).
      destruct (weightedAverage_sound _ Hall Hne) as (z & -> & Hz).
      by exists z.
    - exists 0%Z. by rewrite Z2Qc_inj_0. }
  assert (attestationCount att
          = Ok (if bool_decide (length attestations = 0)%nat && bool_decide (stats = None)
                then None else Some (length attestations))) as ->.
  { destruct (bool_decide (length attestations = 0)%nat && bool_decide (stats = None)).
    - by rewrite Hshape.
    - destruct Hshape as (volume & others & -> & Hname & Hdescription).
      by apply attestationCount_volume. }
  cbn [mbind outcome_mbind outcome_bind].
  eexists eigen, att, onchain, _. repeat (split; [reflexivity|]).
  cbn [ts_address ts_factors ts_score ts_level ts_confidence ts_metadata
       meta_attestationCount meta_graphDepth].
  repeat (split; [done|]). split; [by exists z|]. split; [|done].
  intros ->%Hzero. by rewrite Z2Qc_inj_0.
Qed.


(** X18.  for a target whose lower-case form is valid, the
    [attestationCount] that [score] reads back from the text of the volume
    factor is the number of attestations fetched; it is left undefined
    exactly when there are neither attestations nor account statistics. *)
Theorem score_attestationCount (services : Services) (config : EigenTrustConfig)
    (query : TrustQuery) (now : Z) :
  let target := toLowerCase (q_target query) in
  let attestations := fetchAttestationsForAddress services target 100 in
  isValidAddress target = true →
  ∃ response,
    score services config query now = Ok response ∧
    meta_attestationCount (ts_metadata (resp_score response))
    = if bool_decide (length attestations = 0)%nat
         && bool_decide (getAccountStats services target = None)
      then None else Some (length attestations).
Proof.
  intros target attestations Hvalid.
  destruct (score_valid services config query now Hvalid)
    as (eigen & att & onchain & trustScore & _ & _ & _ & -> & _ & _ & _ & _ & _ & _ & _
        & Hcount & _).
  by eexists.
Qed.

Lemma score_attestationCount_witness :
  ∃ response,
    score services_example DEFAULT_CONFIG query_example 0 = Ok response ∧
    meta_attestationCount (ts_metadata (resp_score response)) = Some 3%nat.
Proof. apply (score_attestationCount services_example DEFAULT_CONFIG query_example 0). reflexivity. Defined.

(** X19.  Two queries whose targets differ in case only, with the same
    chain and depth: when the lower-cased target is a valid address, the
    scoring depends on the target only through that form, and both get
    the same trust score; when it is not, both get the error response,
    which carries the target as given. *)
Theorem score_case_insensitive (services : Services) (config : EigenTrustConfig)
    (query query' : TrustQuery) (now : Z) :
  toLowerCase (q_target query) = toLowerCase (q_target query') →
  q_chain query = q_chain query' → q_depth query = q_depth query' →
  (isValidAddress (toLowerCase (q_target query)) = true →
   ∃ trustScore,
     score services config query now
     = Ok {| resp_query := query; resp_score := trustScore;
             resp_explanation := ScoreExplained trustScore |} ∧
     score services config query' now
     = Ok {| resp_query := query'; resp_score := trustScore;
             resp_explanation := ScoreExplained trustScore |}) ∧
  (isValidAddress (toLowerCase (q_target query)) = false →
   ∃ response response',
     score services config query now = Ok response ∧
     score services config query' now = Ok response' ∧
     resp_explanation response = ErrorText "Invalid address format" ∧
     resp_explanation response' = ErrorText "Invalid address format" ∧
     ts_address (resp_score response) = q_target query ∧
     ts_address (resp_score response') = q_target query').
Proof.
  intros Htarget Hchain Hdepth. split; intros Hvalid.
  - destruct (score_valid services config query now Hvalid)
      as (eigen & att & onchain & trustScore & _ & _ & _ & Hscore & _).
    exists trustScore. split; [done|]. revert Hscore. unfold score.
    rewrite <-Htarget, <-Hchain, <-Hdepth, Hvalid. cbn [negb].
    destruct (computeEigenTrust _ _ _ _); [|done..].
    destruct (computeAttestationFactors _ _); [|done..].
    destruct (computeOnChainFactors _ _); [|done..].
    cbn [mbind outcome_mbind outcome_bind].
    destruct (if decide _ then _ else _); [|done..].
    cbn [mbind outcome_mbind outcome_bind].
    destruct (attestationCount _); [|done..].
    cbn [mbind outcome_mbind outcome_bind]. by intros [= <-].
  - unfold score. rewrite <-Htarget, Hvalid. cbn [negb]. by eexists _, _.
Qed.

Lemma score_case_insensitive_witness :
  ∃ trustScore,
    score services_example DEFAULT_CONFIG query_example 0
    = Ok {| resp_query := query_example; resp_score := trustScore;
            resp_explanation := ScoreExplained trustScore |} ∧
    score services_example DEFAULT_CONFIG
          {| q_target := address_of "a"; q_chain := None; q_depth := None;
             q_includeFactors := None; q_includePaths := None |} 0
    = Ok {| resp_query := {| q_target := address_of "a"; q_chain := None; q_depth := None;
                             q_includeFactors := None; q_includePaths := None |};
            resp_score := trustScore;
            resp_explanation := ScoreExplained trustScore |}.
Proof.
  apply (proj1 (score_case_insensitive services_example DEFAULT_CONFIG query_example
                  {| q_target := address_of "a"; q_chain := None; q_depth := None;
                     q_includeFactors := None; q_includePaths := None |} 0
                  eq_refl eq_refl eq_refl)).
  reflexivity.
Defined.

(* ================================================================= *)
(** ** The confidence *)

(** X20.  more data sources never lower the confidence, which lies between
    0.1 and 0.95 and reaches 0.75 exactly when at least two of the three
    sources have data. *)
Theorem calculateConfidence_monotone (g a o g' a' o' : bool) :
  (g = true → g' = true) → (a = true → a' = true) → (o = true → o' = true) →
  calculateConfidence g a o ≤ calculateConfidence g' a' o' ∧
  Q2Qc (1 # 10) ≤ calculateConfidence g a o ∧
  calculateConfidence g a o ≤ Q2Qc (95 # 100) ∧
  (Q2Qc (75 # 100) ≤ calculateConfidence g a o ↔ g && a || g && o || a && o = true).
Proof.
  intros Hg Ha Ho.
  destruct g, a, o, g', a', o';
    try (by specialize (Hg eq_refl)); try (by specialize (Ha eq_refl));
    try (by specialize (Ho eq_refl)); clear; repeat split;
    first [by vm_compute | intros H; exfalso; apply H; by vm_compute].
Qed.

Lemma calculateConfidence_monotone_witness :
  calculateConfidence true false false = Q2Qc (5 # 10) ∧
  calculateConfidence true true false = Q2Qc (75 # 100) ∧
  calculateConfidence true false false ≤ calculateConfidence true true false.
Proof.
  split; [reflexivity|]. split; [reflexivity|].
  by apply (calculateConfidence_monotone true false false true true false).
Defined.

(* ================================================================= *)
(** ** The sessions of [findPath] *)

(** X21.  [findPath] leaves the driver as it is and opens at most one
    session, which it closes: the journal grows either by nothing, or,
    for two valid addresses that differ beyond case on a connected
    service, by one session with the one query on the lower-cased
    addresses.  On a service that is not connected such addresses make it
    throw. *)
Theorem findPath_sessions (graph : GraphService) (from_address to_address : string)
    (maxHops : nat) :
  let result := findPath graph from_address to_address maxHops in
  let query := ShortestPathQuery (toLowerCase from_address) (toLowerCase to_address)
                                 maxHops in
  let asked := isValidAddress from_address = true ∧ isValidAddress to_address = true ∧
               toLowerCase from_address ≠ toLowerCase to_address in
  driver result.2 = driver graph ∧
  (asked ∧ is_Some (driver graph) →
     journal result.2 = journal graph ++ [SessionOpened; QueryRun query; SessionClosed]) ∧
  (¬ (asked ∧ is_Some (driver graph)) → journal result.2 = journal graph) ∧
  (asked ∧ driver graph = None →
     result.1 = Thrown "[GraphService] Not connected. Call connect() first.") ∧
  (¬ asked → ∃ why, result.1 = Ok {| path := None; explanation := why |}).
Proof.
  intros result query asked. subst result asked. unfold findPath.
  destruct (isValidAddress from_address) eqn:Hfrom; cbn [negb orb];
    [|by repeat split; try tauto; try (by eexists); intros [[[=] _] _]].
  destruct (isValidAddress to_address) eqn:Hto; cbn [negb orb];
    [|by repeat split; try tauto; try (by eexists); intros [[_ [[=] _]] _]].
  case_decide as Hsame.
  { repeat split; try tauto; try (by eexists); by intros [(_ & _ & ?) _]. }
  unfold findTrustPath. destruct (driver graph) as [[G failed]|] eqn:Hdriver.
  - cbn [failure stored].
    destruct failed as [error|]; [|destruct (run_query G _) as [|record records]]; cbn;
      (split; [done|]); (split; [done|]); (split; [intros []; split; by eauto|]);
      (split; [by intros [_ [=]]|]); by intros [].
  - cbn. rewrite Hdriver. split; [done|]. split; [by intros [_ []]|].
    split; [done|]. split; [done|]. by intros [].
Qed.

(* ================================================================= *)
(** ** The graph factor *)


(* ================================================================= *)
(** ** The on-chain factors *)

Lemma foldl_count {A} (f : A → nat) (l : list A) (acc : nat) :
  foldl (λ s a, s + f a)%nat acc l = (acc + sum_list (f <$> l))%nat.
Proof.
  revert acc. induction l as [|a l IH]; intros acc; cbn; [lia|]. rewrite IH. lia.
Qed.

Lemma sum_list_pos {A} (f : A → nat) (l : list A) :
  (0 < sum_list (f <$> l))%nat ↔ Exists (λ a, 0 < f a)%nat l.
Proof.
  induction l as [|a l IH]; cbn.
  - split; [lia|by intros ?%Exists_nil].
  - rewrite Exists_cons, <-IH. lia.
Qed.

(** X23.  [activityToFactors] yields four factors, and a fifth exactly when
    a contract was deployed; their weights sum to 0.8 and to 1; every
    score is an integer between 0 and 100, so is their weighted average,
    and without any activity every score is 0. *)
Theorem activityToFactors_weights (activities : list OnChainActivity) :
  let factors := activityToFactors activities in
  (∀ f, f ∈ factors →
        (∃ z : Z, factor_score f = Qc_of_Z z ∧ (0 ≤ z ≤ 100)%Z) ∧ 0 < factor_weight f) ∧
  (Exists (λ a, 0 < contractsDeployed a)%nat activities →
     length factors = 5%nat ∧ sumQ (factor_weight <$> factors) = 1) ∧
  (¬ Exists (λ a, 0 < contractsDeployed a)%nat activities →
     length factors = 4%nat ∧ sumQ (factor_weight <$> factors) = Q2Qc (8 # 10)) ∧
  (∃ z : Z, weightedAverage factors = Ok (Qc_of_Z z) ∧ (0 ≤ z ≤ 100)%Z) ∧
  (activities = [] → ∀ f, f ∈ factors → factor_score f = 0).
Proof.
  intros factors. pose proof (activityToFactors_sound activities) as Hsound.
  split; [by apply Forall_forall|].
  assert (factors ≠ []) as Hne by done.
  split; [|split; [|split]].
  - intros Hdeployed%sum_list_pos. subst factors. unfold activityToFactors.
    rewrite (foldl_count contractsDeployed), decide_True by done.
    split; [done|]. apply Qc_is_canon. by vm_compute.
  - intros Hnone. subst factors. unfold activityToFactors.
    rewrite (foldl_count contractsDeployed), decide_False
      by (by rewrite Nat.add_0_l, sum_list_pos).
    split; [done|]. apply Qc_is_canon. by vm_compute.
  - by apply weightedAverage_sound.
  - intros ->. subst factors. intros f Hf. cbn in Hf.
    repeat (apply elem_of_cons in Hf as [->|Hf]); try (apply Qc_is_canon; by vm_compute).
    by apply elem_of_nil in Hf.
Qed.

(* ================================================================= *)
(** ** The value of an attestation *)

Lemma Qc_of_nat_lt (m n : nat) : Qc_of_nat m < Qc_of_nat n ↔ (m < n)%nat.
Proof. unfold Qc_of_nat. rewrite <-Z2Qc_inj_lt. lia. Qed.

Lemma Qc_of_nat_inj (m n : nat) : Qc_of_nat m = Qc_of_nat n ↔ m = n.
Proof. unfold Qc_of_nat. rewrite Z2Qc_inj_iff. lia. Qed.

(** X24.  the value [computeTripleValue] gives a triple lies between -1 and
    1, and its sign is that of the majority of the positions: positive
    with more positions for than against, negative with more against, 0
    with as many (none included). *)
Theorem computeTripleValue_sign (triple : TripleData) :
  let forCount := positions (vault triple) in
  let againstCount := positions (counter_vault triple) in
  ∃ value, computeTripleValue triple = Ok value ∧
           - (1) ≤ value ∧ value ≤ 1 ∧
           (0 < value ↔ (againstCount < forCount)%nat) ∧
           (value < 0 ↔ (forCount < againstCount)%nat) ∧
           (value = 0 ↔ forCount = againstCount).
Proof.
  intros forCount againstCount. unfold computeTripleValue. fold forCount againstCount.
  case_decide as Htotal.
  { exists 0. split; [done|]. split; [by vm_compute|]. split; [by vm_compute|].
    split; [split; [by intros ?%(irreflexivity Qclt)|lia]|].
    split; [split; [by intros ?%(irreflexivity Qclt)|lia]|]. split; [lia|done]. }
  rewrite checked_div_Ok by (by apply Qc_of_nat_nonzero). eexists. split; [done|].
  pose proof (Qc_of_nat_nonneg forCount) as Hf.
  pose proof (Qc_of_nat_nonneg againstCount) as Ha.
  pose proof (Qc_of_nat_lt againstCount forCount) as Hlt1.
  pose proof (Qc_of_nat_lt forCount againstCount) as Hlt2.
  pose proof (Qc_of_nat_inj forCount againstCount) as Heq.
  assert (0 < Qc_of_nat (forCount + againstCount)) as Hpos
    by (apply Qc_of_nat_pos; lia).
  assert (Qc_of_nat (forCount + againstCount) ≠ 0) as Hnz by (by apply Qc_of_nat_nonzero).
  rewrite Qc_of_nat_add in *.
  set (F := Qc_of_nat forCount) in *. set (A := Qc_of_nat againstCount) in *.
  clearbody F A.
  assert ((F - A) / (F + A) * (F + A) = F - A) as Hcancel by (by field).
  destruct (Qcdiv_between (- (1)) 1 (F - A) (F + A)) as [Hlo Hhi]; [done|qc_lra..|].
  split; [done|]. split; [done|].
  rewrite <-Hlt1, <-Hlt2, <-Heq.
  rewrite (Qcmult_lt_mono_pos_r 0 _ _ Hpos), (Qcmult_lt_mono_pos_r _ 0 _ Hpos).
  rewrite Hcancel, Qcmult_0_l.
  split; [split; intros; qc_lra|]. split; [split; intros; qc_lra|].
  split.
  - intros Hzero. rewrite Hzero, Qcmult_0_l in Hcancel. qc_lra.
  - intros ->. unfold Qcdiv. ring.
Qed.

(* ================================================================= *)
(** ** The configuration and the pre-trusted set of [compute] *)

Lemma iterate_config (fuel : nat) (config config' : EigenTrustConfig) (n : nat)
    (C : list (list Qc)) (p t : list Qc) (iterations : nat) :
  maxIterations config' = maxIterations config →
  convergenceThreshold config' = convergenceThreshold config →
  decayFactor config' = decayFactor config →
  iterate fuel config' n C p t iterations = iterate fuel config n C p t iterations.
Proof.
  intros Hmax Hthreshold Hdecay. revert t iterations.
  induction fuel as [|fuel IH]; intros t iterations; [done|]. cbn.
  rewrite Hmax, Hthreshold, Hdecay. case_decide; [|done]. case_decide; [done|].
  apply IH.
Qed.

(** X25.  [compute] never reads [preTrustedWeight]: two configurations
    that agree on the other three settings give the same result. *)
Theorem compute_ignores_preTrustedWeight (config config' : EigenTrustConfig)
    (es : list TrustEdge) (preTrusted : gset string) :
  maxIterations config' = maxIterations config →
  convergenceThreshold config' = convergenceThreshold config →
  decayFactor config' = decayFactor config →
  compute config' es preTrusted = compute config es preTrusted.
Proof.
  intros Hmax Hthreshold Hdecay. unfold compute. case_decide; [done|].
  destruct (buildNormalizedTrustMatrix _ _ _) as [C| | |]; [|done..].
  destruct (preTrustVector _ _ _) as [p| | |]; [|done..].
  cbn [mbind outcome_mbind outcome_bind].
  by rewrite Hmax, (iterate_config _ config config').
Qed.

Lemma compute_ignores_preTrustedWeight_witness :
  compute {| maxIterations := 50; convergenceThreshold := Q2Qc (1 # 10000);
             preTrustedWeight := 1; decayFactor := Q2Qc (85 # 100) |} graph_A_B ∅
  = compute DEFAULT_CONFIG graph_A_B ∅.
Proof. by apply compute_ignores_preTrustedWeight. Defined.

Lemma recurrence_step_zero (n : nat) (a : Qc) (C : list (list Qc)) (p t : list Qc) :
  (∀ j, at_index p j = 0) → (∀ i, at_index t i = 0) →
  ∀ j, at_index (recurrence_step n a C p t) j = 0.
Proof.
  intros Hp Ht j. unfold recurrence_step.
  destruct (decide (j < n)%nat) as [Hj|Hj].
  - rewrite (at_index_fmap_seq _ n j Hj), Hp.
    rewrite (sumQ_fmap_ext _ (λ _, 0)), sumQ_fmap_zero; [ring|].
    intros i _. cbn. rewrite Ht. ring.
  - unfold at_index. rewrite lookup_ge_None_2; [done|].
    rewrite length_fmap, length_seq. lia.
Qed.

Lemma trust_iterate_zero (n : nat) (a : Qc) (C : list (list Qc)) (p : list Qc) (k : nat) :
  (∀ j, at_index p j = 0) → ∀ j, at_index (trust_iterate n a C p k) j = 0.
Proof.
  intros Hp. induction k as [|k IH]; [done|]. cbn. by apply recurrence_step_zero.
Qed.

(** X26.  when the pre-trusted set is not empty but none of its addresses
    is an endpoint of an edge, every score [compute] returns is 0. *)
Theorem compute_absent_pretrusted_zero (config : EigenTrustConfig) (es : list TrustEdge)
    (preTrusted : gset string) :
  preTrusted ≠ ∅ →
  (∀ x e, x ∈ preTrusted → e ∈ es → x ≠ from e ∧ x ≠ to e) →
  ∃ r, compute config es preTrusted = Ok r ∧
       ∀ x v, scores r !! x = Some v → v = 0.
Proof.
  intros Hnonempty Habsent. destruct (decide (es = [])) as [->|Hes].
  { eexists. split; [by apply compute_empty_nodes|]. intros x v. cbn.
    by rewrite lookup_empty. }
  destruct (compute_scores config es preTrusted Hes) as (r & k & Hr & Hscores).
  exists r. split; [done|]. intros x v. rewrite Hscores.
  set (nodes := collectNodes es) in *. set (n := length nodes) in *.
  destruct (decide (x ∈ nodes)) as [[i Hi]%list_elem_of_lookup_1|Hx];
    [|by rewrite packageScores_lookup_None].
  rewrite (packageScores_lookup nodes _ i x) by (done || apply collectNodes_NoDup).
  intros [= <-]. apply trust_iterate_zero. intros j. unfold at_index.
  rewrite list_lookup_fmap. destruct (nodes !! j) as [y|] eqn:Hy; [|done]. cbn.
  assert (size preTrusted ≠ 0%nat) as Hsize by (by intros ?%size_empty_inv%leibniz_equiv).
  unfold preTrustMass. rewrite decide_True by lia.
  rewrite decide_False; [done|]. intros Hin.
  apply list_elem_of_lookup_2, elem_of_collectNodes in Hy as (e & He & Hends).
  destruct (Habsent y e Hin He). by destruct Hends.
Qed.

Lemma compute_absent_pretrusted_zero_witness :
  ∃ r, compute DEFAULT_CONFIG graph_A_B {["Z"%string]} = Ok r ∧
       ∀ x v, scores r !! x = Some v → v = 0.
Proof.
  apply compute_absent_pretrusted_zero; [done|].
  intros x e ->%elem_of_singleton ->%list_elem_of_singleton. by split.
Defined.

(* ================================================================= *)
(** ** Lower case and validity, together *)

(** X27.  lower-casing is idempotent and keeps a valid address valid, so
    what [findPath] accepts stays valid in the query; the converse fails:
    an address with the prefix [0X] is invalid, and valid once
    lower-cased, which is the form [score] validates. *)
Theorem lowercase_validity (address : string) :
  toLowerCase (toLowerCase address) = toLowerCase address ∧
  (isValidAddress address = true → isValidAddress (toLowerCase address) = true) ∧
  ∃ other, isValidAddress other = false ∧ isValidAddress (toLowerCase other) = true.
Proof.
  split; [apply toLowerCase_idem|]. split; [apply isValidAddress_toLowerCase|].
  by exists (String "0" (String "X" (foldr String EmptyString (replicate 40 "a"%char)))).
Qed.

(* ================================================================= *)
(** ** The iteration contracts *)

Lemma sumQ_fmap_le {A} (f g : A → Qc) (l : list A) :
  (∀ x, x ∈ l → f x ≤ g x) → sumQ (f <$> l) ≤ sumQ (g <$> l).
Proof.
  induction l as [|x l IH]; intros Hle; [apply Qcle_refl|].
  rewrite !fmap_cons, !sumQ_cons. apply Qcplus_le_compat; [apply Hle; left|].
  apply IH. intros y Hy. apply Hle. by right.
Qed.

Lemma Qcabs_sumQ {A} (f : A → Qc) (l : list A) :
  Qcabs (sumQ (f <$> l)) ≤ sumQ ((λ x, Qcabs (f x)) <$> l).
Proof.
  induction l as [|x l IH]; [by vm_compute|].
  rewrite !fmap_cons, !sumQ_cons. etrans; [apply Qcabs_triangle|].
  apply Qcplus_le_compat; [apply Qcle_refl|done].
Qed.

Lemma sumQ_fmap_minus {A} (f g : A → Qc) (l : list A) :
  sumQ (f <$> l) - sumQ (g <$> l) = sumQ ((λ x, f x - g x) <$> l).
Proof.
  induction l as [|x l IH]; [cbn; ring|].
  rewrite !fmap_cons, !sumQ_cons, <-IH. ring.
Qed.

Lemma sumQ_fmap_scale_l {A} (c : Qc) (f : A → Qc) (l : list A) :
  sumQ ((λ x, c * f x) <$> l) = c * sumQ (f <$> l).
Proof.
  induction l as [|x l IH]; [cbn; ring|].
  rewrite !fmap_cons, !sumQ_cons, IH. ring.
Qed.

Section contraction.
Context (n : nat) (a : Qc) (C : list (list Qc)) (p : list Qc).
Context (Ha : 0 ≤ a) (HC : row_stochastic n C) (Hnonneg : Forall (Forall (Qcle 0)) C).

Lemma recurrence_step_difference (t t' : list Qc) (j : nat) :
  (j < n)%nat →
  at_index (recurrence_step n a C p t) j - at_index (recurrence_step n a C p t') j
  = a * sumQ ((λ i, entry C i j * (at_index t i - at_index t' i)) <$> seq 0 n).
Proof.
  intros Hj. unfold recurrence_step. rewrite !(at_index_fmap_seq _ n j Hj).
  rewrite (sumQ_fmap_ext (λ i, entry C i j * (at_index t i - at_index t' i))
             (λ i, entry C i j * at_index t i - entry C i j * at_index t' i))
    by (intros; cbn beta; ring).
  rewrite <-sumQ_fmap_minus. ring.
Qed.

(** One pass of the propagation brings two vectors closer by the factor
    [a], in the L1 norm. *)
Lemma recurrence_step_contracts (t t' : list Qc) :
  l1_distance n (recurrence_step n a C p t) (recurrence_step n a C p t')
  ≤ a * l1_distance n t t'.
Proof.
  unfold l1_distance.
  etrans.
  { apply (sumQ_fmap_le _
      (λ j, a * sumQ ((λ i, entry C i j * Qcabs (at_index t i - at_index t' i))
                        <$> seq 0 n))).
    intros j Hj%elem_of_seq. cbn beta.
    rewrite recurrence_step_difference by lia.
    rewrite Qcabs_Qcmult, (Qcabs_pos a Ha).
    apply Qcmult_le_mono_nonneg_l; [done|].
    etrans; [apply Qcabs_sumQ|]. apply sumQ_fmap_le. intros i _. cbn beta.
    rewrite Qcabs_Qcmult, (Qcabs_pos (entry C i j)); [apply Qcle_refl|].
    by apply entry_nonneg. }
  rewrite sumQ_fmap_scale_l. apply Qcmult_le_mono_nonneg_l; [done|].
  rewrite (sumQ_exchange (λ i j, entry C i j * Qcabs (at_index t i - at_index t' i))).
  rewrite (sumQ_fmap_ext _ (λ i, Qcabs (at_index t i - at_index t' i)));
    [apply Qcle_refl|].
  intros i Hi%elem_of_seq. cbn beta. rewrite sumQ_fmap_scale.
  destruct HC as [Hlen Hrows].
  destruct (lookup_lt_is_Some_2 C i) as [row Hrow]; [lia|].
  destruct (Hrows i row Hrow) as [Hlenrow Hsum].
  rewrite (sumQ_row n C i row) by done. rewrite Hsum. ring.
Qed.

(** The distances between successive iterates shrink geometrically. *)
Lemma trust_iterate_contracts (k : nat) :
  l1_distance n (trust_iterate n a C p (S (S k))) (trust_iterate n a C p (S k))
  ≤ a * l1_distance n (trust_iterate n a C p (S k)) (trust_iterate n a C p k).
Proof. cbn [trust_iterate]. apply recurrence_step_contracts. Qed.

Lemma trust_iterate_geometric (k : nat) :
  l1_distance n (trust_iterate n a C p (S k)) (trust_iterate n a C p k)
  ≤ a ^ k * l1_distance n (trust_iterate n a C p 1) (trust_iterate n a C p 0).
Proof.
  induction k as [|k IH]; [rewrite Qcmult_1_l; apply Qcle_refl|].
  etrans; [apply trust_iterate_contracts|].
  change (a ^ S k) with (a * a ^ k). rewrite <-Qcmult_assoc.
  by apply Qcmult_le_mono_nonneg_l.
Qed.
End contraction.

Lemma normalized_matrix_nonneg (es : list TrustEdge) :
  Forall (Forall (Qcle 0))
    (normalizedRow (length (collectNodes es))
       <$> rawTrustMatrix es (collectNodes es) (buildNodeIndex (collectNodes es))).
Proof.
  apply Forall_fmap. eapply Forall_impl;
    [apply rawTrustMatrix_nonneg, collectNodes_NoDup|].
  intros row Hrow. by apply normalizedRow_nonneg.
Qed.

(* ================================================================= *)
(** ** Convergence *)

(** When a power of the decay factor brings the first [diff] below the
    threshold, the loop converges within as many iterations, plus one. *)
Lemma compute_converges_by (config : EigenTrustConfig) (es : list TrustEdge)
    (preTrusted : gset string) (k m : nat) :
  es ≠ [] → 0 ≤ decayFactor config →
  let nodes := collectNodes es in
  let n := length nodes in
  let C := normalizedRow n <$> rawTrustMatrix es nodes (buildNodeIndex nodes) in
  let p := preTrustMass preTrusted n <$> nodes in
  let a := decayFactor config in
  a ^ k * l1_distance n (trust_iterate n a C p 1) (trust_iterate n a C p 0)
    < convergenceThreshold config →
  (S k ≤ m)%nat →
  ∃ r, compute {| maxIterations := m;
                  convergenceThreshold := convergenceThreshold config;
                  preTrustedWeight := preTrustedWeight config;
                  decayFactor := decayFactor config |} es preTrusted = Ok r ∧
       converged r = true ∧ (iterations r ≤ S k)%nat.
Proof.
  intros Hes Ha0 nodes n C p a Hk Hm.
  set (config' := {| maxIterations := m;
                     convergenceThreshold := convergenceThreshold config;
                     preTrustedWeight := preTrustedWeight config;
                     decayFactor := decayFactor config |}).
  assert (l1_distance n (trust_iterate n a C p (S k)) (trust_iterate n a C p k)
          < convergenceThreshold config) as Hbelow.
  { eapply Qcle_lt_trans; [|done].
    apply trust_iterate_geometric;
      done || apply normalized_row_stochastic || apply normalized_matrix_nonneg. }
  rewrite compute_nonempty by done. fold nodes n C p.
  destruct (iterate_from config' n C p m 0 (S m)) as
    [(k' & Hk' & _ & Hfirst & Hrun)|[Hnone _]]; [done|lia| |].
  - cbn [trust_iterate] in Hrun. change (maxIterations config') with m.
    rewrite Hrun. cbn.
    eexists. split; [done|]. split; [done|]. cbn.
    destruct (decide (k' ≤ S k)%nat) as [|Hgt]; [done|].
    destruct (Hfirst (S k)); [lia|done].
  - destruct (Hnone (S k)); [cbn; lia|done].
Qed.

(** Two vectors without negative entries are no further apart than their
    sums together. *)
Lemma l1_distance_le_sums (u v : list Qc) :
  Forall (Qcle 0) u → Forall (Qcle 0) v → length v = length u →
  l1_distance (length u) u v ≤ sumQ u + sumQ v.
Proof.
  intros Hu Hv Hlen. unfold l1_distance.
  rewrite <-(sumQ_at_index u), <-(sumQ_at_index v), Hlen.
  rewrite <-sumQ_fmap_plus. apply sumQ_fmap_le. intros i _. cbn beta.
  pose proof (at_index_nonneg u i Hu) as Hx. pose proof (at_index_nonneg v i Hv) as Hy.
  apply Qcabs_Qcle_condition. set (x := at_index u i) in *. set (y := at_index v i) in *.
  clearbody x y. split; qc_lra.
Qed.

(** X30.  With the default decay factor 0.85 and the default threshold
    0.0001, 62 iterations are enough for every graph and every pre-trusted
    set: with [maxIterations] of at least 62, [compute] returns
    [converged = true] after at most 62 iterations.  The default of 50 is
    not always enough: on the two-node cycle with one node pre-trusted,
    [compute] with the default configuration stops after 50 iterations
    with [converged = false]. *)
Theorem default_iterations_bound :
  (∀ (es : list TrustEdge) (preTrusted : gset string) (maxIterations' : nat),
     (62 ≤ maxIterations')%nat →
     ∃ r, compute {| maxIterations := maxIterations';
                     convergenceThreshold := convergenceThreshold DEFAULT_CONFIG;
                     preTrustedWeight := preTrustedWeight DEFAULT_CONFIG;
                     decayFactor := decayFactor DEFAULT_CONFIG |} es preTrusted = Ok r ∧
          converged r = true ∧ (iterations r ≤ 62)%nat) ∧
  (λ r, (iterations r, converged r)) <$> compute DEFAULT_CONFIG graph_cycle {["A"%string]}
  = Ok (50%nat, false).
Proof.
  split; [|by vm_compute].
  intros es preTrusted m Hm. destruct (decide (es = [])) as [->|Hes].
  { eexists. split; [by apply compute_empty_nodes|]. split; [done|cbn; lia]. }
  apply (compute_converges_by DEFAULT_CONFIG es preTrusted 61 m);
    [done|by vm_compute| |done].
  set (nodes := collectNodes es). set (n := length nodes).
  set (C := normalizedRow n <$> rawTrustMatrix es nodes (buildNodeIndex nodes)).
  set (p := preTrustMass preTrusted n <$> nodes).
  set (a := decayFactor DEFAULT_CONFIG).
  assert (NoDup nodes) as Hnd by apply collectNodes_NoDup.
  assert (nodes ≠ []) as Hne by (by intros ?%collectNodes_nil_iff).
  assert (length p = n) as Hp by (unfold p; by rewrite length_fmap).
  assert (0 ≤ a ∧ a ≤ 1) as [Ha0 Ha1] by (split; by vm_compute).
  assert (Forall (Qcle 0) p) as Hpnn.
  { apply Forall_fmap, Forall_forall. intros y _. apply preTrustMass_nonneg. }
  assert (l1_distance n (trust_iterate n a C p 1) (trust_iterate n a C p 0) ≤ 1 + 1)
    as Hfirst.
  { pose proof (trust_iterate_length n a C p Hp 1) as Hlen1.
    rewrite <-Hlen1 at 1. etrans.
    - apply l1_distance_le_sums;
        [apply trust_iterate_nonneg; done || apply normalized_matrix_nonneg
        |done|by rewrite Hlen1].
    - rewrite (trust_iterate_mass n a C p (normalized_row_stochastic es nodes) Hp 1).
      cbn [trust_iterate].
      pose proof (preTrust_mass_le_1 nodes preTrusted Hnd Hne) as Hmass.
      fold n p in Hmass. set (mass := sumQ p) in *. clearbody mass. qc_lra. }
  eapply Qcle_lt_trans;
    [apply Qcmult_le_mono_nonneg_l; [by apply Qcpower_pos|exact Hfirst]|].
  by vm_compute.
Qed.
